(** * su2higgs: local field algebra of the SU(2) + scalars lattice code

    A shallow embedding of the arithmetic kernels of [su2u1.c], [magfield.c]
    and [measure.c].

    Numbers.  The C code computes on [double]s.  The algebraic identities
    the code is built on hold in exact arithmetic, so the main model takes
    a [double] to be a real number ([R]) and the libm functions [sqrt],
    [sin], [cos] to be the real ones.  Where a statement is about IEEE
    behaviour itself (division by a vanishing modulus), the routine is
    modelled a second time on binary64 floats, in module [Binary64].

    Buffers.  A [double u[4]] is a record of four reals, a [double a[3]] a
    record of three, a [double m[8]] a record of eight; [u.[k]] is the C
    expression [u[k]].  A routine that fills a caller-supplied buffer
    returns the buffer's new contents.  The in-place routines [su2rot] and
    [matmat] are modelled a second time on a flat store of doubles
    ([su2rot_inplace], [matmat_inplace]) where operand buffers are
    addresses and may overlap.

    Loops.  [for (int j = 0; j < n; j++) body] is [for_loop n body]. *)

From Stdlib Require Import Floats.
From Stdlib Require Import ZArith Reals Lra Lia List Arith Bool Permutation.
From Stdlib Require Import FunctionalExtensionality.
Import ListNotations.

Open Scope R_scope.

(** ** Buffers of doubles *)

(** [double u[SU2LINK]], [double phi[SU2DB]]: four reals. *)
Record su2mat : Type := SU2 { su2_c0 : R; su2_c1 : R; su2_c2 : R; su2_c3 : R }.

(** [double a[SU2TRIP]]: three reals. *)
Record triplet : Type := Trip { trip_c0 : R; trip_c1 : R; trip_c2 : R }.

(** [double m[8]]: a complex 2x2 matrix, real and imaginary part of each
    entry, row by row. *)
Record cmat : Type := CMat {
  cm0 : R; cm1 : R; cm2 : R; cm3 : R; cm4 : R; cm5 : R; cm6 : R; cm7 : R }.

Class Buffer (T : Type) : Type := at_ : T -> nat -> R.

#[export] Instance su2mat_buffer : Buffer su2mat := fun u k =>
  match k with
  | O => su2_c0 u | 1%nat => su2_c1 u | 2%nat => su2_c2 u | _ => su2_c3 u
  end.

#[export] Instance triplet_buffer : Buffer triplet := fun a k =>
  match k with
  | O => trip_c0 a | 1%nat => trip_c1 a | _ => trip_c2 a
  end.

#[export] Instance cmat_buffer : Buffer cmat := fun m k =>
  match k with
  | O => cm0 m | 1%nat => cm1 m | 2%nat => cm2 m | 3%nat => cm3 m
  | 4%nat => cm4 m | 5%nat => cm5 m | 6%nat => cm6 m | _ => cm7 m
  end.

Notation "u .[ k ]" := (at_ u k%nat)
  (at level 1, left associativity, format "u .[ k ]").

(** The identity link (1,0,0,0). *)
Definition su2_one : su2mat := SU2 1 0 0 0.

(** [for (int k=0; k<SU2LINK; k++) a[k] += b[k];] *)
Definition su2_add (a b : su2mat) : su2mat :=
  SU2 (a.[0] + b.[0]) (a.[1] + b.[1]) (a.[2] + b.[2]) (a.[3] + b.[3]).

(** [for (int k=0; k<SU2LINK; k++) a[k] /= c;] *)
Definition su2_div (a : su2mat) (c : R) : su2mat :=
  SU2 (a.[0] / c) (a.[1] / c) (a.[2] / c) (a.[3] / c).

(** [for (int k=1; k<SU2LINK; k++) u[k] = -1.0 * u[k];] *)
Definition su2_conj (u : su2mat) : su2mat :=
  SU2 (u.[0]) (-1 * u.[1]) (-1 * u.[2]) (-1 * u.[3]).

(** ** Loops *)

(** [for (int j = 0; j < n; j++) s = body(j, s);] *)
Definition for_loop {S : Type} (n : nat) (body : nat -> S -> S) (init : S) : S :=
  fold_left (fun s j => body j s) (seq 0 n) init.

(** [for (int j = lo; j < hi; j++) s = body(j, s);] *)
Definition for_range {S : Type} (lo hi : nat) (body : nat -> S -> S) (init : S) : S :=
  fold_left (fun s j => body j s) (seq lo (hi - lo)) init.

(** ** su2u1.c: compact-matrix algebra *)

Definition su2sqr (u : su2mat) : R :=
  u.[0]*u.[0] + u.[1]*u.[1] + u.[2]*u.[2] + u.[3]*u.[3].

(** [su2rot(u1, u2)]: the new contents of [u1]. *)
Definition su2rot (u1 u2 : su2mat) : su2mat :=
  let new1 := u1.[0]*u2.[0] - u1.[1]*u2.[1] - u1.[2]*u2.[2] - u1.[3]*u2.[3] in
  let new2 := u1.[1]*u2.[0] + u1.[0]*u2.[1] + u1.[3]*u2.[2] - u1.[2]*u2.[3] in
  let new3 := u1.[2]*u2.[0] - u1.[3]*u2.[1] + u1.[0]*u2.[2] + u1.[1]*u2.[3] in
  let new4 := u1.[3]*u2.[0] + u1.[2]*u2.[1] - u1.[1]*u2.[2] + u1.[0]*u2.[3] in
  SU2 new1 new2 new3 new4.

Definition su2trace4 (u1 u2 u3 u4 : su2mat) : R :=
  2 * (u1.[0]*u2.[0]*u3.[0]*u4.[0] - u1.[1]*u2.[1]*u3.[0]*u4.[0] - u1.[2]*u2.[2]*u3.[0]*u4.[0] -
   u1.[3]*u2.[3]*u3.[0]*u4.[0] + u1.[1]*u2.[0]*u3.[1]*u4.[0] + u1.[0]*u2.[1]*u3.[1]*u4.[0] +
   u1.[3]*u2.[2]*u3.[1]*u4.[0] - u1.[2]*u2.[3]*u3.[1]*u4.[0] + u1.[2]*u2.[0]*u3.[2]*u4.[0] -
   u1.[3]*u2.[1]*u3.[2]*u4.[0] + u1.[0]*u2.[2]*u3.[2]*u4.[0] + u1.[1]*u2.[3]*u3.[2]*u4.[0] +
   u1.[3]*u2.[0]*u3.[3]*u4.[0] + u1.[2]*u2.[1]*u3.[3]*u4.[0] - u1.[1]*u2.[2]*u3.[3]*u4.[0] +
   u1.[0]*u2.[3]*u3.[3]*u4.[0] + u1.[1]*u2.[0]*u3.[0]*u4.[1] + u1.[0]*u2.[1]*u3.[0]*u4.[1] +
   u1.[3]*u2.[2]*u3.[0]*u4.[1] - u1.[2]*u2.[3]*u3.[0]*u4.[1] - u1.[0]*u2.[0]*u3.[1]*u4.[1] +
   u1.[1]*u2.[1]*u3.[1]*u4.[1] + u1.[2]*u2.[2]*u3.[1]*u4.[1] + u1.[3]*u2.[3]*u3.[1]*u4.[1] -
   u1.[3]*u2.[0]*u3.[2]*u4.[1] - u1.[2]*u2.[1]*u3.[2]*u4.[1] + u1.[1]*u2.[2]*u3.[2]*u4.[1] -
   u1.[0]*u2.[3]*u3.[2]*u4.[1] + u1.[2]*u2.[0]*u3.[3]*u4.[1] - u1.[3]*u2.[1]*u3.[3]*u4.[1] +
   u1.[0]*u2.[2]*u3.[3]*u4.[1] + u1.[1]*u2.[3]*u3.[3]*u4.[1] + u1.[2]*u2.[0]*u3.[0]*u4.[2] -
   u1.[3]*u2.[1]*u3.[0]*u4.[2] + u1.[0]*u2.[2]*u3.[0]*u4.[2] + u1.[1]*u2.[3]*u3.[0]*u4.[2] +
   u1.[3]*u2.[0]*u3.[1]*u4.[2] + u1.[2]*u2.[1]*u3.[1]*u4.[2] - u1.[1]*u2.[2]*u3.[1]*u4.[2] +
   u1.[0]*u2.[3]*u3.[1]*u4.[2] - u1.[0]*u2.[0]*u3.[2]*u4.[2] + u1.[1]*u2.[1]*u3.[2]*u4.[2] +
   u1.[2]*u2.[2]*u3.[2]*u4.[2] + u1.[3]*u2.[3]*u3.[2]*u4.[2] - u1.[1]*u2.[0]*u3.[3]*u4.[2] -
   u1.[0]*u2.[1]*u3.[3]*u4.[2] - u1.[3]*u2.[2]*u3.[3]*u4.[2] + u1.[2]*u2.[3]*u3.[3]*u4.[2] +
   u1.[3]*u2.[0]*u3.[0]*u4.[3] + u1.[2]*u2.[1]*u3.[0]*u4.[3] - u1.[1]*u2.[2]*u3.[0]*u4.[3] +
   u1.[0]*u2.[3]*u3.[0]*u4.[3] - u1.[2]*u2.[0]*u3.[1]*u4.[3] + u1.[3]*u2.[1]*u3.[1]*u4.[3] -
   u1.[0]*u2.[2]*u3.[1]*u4.[3] - u1.[1]*u2.[3]*u3.[1]*u4.[3] + u1.[1]*u2.[0]*u3.[2]*u4.[3] +
   u1.[0]*u2.[1]*u3.[2]*u4.[3] + u1.[3]*u2.[2]*u3.[2]*u4.[3] - u1.[2]*u2.[3]*u3.[2]*u4.[3] -
   u1.[0]*u2.[0]*u3.[3]*u4.[3] + u1.[1]*u2.[1]*u3.[3]*u4.[3] + u1.[2]*u2.[2]*u3.[3]*u4.[3] +
   u1.[3]*u2.[3]*u3.[3]*u4.[3]).

(** [su2staple_counterwise(V, u1, u2, u3)]: the contents written to [V]. *)
Definition su2staple_counterwise (u1 u2 u3 : su2mat) : su2mat :=
  SU2
  (u1.[0]*u2.[0]*u3.[0] + u1.[1]*u2.[1]*u3.[0] + u1.[2]*u2.[2]*u3.[0] + u1.[3]*u2.[3]*u3.[0] +
   u1.[1]*u2.[0]*u3.[1] - u1.[0]*u2.[1]*u3.[1] - u1.[3]*u2.[2]*u3.[1] +
   u1.[2]*u2.[3]*u3.[1] + u1.[2]*u2.[0]*u3.[2] + u1.[3]*u2.[1]*u3.[2] -
   u1.[0]*u2.[2]*u3.[2] - u1.[1]*u2.[3]*u3.[2] + u1.[3]*u2.[0]*u3.[3] -
   u1.[2]*u2.[1]*u3.[3] + u1.[1]*u2.[2]*u3.[3] - u1.[0]*u2.[3]*u3.[3])
  (u1.[1]*u2.[0]*u3.[0] - u1.[0]*u2.[1]*u3.[0] - u1.[3]*u2.[2]*u3.[0] + u1.[2]*u2.[3]*u3.[0] -
   u1.[0]*u2.[0]*u3.[1] - u1.[1]*u2.[1]*u3.[1] - u1.[2]*u2.[2]*u3.[1] -
   u1.[3]*u2.[3]*u3.[1] - u1.[3]*u2.[0]*u3.[2] + u1.[2]*u2.[1]*u3.[2] -
   u1.[1]*u2.[2]*u3.[2] + u1.[0]*u2.[3]*u3.[2] + u1.[2]*u2.[0]*u3.[3] +
   u1.[3]*u2.[1]*u3.[3] - u1.[0]*u2.[2]*u3.[3] - u1.[1]*u2.[3]*u3.[3])
  (u1.[2]*u2.[0]*u3.[0] + u1.[3]*u2.[1]*u3.[0] - u1.[0]*u2.[2]*u3.[0] - u1.[1]*u2.[3]*u3.[0] +
   u1.[3]*u2.[0]*u3.[1] - u1.[2]*u2.[1]*u3.[1] + u1.[1]*u2.[2]*u3.[1] -
   u1.[0]*u2.[3]*u3.[1] - u1.[0]*u2.[0]*u3.[2] - u1.[1]*u2.[1]*u3.[2] -
   u1.[2]*u2.[2]*u3.[2] - u1.[3]*u2.[3]*u3.[2] - u1.[1]*u2.[0]*u3.[3] +
   u1.[0]*u2.[1]*u3.[3] + u1.[3]*u2.[2]*u3.[3] - u1.[2]*u2.[3]*u3.[3])
  (u1.[3]*u2.[0]*u3.[0] - u1.[2]*u2.[1]*u3.[0] + u1.[1]*u2.[2]*u3.[0] - u1.[0]*u2.[3]*u3.[0] -
   u1.[2]*u2.[0]*u3.[1] - u1.[3]*u2.[1]*u3.[1] + u1.[0]*u2.[2]*u3.[1] +
   u1.[1]*u2.[3]*u3.[1] + u1.[1]*u2.[0]*u3.[2] - u1.[0]*u2.[1]*u3.[2] -
   u1.[3]*u2.[2]*u3.[2] + u1.[2]*u2.[3]*u3.[2] - u1.[0]*u2.[0]*u3.[3] -
   u1.[1]*u2.[1]*u3.[3] - u1.[2]*u2.[2]*u3.[3] - u1.[3]*u2.[3]*u3.[3]).

(** [su2staple_clockwise(V, u1, u2, u3)]: the contents written to [V]. *)
Definition su2staple_clockwise (u1 u2 u3 : su2mat) : su2mat :=
  SU2
  (u1.[0]*u2.[0]*u3.[0] - u1.[1]*u2.[1]*u3.[0] - u1.[2]*u2.[2]*u3.[0] - u1.[3]*u2.[3]*u3.[0] +
   u1.[1]*u2.[0]*u3.[1] + u1.[0]*u2.[1]*u3.[1] - u1.[3]*u2.[2]*u3.[1] +
   u1.[2]*u2.[3]*u3.[1] + u1.[2]*u2.[0]*u3.[2] + u1.[3]*u2.[1]*u3.[2] +
   u1.[0]*u2.[2]*u3.[2] - u1.[1]*u2.[3]*u3.[2] + u1.[3]*u2.[0]*u3.[3] -
   u1.[2]*u2.[1]*u3.[3] + u1.[1]*u2.[2]*u3.[3] + u1.[0]*u2.[3]*u3.[3])
  (-u1.[1]*u2.[0]*u3.[0] - u1.[0]*u2.[1]*u3.[0] + u1.[3]*u2.[2]*u3.[0] -
   u1.[2]*u2.[3]*u3.[0] + u1.[0]*u2.[0]*u3.[1] - u1.[1]*u2.[1]*u3.[1] -
   u1.[2]*u2.[2]*u3.[1] - u1.[3]*u2.[3]*u3.[1] - u1.[3]*u2.[0]*u3.[2] +
   u1.[2]*u2.[1]*u3.[2] - u1.[1]*u2.[2]*u3.[2] - u1.[0]*u2.[3]*u3.[2] +
   u1.[2]*u2.[0]*u3.[3] + u1.[3]*u2.[1]*u3.[3] + u1.[0]*u2.[2]*u3.[3] - u1.[1]*u2.[3]*u3.[3])
  (-(u1.[2]*u2.[0]*u3.[0]) - u1.[3]*u2.[1]*u3.[0] - u1.[0]*u2.[2]*u3.[0] +
   u1.[1]*u2.[3]*u3.[0] + u1.[3]*u2.[0]*u3.[1] - u1.[2]*u2.[1]*u3.[1] +
   u1.[1]*u2.[2]*u3.[1] + u1.[0]*u2.[3]*u3.[1] + u1.[0]*u2.[0]*u3.[2] -
   u1.[1]*u2.[1]*u3.[2] - u1.[2]*u2.[2]*u3.[2] - u1.[3]*u2.[3]*u3.[2] -
   u1.[1]*u2.[0]*u3.[3] - u1.[0]*u2.[1]*u3.[3] + u1.[3]*u2.[2]*u3.[3] - u1.[2]*u2.[3]*u3.[3])
  (-(u1.[3]*u2.[0]*u3.[0]) + u1.[2]*u2.[1]*u3.[0] - u1.[1]*u2.[2]*u3.[0] -
   u1.[0]*u2.[3]*u3.[0] - u1.[2]*u2.[0]*u3.[1] - u1.[3]*u2.[1]*u3.[1] -
   u1.[0]*u2.[2]*u3.[1] + u1.[1]*u2.[3]*u3.[1] + u1.[1]*u2.[0]*u3.[2] +
   u1.[0]*u2.[1]*u3.[2] - u1.[3]*u2.[2]*u3.[2] + u1.[2]*u2.[3]*u3.[2] +
   u1.[0]*u2.[0]*u3.[3] - u1.[1]*u2.[1]*u3.[3] - u1.[2]*u2.[2]*u3.[3] - u1.[3]*u2.[3]*u3.[3]).

(** ** Lattice, fields, parameters and build flags *)

(** [lattice]: the part of the layout the routines read.  Sites and
    directions are non-negative indices; [next l i dir] is
    [l->next[i][dir]]. *)
Record lattice : Type := Lattice {
  dim : nat;
  sites : nat;
  next : nat -> nat -> nat;
  prev : nat -> nat -> nat }.

(** [fields]: [su2link f i dir] is the buffer [f->su2link[i][dir]],
    [singlet f i] is [f->singlet[i][0]]. *)
Record fields : Type := Fields {
  su2link : nat -> nat -> su2mat;
  u1link : nat -> nat -> R;
  su2doublet : nat -> su2mat;
  doublet2 : nat -> su2mat;
  su2triplet : nat -> triplet;
  singlet : nat -> R }.

Record complex : Type := Complex { re : R; im : R }.

Record params : Type := Params {
  betasu2 : R;
  betau1 : R;
  msq_phi : R;
  lambda_phi : R;
  msq_phi2 : R;
  m12sq : complex;
  lam2 : R;
  lam3 : R;
  lam4 : R;
  lam5 : complex;
  lam6 : complex;
  lam7 : complex;
  msq_triplet : R;
  b4 : R;
  a2 : R }.

(** The preprocessor flags.  The header that derives [HIGGS] and [HIGGS2]
    from the number of doublets is not among the sources; the flags are a
    parameter of the model, with [HIGGS] standing for [NHIGGS > 0] and
    [HIGGS2] for [NHIGGS == 2]. *)
Record config : Type := Config {
  NHIGGS : nat;
  TRIPLET : bool;
  U1 : bool;
  SINGLET : bool }.

Definition HIGGS (cfg : config) : bool := (0 <? NHIGGS cfg)%nat.
Definition HIGGS2 (cfg : config) : bool := (NHIGGS cfg =? 2)%nat.

(** ** su2u1.c: plaquettes and staples *)

Definition su2ptrace (l : lattice) (f : fields) (i dir1 dir2 : nat) : R :=
  let u1 := su2link f i dir1 in
  let u2 := su2link f (next l i dir1) dir2 in
  let u3 := su2link f (next l i dir2) dir1 in
  let u4 := su2link f i dir2 in
  su2trace4 u1 u2 u3 u4.

(** [su2plaquette(l, f, i, dir1, dir2, u1)]: the contents written to [u1]. *)
Definition su2plaquette (l : lattice) (f : fields) (i dir1 dir2 : nat) : su2mat :=
  let u1 := su2link f i dir1 in
  let u2 := su2link f (next l i dir1) dir2 in
  let u3 := su2link f (next l i dir2) dir1 in
  let u4 := su2link f i dir2 in
  (* conjugate u3 and u4 *)
  let u3 := su2_conj u3 in
  let u4 := su2_conj u4 in
  let u3 := su2rot u3 u4 in
  let u2 := su2rot u2 u3 in
  let u1 := su2rot u1 u2 in
  u1.

(** [su2staple_wilson(l, f, i, dir, V)]: the contents written to [V]. *)
Definition su2staple_wilson (l : lattice) (f : fields) (i dir : nat) : su2mat :=
  let tot := SU2 0 0 0 0 in
  let tot := for_loop (dim l) (fun j tot =>
    if negb (j =? dir)%nat then
      (* "upper" staple *)
      let u1 := su2link f (next l i dir) j in
      let u2 := su2link f (next l i j) dir in
      let u3 := su2link f i j in
      let V := su2staple_counterwise u1 u2 u3 in
      let tot := su2_add tot V in
      (* "lower" staple *)
      let u1 := su2link f (prev l (next l i dir) j) j in
      let u2 := su2link f (prev l i j) dir in
      let u3 := su2link f (prev l i j) j in
      let V := su2staple_clockwise u1 u2 u3 in
      su2_add tot V
    else tot) tot in
  SU2 (tot.[0]) (tot.[1]) (tot.[2]) (tot.[3]).

Definition local_su2wilson (l : lattice) (f : fields) (p : params) (i : nat) : R :=
  let res := 0 in
  let res := for_loop (dim l) (fun dir1 res =>
    for_loop dir1 (fun dir2 res =>
      res + (1 - 0.5 * su2ptrace l f i dir2 dir1)) res) res in
  let res := betasu2 p * res in
  res.

(** ** su2u1.c: U(1) links *)

Definition u1ptrace (l : lattice) (f : fields) (i dir1 dir2 : nat) : R :=
  let u1 := u1link f i dir1 in
  let u2 := u1link f (next l i dir1) dir2 in
  let u3 := u1link f (next l i dir2) dir1 in
  let u4 := u1link f i dir2 in
  cos (u1 + u2 - u3 - u4).

Definition local_u1wilson (l : lattice) (f : fields) (p : params) (i : nat) : R :=
  let res := 0 in
  let res := for_loop (dim l) (fun dir1 res =>
    for_loop dir1 (fun dir2 res =>
      res + (1 - u1ptrace l f i dir2 dir1)) res) res in
  betau1 p * res.

(** ** su2u1.c: doublets *)

Definition doubletsq (a : su2mat) : R :=
  0.5 * (a.[0]*a.[0] + a.[1]*a.[1] + a.[2]*a.[2] + a.[3]*a.[3]).

Definition hopping_trace (phi1 u phi2 : su2mat) : R :=
  phi1.[0]*phi2.[0]*u.[0] + phi1.[1]*phi2.[1]*u.[0] + phi1.[2]*phi2.[2]*u.[0] +
   phi1.[3]*phi2.[3]*u.[0] + phi1.[1]*phi2.[0]*u.[1] - phi1.[0]*phi2.[1]*u.[1] -
   phi1.[3]*phi2.[2]*u.[1] + phi1.[2]*phi2.[3]*u.[1] + phi1.[2]*phi2.[0]*u.[2] +
   phi1.[3]*phi2.[1]*u.[2] - phi1.[0]*phi2.[2]*u.[2] - phi1.[1]*phi2.[3]*u.[2] +
   phi1.[3]*phi2.[0]*u.[3] - phi1.[2]*phi2.[1]*u.[3] + phi1.[1]*phi2.[2]*u.[3] -
   phi1.[0]*phi2.[3]*u.[3].

Definition hopping_trace_su2u1 (phi1 u phi2 : su2mat) (a : R) : R :=
  let s := sin a in
  let c := cos a in
  c*phi1.[0]*phi2.[0]*u.[0] - s*phi1.[3]*phi2.[0]*u.[0] + c*phi1.[1]*phi2.[1]*u.[0] -
   s*phi1.[2]*phi2.[1]*u.[0] + s*phi1.[1]*phi2.[2]*u.[0] + c*phi1.[2]*phi2.[2]*u.[0] +
   s*phi1.[0]*phi2.[3]*u.[0] + c*phi1.[3]*phi2.[3]*u.[0] + c*phi1.[1]*phi2.[0]*u.[1] -
   s*phi1.[2]*phi2.[0]*u.[1] - c*phi1.[0]*phi2.[1]*u.[1] + s*phi1.[3]*phi2.[1]*u.[1] -
   s*phi1.[0]*phi2.[2]*u.[1] - c*phi1.[3]*phi2.[2]*u.[1] + s*phi1.[1]*phi2.[3]*u.[1] +
   c*phi1.[2]*phi2.[3]*u.[1] + s*phi1.[1]*phi2.[0]*u.[2] + c*phi1.[2]*phi2.[0]*u.[2] +
   s*phi1.[0]*phi2.[1]*u.[2] + c*phi1.[3]*phi2.[1]*u.[2] - c*phi1.[0]*phi2.[2]*u.[2] +
   s*phi1.[3]*phi2.[2]*u.[2] - c*phi1.[1]*phi2.[3]*u.[2] + s*phi1.[2]*phi2.[3]*u.[2] +
   s*phi1.[0]*phi2.[0]*u.[3] + c*phi1.[3]*phi2.[0]*u.[3] - s*phi1.[1]*phi2.[1]*u.[3] -
   c*phi1.[2]*phi2.[1]*u.[3] + c*phi1.[1]*phi2.[2]*u.[3] - s*phi1.[2]*phi2.[2]*u.[3] -
   c*phi1.[0]*phi2.[3]*u.[3] + s*phi1.[3]*phi2.[3]*u.[3].

(** [phi] is the doublet array passed in ([f->su2doublet] or [f->doublet2]). *)
Definition hopping_doublet_forward (cfg : config) (l : lattice) (f : fields)
    (p : params) (phi : nat -> su2mat) (i dir : nat) : R :=
  let phi1 := phi i in
  let tot := 0 in
  let phi2 := phi (next l i dir) in
  let U := su2link f i dir in
  if negb (U1 cfg) then
    tot - hopping_trace phi1 U phi2
  else
    tot - hopping_trace_su2u1 phi1 U phi2 (u1link f i dir).

Definition hopping_doublet_backward (cfg : config) (l : lattice) (f : fields)
    (p : params) (phi : nat -> su2mat) (i dir : nat) : R :=
  let phi2 := phi i in
  let tot := 0 in
  let previous := prev l i dir in
  let phi1 := phi previous in
  let U := su2link f previous dir in
  if negb (U1 cfg) then
    tot - hopping_trace phi1 U phi2
  else
    tot - hopping_trace_su2u1 phi1 U phi2 (u1link f previous dir).

Definition covariant_doublet (cfg : config) (l : lattice) (f : fields)
    (p : params) (phi : nat -> su2mat) (i : nat) : R :=
  let tot := 0 in
  let mod_ := doubletsq (phi i) in
  for_loop (dim l) (fun dir tot =>
    tot + (2 * mod_ + hopping_doublet_forward cfg l f p phi i dir)) tot.

(** ** su2u1.c: triplets *)

Definition tripletsq (a : triplet) : R :=
  0.5*(a.[0]*a.[0] + a.[1]*a.[1] + a.[2]*a.[2]).

Definition hopping_trace_triplet (a1 : triplet) (u : su2mat) (a2 : triplet) : R :=
  0.5 * ( a1.[0]*a2.[0]*(u.[0]*u.[0]) + a1.[1]*a2.[1]*(u.[0]*u.[0]) + a1.[2]*a2.[2]*(u.[0]*u.[0]) -
   2*a1.[2]*a2.[1]*u.[0]*u.[1] + 2*a1.[1]*a2.[2]*u.[0]*u.[1] + a1.[0]*a2.[0]*(u.[1]*u.[1]) -
   a1.[1]*a2.[1]*(u.[1]*u.[1]) - a1.[2]*a2.[2]*(u.[1]*u.[1]) + 2*a1.[2]*a2.[0]*u.[0]*u.[2] -
   2*a1.[0]*a2.[2]*u.[0]*u.[2] + 2*a1.[1]*a2.[0]*u.[1]*u.[2] + 2*a1.[0]*a2.[1]*u.[1]*u.[2] -
   a1.[0]*a2.[0]*(u.[2]*u.[2]) + a1.[1]*a2.[1]*(u.[2]*u.[2]) - a1.[2]*a2.[2]*(u.[2]*u.[2]) -
   2*a1.[1]*a2.[0]*u.[0]*u.[3] + 2*a1.[0]*a2.[1]*u.[0]*u.[3] + 2*a1.[2]*a2.[0]*u.[1]*u.[3] +
   2*a1.[0]*a2.[2]*u.[1]*u.[3] + 2*a1.[2]*a2.[1]*u.[2]*u.[3] + 2*a1.[1]*a2.[2]*u.[2]*u.[3] -
   a1.[0]*a2.[0]*(u.[3]*u.[3]) - a1.[1]*a2.[1]*(u.[3]*u.[3]) + a1.[2]*a2.[2]*(u.[3]*u.[3]) ).

Definition hopping_triplet_forward (l : lattice) (f : fields) (p : params)
    (i dir : nat) : R :=
  let a1 := su2triplet f i in
  let tot := 0 in
  let a2 := su2triplet f (next l i dir) in
  let U := su2link f i dir in
  tot - 2 * hopping_trace_triplet a1 U a2.

Definition hopping_triplet_backward (l : lattice) (f : fields) (p : params)
    (i dir : nat) : R :=
  let a2 := su2triplet f i in
  let tot := 0 in
  let previous := prev l i dir in
  let a1 := su2triplet f previous in
  let U := su2link f previous dir in
  tot - 2 * hopping_trace_triplet a1 U a2.

Definition covariant_triplet (l : lattice) (f : fields) (p : params) (i : nat) : R :=
  let tot := 0 in
  let mod_ := tripletsq (su2triplet f i) in
  for_loop (dim l) (fun dir tot =>
    tot + (2 * mod_ + hopping_triplet_forward l f p i dir)) tot.

(** ** su2u1.c: scalar potential *)

Definition higgspotential (cfg : config) (f : fields) (p : params) (i : nat) : R :=
  let pot := 0 in
  let mod_ := doubletsq (su2doublet f i) in
  let pot :=
    if HIGGS cfg then
      let pot := pot + (msq_phi p * mod_ + lambda_phi p * mod_*mod_) in
      if HIGGS2 cfg then
        let f11 := mod_ in
        let f22 := doubletsq (doublet2 f i) in
        let h1 := su2doublet f i in
        let h2 := doublet2 f i in
        let R_ := 0.5*(h1.[0]*h2.[0] + h1.[1]*h2.[1] + h1.[2]*h2.[2] + h1.[3]*h2.[3]) in
        let I_ := 0.5*(h1.[3]*h2.[0] + h1.[2]*h2.[1] - h1.[1]*h2.[2] - h1.[0]*h2.[3]) in
        pot + (msq_phi2 p * f22 + re (m12sq p) * R_ - im (m12sq p) * I_ + lam2 p * f22*f22
            + lam3 p * f11*f22 + lam4 p * (R_*R_ + I_*I_) + re (lam5 p)*(R_*R_ - I_*I_) - 2*im (lam5 p)*R_*I_
            + f11 * (re (lam6 p)*R_ - im (lam6 p)*I_) + f22*(re (lam7 p)*R_ + im (lam7 p)*I_))
      else pot
    else pot in
  let pot :=
    if TRIPLET cfg then
      let mod_trip := tripletsq (su2triplet f i) in
      let pot := pot + (msq_triplet p * mod_trip + b4 p * mod_trip * mod_trip) in
      if HIGGS cfg then pot + a2 p * mod_ * mod_trip else pot
    else pot in
  pot.

(** ** su2u1.c: the action of one link *)

Definition localact_su2link (cfg : config) (l : lattice) (f : fields) (p : params)
    (i dir : nat) : R :=
  let tot := 0 in
  let tot := for_loop (dim l) (fun dir2 tot =>
    if negb (dir2 =? dir)%nat then
      let tot := tot + (1 - 0.5 * su2ptrace l f i dir dir2) in
      tot + (1 - 0.5 * su2ptrace l f (prev l i dir2) dir dir2)
    else tot) tot in
  let tot := tot * betasu2 p in
  (* hopping terms *)
  let tot := if HIGGS cfg
             then tot + hopping_doublet_forward cfg l f p (su2doublet f) i dir
             else tot in
  let tot := if HIGGS2 cfg
             then tot + hopping_doublet_forward cfg l f p (doublet2 f) i dir
             else tot in
  let tot := if TRIPLET cfg
             then tot + hopping_triplet_forward l f p i dir
             else tot in
  tot.

(** ** measure.c: the action of one site, and its sum over the lattice *)

(** [measure.c] addresses the doublets by species index [db]; species 0 is
    [f->su2doublet] and species 1 is [f->doublet2] of [su2u1.c]. *)
Definition doublet_species (f : fields) (db : nat) : nat -> su2mat :=
  match db with
  | O => su2doublet f
  | _ => doublet2 f
  end.

Definition action_local (cfg : config) (l : lattice) (f : fields) (p : params)
    (i : nat) : R :=
  let tot := 0 in
  let tot := tot + local_su2wilson l f p i in
  let tot := if U1 cfg then tot + local_u1wilson l f p i else tot in
  let tot := tot + higgspotential cfg f p i in
  let tot := for_loop (NHIGGS cfg) (fun db tot =>
    tot + covariant_doublet cfg l f p (doublet_species f db) i) tot in
  let tot := if TRIPLET cfg then tot + covariant_triplet l f p i else tot in
  let tot :=
    if SINGLET cfg then
      let S := singlet f i in
      let tot := tot + INR (dim l) * S*S in
      for_loop (dim l) (fun dir tot =>
        let next_ := next l i dir in
        tot - S * singlet f next_) tot
    else tot in
  tot.

(** The accumulation [action += action_local(l, f, p, i)] over the sites
    in [measure]. *)
Definition total_action (cfg : config) (l : lattice) (f : fields) (p : params) : R :=
  let action := 0 in
  for_loop (sites l) (fun i action => action + action_local cfg l f p i) action.

(** ** su2u1.c: smearing *)

(** [su2staple_wilson_onedir(l, f, i, mu, nu, dagger, res)]: the contents
    written to [res]. *)
Definition su2staple_wilson_onedir (l : lattice) (f : fields) (i mu nu : nat)
    (dagger : Z) : su2mat :=
  if (mu =? nu)%nat then SU2 1 0 0 0
  else
    (* "upper" staple *)
    let u1 := su2link f (next l i mu) nu in
    let u2 := su2link f (next l i nu) mu in
    let u3 := su2link f i nu in
    let tot := su2staple_counterwise u1 u2 u3 in
    let tot := if negb (dagger =? 0)%Z then su2_conj tot else tot in
    let res := SU2 (tot.[0]) (tot.[1]) (tot.[2]) (tot.[3]) in
    (* "lower" staple *)
    let site := next l i mu in
    let site := prev l site nu in
    let u1 := su2link f site nu in
    let u2 := su2link f (prev l i nu) mu in
    let u3 := su2link f (prev l i nu) nu in
    let tot := su2staple_clockwise u1 u2 u3 in
    let tot := if negb (dagger =? 0)%Z then su2_conj tot else tot in
    su2_add res tot.

(** [smear_link(l, f, smear_dir, res, i, dir)]: whether the warning is
    printed, and the contents written to [res].  [smear_dir j] is the
    truth value of [smear_dir[j]]. *)
Definition smear_link (l : lattice) (f : fields) (smear_dir : nat -> bool)
    (i dir : nat) : bool * su2mat :=
  let warning := negb (smear_dir dir) in
  let res := su2link f i dir in
  let v2 := su2link f (next l i dir) dir in
  let paths := 1%nat in
  let '(res, v2, paths) :=
    for_loop (dim l) (fun j '(res, v2, paths) =>
      if negb (j =? dir)%nat && smear_dir j then
        let stap := su2staple_wilson_onedir l f i dir j 1 in
        let res := su2_add res stap in
        (* repeat for site x+dir *)
        let stap := su2staple_wilson_onedir l f (next l i dir) dir j 1 in
        let v2 := su2_add v2 stap in
        (res, v2, (paths + 2)%nat)
      else (res, v2, paths)) (res, v2, paths) in
  (* normalize *)
  let res := su2_div res (INR paths) in
  let v2 := su2_div v2 (INR paths) in
  let res := su2rot res v2 in
  let det := su2sqr res in
  let det := sqrt det in
  let res := su2_div res det in
  (warning, res).

(** [smear_triplet(l, f, smear_dir, res, i)]: the contents written to [res]. *)
Definition smear_triplet (l : lattice) (f : fields) (smear_dir : nat -> bool)
    (i : nat) : triplet :=
  let sites_ := 1%nat in
  let cov := Trip 0 0 0 in
  let '(cov, sites_) :=
    for_loop (dim l) (fun dir '(cov, sites_) =>
      if smear_dir dir then
        (* forward connection *)
        let u := su2link f i dir in
        let next_ := next l i dir in
        let b := su2triplet f next_ in
        let cov := Trip
          (cov.[0] + (b.[0]*(u.[0]*u.[0]) + b.[0]*(u.[1]*u.[1]) - 2*b.[2]*u.[0]*u.[2]
              + 2*b.[1]*u.[1]*u.[2] - b.[0]*(u.[2]*u.[2]) + 2*b.[1]*u.[0]*u.[3]
              + 2*b.[2]*u.[1]*u.[3] - b.[0]*(u.[3]*u.[3])))
          (cov.[1] + (b.[1]*(u.[0]*u.[0]) + 2*b.[2]*u.[0]*u.[1] - b.[1]*(u.[1]*u.[1])
              + 2*b.[0]*u.[1]*u.[2] + b.[1]*(u.[2]*u.[2]) - 2*b.[0]*u.[0]*u.[3]
              + 2*b.[2]*u.[2]*u.[3] - b.[1]*(u.[3]*u.[3])))
          (cov.[2] + (b.[2]*(u.[0]*u.[0]) - 2*b.[1]*u.[0]*u.[1] - b.[2]*(u.[1]*u.[1])
              + 2*b.[0]*u.[0]*u.[2] - b.[2]*(u.[2]*u.[2]) + 2*b.[0]*u.[1]*u.[3]
              + 2*b.[1]*u.[2]*u.[3] + b.[2]*(u.[3]*u.[3]))) in
        (* backward connection *)
        let prev_ := prev l i dir in
        let u := su2link f prev_ dir in
        let b := su2triplet f prev_ in
        let cov := Trip
          (cov.[0] + (b.[0]*(u.[0]*u.[0]) + b.[0]*(u.[1]*u.[1]) + 2*b.[2]*u.[0]*u.[2]
              + 2*b.[1]*u.[1]*u.[2] - b.[0]*(u.[2]*u.[2]) - 2*b.[1]*u.[0]*u.[3]
              + 2*b.[2]*u.[1]*u.[3] - b.[0]*(u.[3]*u.[3])))
          (cov.[1] + (b.[1]*(u.[0]*u.[0]) - 2*b.[2]*u.[0]*u.[1] - b.[1]*(u.[1]*u.[1])
              + 2*b.[0]*u.[1]*u.[2] + b.[1]*(u.[2]*u.[2]) + 2*b.[0]*u.[0]*u.[3]
              + 2*b.[2]*u.[2]*u.[3] - b.[1]*(u.[3]*u.[3])))
          (cov.[2] + (b.[2]*(u.[0]*u.[0]) + 2*b.[1]*u.[0]*u.[1] - b.[2]*(u.[1]*u.[1])
              - 2*b.[0]*u.[0]*u.[2] - b.[2]*(u.[2]*u.[2]) + 2*b.[0]*u.[1]*u.[3]
              + 2*b.[1]*u.[2]*u.[3] + b.[2]*(u.[3]*u.[3]))) in
        (cov, (sites_ + 2)%nat)
      else (cov, sites_)) (cov, sites_) in
  Trip (((su2triplet f i).[0] + cov.[0]) / INR sites_)
       (((su2triplet f i).[1] + cov.[1]) / INR sites_)
       (((su2triplet f i).[2] + cov.[2]) / INR sites_).

(** ** magfield.c: Abelian projection *)

(** libm's [atan2(y, x)]: the angle of the point (x, y), in (-PI, PI].
    Real numbers have no signed zero, so [atan2(-0.0, x)] for negative [x]
    has no counterpart here. *)
Definition atan2 (y x : R) : R :=
  if Rlt_dec 0 x then atan (y / x)
  else if Rlt_dec x 0 then
    (if Rle_dec 0 y then atan (y / x) + PI else atan (y / x) - PI)
  else if Rlt_dec 0 y then PI / 2
  else if Rlt_dec y 0 then - PI / 2
  else 0.

(** [matmat(in1, in2, dag)]: the new contents of [in1]. *)
Definition matmat (in1 in2 : cmat) (dag : Z) : cmat :=
  let a1 := in1.[0] in
  let b1 := in1.[1] in
  let c1 := in1.[2] in
  let d1 := in1.[3] in
  let e1 := in1.[4] in
  let f1 := in1.[5] in
  let g1 := in1.[6] in
  let h1 := in1.[7] in
  let a2 := in2.[0] in
  let b2 := in2.[1] in
  let c2 := in2.[2] in
  let d2 := in2.[3] in
  let e2 := in2.[4] in
  let f2 := in2.[5] in
  let g2 := in2.[6] in
  let h2 := in2.[7] in
  let '(b2, c2, d2, e2, f2, h2) :=
    if negb (dag =? 0)%Z then
      let b2 := -1*b2 in
      let temp := c2 in
      let c2 := e2 in
      let e2 := temp in
      let temp := d2 in
      let d2 := -1*f2 in
      let f2 := -1*temp in
      let h2 := -1*h2 in
      (b2, c2, d2, e2, f2, h2)
    else (b2, c2, d2, e2, f2, h2) in
  CMat
    (a1*a2 - b1*b2 + c1*e2 - d1*f2)
    (a2*b1 + a1*b2 + d1*e2 + c1*f2)
    (a1*c2 - b1*d2 + c1*g2 - d1*h2)
    (b1*c2 + a1*d2 + d1*g2 + c1*h2)
    (a2*e1 - b2*f1 + e2*g1 - f2*h1)
    (b2*e1 + a2*f1 + f2*g1 + e2*h1)
    (c2*e1 - d2*f1 + g1*g2 - h1*h2)
    (d2*e1 + c2*f1 + g2*h1 + g1*h2).

(** [sqrt(a1*a1 + a2*a2 + a3*a3)] of [projector]. *)
Definition modulus (adjoint : triplet) : R :=
  let a1 := adjoint.[0] in
  let a2 := adjoint.[1] in
  let a3 := adjoint.[2] in
  sqrt (a1*a1 + a2*a2 + a3*a3).

(** [projector(proj, adjoint)]: the contents written to [proj]. *)
Definition projector (adjoint : triplet) : triplet :=
  let a1 := adjoint.[0] in
  let a2 := adjoint.[1] in
  let a3 := adjoint.[2] in
  let modulus := sqrt (a1*a1 + a2*a2 + a3*a3) in
  Trip (2*a1/modulus) (2*a2/modulus) (2*a3/modulus).

(** [project_u1(p, f, i, dir, pro)]: the contents written to [pro].  In
    this file the neighbour table is reached through [p]; it is the
    [lattice] argument here. *)
Definition project_u1 (l : lattice) (f : fields) (i dir : nat) : cmat :=
  let nextsite := next l i dir in
  let hl := projector (su2triplet f i) in
  let hr := projector (su2triplet f nextsite) in
  let u := su2link f i dir in
  CMat
   (* (1,1) element, real and imag parts *)
   ((4*u.[0] + 2*hl.[2]*u.[0] + hl.[0]*hr.[0]*u.[0] + hl.[1]*hr.[1]*u.[0] +
             2*hr.[2]*u.[0] + hl.[2]*hr.[2]*u.[0] + 2*hl.[1]*u.[1] - 2*hr.[1]*u.[1] -
            hl.[2]*hr.[1]*u.[1] + hl.[1]*hr.[2]*u.[1] - 2*hl.[0]*u.[2] + 2*hr.[0]*u.[2] +
            hl.[2]*hr.[0]*u.[2] - hl.[0]*hr.[2]*u.[2] - hl.[1]*hr.[0]*u.[3] +
            hl.[0]*hr.[1]*u.[3])/16)
   ((4*u.[0] + 2*hl.[2]*u.[0] + hl.[0]*hr.[0]*u.[0] + hl.[1]*hr.[1]*u.[0] +
            2*hr.[2]*u.[0] + hl.[2]*hr.[2]*u.[0] + 2*hl.[1]*u.[1] - 2*hr.[1]*u.[1] -
            hl.[2]*hr.[1]*u.[1] + hl.[1]*hr.[2]*u.[1] - 2*hl.[0]*u.[2] + 2*hr.[0]*u.[2] +
            hl.[2]*hr.[0]*u.[2] - hl.[0]*hr.[2]*u.[2] - hl.[1]*hr.[0]*u.[3] +
            hl.[0]*hr.[1]*u.[3])/16)
   (* (1,2) element, real and imag *)
   ((2*hl.[0]*u.[0] + 2*hr.[0]*u.[0] + hl.[2]*hr.[0]*u.[0] - hl.[0]*hr.[2]*u.[0] +
             hl.[1]*hr.[0]*u.[1] + hl.[0]*hr.[1]*u.[1] + 4*u.[2] + 2*hl.[2]*u.[2] -
            hl.[0]*hr.[0]*u.[2] + hl.[1]*hr.[1]*u.[2] - 2*hr.[2]*u.[2] - hl.[2]*hr.[2]*u.[2]
            - 2*hl.[1]*u.[3] + 2*hr.[1]*u.[3] + hl.[2]*hr.[1]*u.[3] +
            hl.[1]*hr.[2]*u.[3])/16)
   ((2*hl.[0]*u.[0] + 2*hr.[0]*u.[0] + hl.[2]*hr.[0]*u.[0] - hl.[0]*hr.[2]*u.[0] +
             hl.[1]*hr.[0]*u.[1] + hl.[0]*hr.[1]*u.[1] + 4*u.[2] + 2*hl.[2]*u.[2] -
            hl.[0]*hr.[0]*u.[2] + hl.[1]*hr.[1]*u.[2] - 2*hr.[2]*u.[2] - hl.[2]*hr.[2]*u.[2]
            - 2*hl.[1]*u.[3] + 2*hr.[1]*u.[3] + hl.[2]*hr.[1]*u.[3] +
            hl.[1]*hr.[2]*u.[3])/16)
   (* (2,1) element, real and imag *)
   ((2*hl.[0]*u.[0] + 2*hr.[0]*u.[0] - hl.[2]*hr.[0]*u.[0] + hl.[0]*hr.[2]*u.[0] -
             hl.[1]*hr.[0]*u.[1] - hl.[0]*hr.[1]*u.[1] - 4*u.[2] + 2*hl.[2]*u.[2] +
             hl.[0]*hr.[0]*u.[2] - hl.[1]*hr.[1]*u.[2] - 2*hr.[2]*u.[2] + hl.[2]*hr.[2]*u.[2]
            - 2*hl.[1]*u.[3] + 2*hr.[1]*u.[3] - hl.[2]*hr.[1]*u.[3] -
            hl.[1]*hr.[2]*u.[3])/16)
   ((2*hl.[0]*u.[0] + 2*hr.[0]*u.[0] - hl.[2]*hr.[0]*u.[0] + hl.[0]*hr.[2]*u.[0] -
             hl.[1]*hr.[0]*u.[1] - hl.[0]*hr.[1]*u.[1] - 4*u.[2] + 2*hl.[2]*u.[2] +
            hl.[0]*hr.[0]*u.[2] - hl.[1]*hr.[1]*u.[2] - 2*hr.[2]*u.[2] + hl.[2]*hr.[2]*u.[2]
            - 2*hl.[1]*u.[3] + 2*hr.[1]*u.[3] - hl.[2]*hr.[1]*u.[3] -
            hl.[1]*hr.[2]*u.[3])/16)
   (* (2,2) element, real and imag *)
   ((4*u.[0] - 2*hl.[2]*u.[0] + hl.[0]*hr.[0]*u.[0] + hl.[1]*hr.[1]*u.[0] -
             2*hr.[2]*u.[0] + hl.[2]*hr.[2]*u.[0] - 2*hl.[1]*u.[1] + 2*hr.[1]*u.[1] -
            hl.[2]*hr.[1]*u.[1] + hl.[1]*hr.[2]*u.[1] + 2*hl.[0]*u.[2] - 2*hr.[0]*u.[2] +
            hl.[2]*hr.[0]*u.[2] - hl.[0]*hr.[2]*u.[2] - hl.[1]*hr.[0]*u.[3] +
            hl.[0]*hr.[1]*u.[3])/16)
   ((4*u.[0] - 2*hl.[2]*u.[0] + hl.[0]*hr.[0]*u.[0] + hl.[1]*hr.[1]*u.[0] -
             2*hr.[2]*u.[0] + hl.[2]*hr.[2]*u.[0] - 2*hl.[1]*u.[1] + 2*hr.[1]*u.[1] -
            hl.[2]*hr.[1]*u.[1] + hl.[1]*hr.[2]*u.[1] + 2*hl.[0]*u.[2] - 2*hr.[0]*u.[2] +
            hl.[2]*hr.[0]*u.[2] - hl.[0]*hr.[2]*u.[2] - hl.[1]*hr.[0]*u.[3] +
            hl.[0]*hr.[1]*u.[3])/16).

Definition alpha_proj (l : lattice) (p : params) (f : fields) (i dir1 dir2 : nat) : R :=
  (* produce the projected link variables *)
  let u1 := project_u1 l f i dir1 in
  let nextsite := next l i dir1 in
  let u2 := project_u1 l f nextsite dir2 in
  let nextsite := next l i dir2 in
  let u3 := project_u1 l f nextsite dir1 in
  let u4 := project_u1 l f i dir2 in
  (* u1 <- u1.u2 etc *)
  let u1 := matmat u1 u2 0 in
  let u1 := matmat u1 u3 1 in
  let u1 := matmat u1 u4 1 in
  let alpha := atan2 (u1.[1] + u1.[7]) (u1.[0] + u1.[6]) in
  (* normalize by 2/g, in lattice units *)
  let alpha := alpha * sqrt (betasu2 p) in
  alpha.

Definition magfield (l : lattice) (p : params) (f : fields) (i dir : nat) : R :=
  let res := 0 in
  for_loop (dim l) (fun d1 res =>
    if (d1 =? dir)%nat then res
    else
      (* always d1 < d2 *)
      for_range (d1 + 1) (dim l) (fun d2 res =>
        if (d2 =? dir)%nat then res
        else
          let alpha := alpha_proj l p f i d1 d2 in
          if (dir <? d1)%nat then res + alpha
          else if (dir <? d2)%nat then res - alpha
          else res + alpha) res) res.

Definition magcharge_cube (l : lattice) (p : params) (f : fields) (i : nat) : R :=
  let res := 0 in
  for_loop (dim l) (fun dir res =>
    let B1 := magfield l p f i dir in
    let B2 := magfield l p f (next l i dir) dir in
    res + (B2 - B1)) res.

(** ** The in-place routines on a store of doubles

    [su2rot] and [matmat] overwrite their first operand.  Here a buffer is
    the address of its first double in a flat store, so that the two
    operands of a call may be the same buffer or overlap. *)

Definition memory : Type := nat -> R.

(** [m[a] = v] *)
Definition poke (m : memory) (a : nat) (v : R) : memory :=
  fun x => if (x =? a)%nat then v else m x.

Definition load_su2 (m : memory) (u : nat) : su2mat :=
  SU2 (m (u + 0)%nat) (m (u + 1)%nat) (m (u + 2)%nat) (m (u + 3)%nat).

Definition load_cmat (m : memory) (u : nat) : cmat :=
  CMat (m (u + 0)%nat) (m (u + 1)%nat) (m (u + 2)%nat) (m (u + 3)%nat)
       (m (u + 4)%nat) (m (u + 5)%nat) (m (u + 6)%nat) (m (u + 7)%nat).

Definition su2rot_inplace (m : memory) (u1 u2 : nat) : memory :=
  let rd (u k : nat) := m (u + k)%nat in
  let new1 := rd u1 0%nat*rd u2 0%nat - rd u1 1%nat*rd u2 1%nat - rd u1 2%nat*rd u2 2%nat - rd u1 3%nat*rd u2 3%nat in
  let new2 := rd u1 1%nat*rd u2 0%nat + rd u1 0%nat*rd u2 1%nat + rd u1 3%nat*rd u2 2%nat - rd u1 2%nat*rd u2 3%nat in
  let new3 := rd u1 2%nat*rd u2 0%nat - rd u1 3%nat*rd u2 1%nat + rd u1 0%nat*rd u2 2%nat + rd u1 1%nat*rd u2 3%nat in
  let new4 := rd u1 3%nat*rd u2 0%nat + rd u1 2%nat*rd u2 1%nat - rd u1 1%nat*rd u2 2%nat + rd u1 0%nat*rd u2 3%nat in
  let m := poke m (u1 + 0) new1 in
  let m := poke m (u1 + 1) new2 in
  let m := poke m (u1 + 2) new3 in
  let m := poke m (u1 + 3) new4 in
  m.

Definition matmat_inplace (m : memory) (in1 in2 : nat) (dag : Z) : memory :=
  let a1 := m (in1 + 0)%nat in
  let b1 := m (in1 + 1)%nat in
  let c1 := m (in1 + 2)%nat in
  let d1 := m (in1 + 3)%nat in
  let e1 := m (in1 + 4)%nat in
  let f1 := m (in1 + 5)%nat in
  let g1 := m (in1 + 6)%nat in
  let h1 := m (in1 + 7)%nat in
  let a2 := m (in2 + 0)%nat in
  let b2 := m (in2 + 1)%nat in
  let c2 := m (in2 + 2)%nat in
  let d2 := m (in2 + 3)%nat in
  let e2 := m (in2 + 4)%nat in
  let f2 := m (in2 + 5)%nat in
  let g2 := m (in2 + 6)%nat in
  let h2 := m (in2 + 7)%nat in
  let '(b2, c2, d2, e2, f2, h2) :=
    if negb (dag =? 0)%Z then
      let b2 := -1*b2 in
      let temp := c2 in
      let c2 := e2 in
      let e2 := temp in
      let temp := d2 in
      let d2 := -1*f2 in
      let f2 := -1*temp in
      let h2 := -1*h2 in
      (b2, c2, d2, e2, f2, h2)
    else (b2, c2, d2, e2, f2, h2) in
  let m := poke m (in1 + 0) (a1*a2 - b1*b2 + c1*e2 - d1*f2) in
  let m := poke m (in1 + 1) (a2*b1 + a1*b2 + d1*e2 + c1*f2) in
  let m := poke m (in1 + 2) (a1*c2 - b1*d2 + c1*g2 - d1*h2) in
  let m := poke m (in1 + 3) (b1*c2 + a1*d2 + d1*g2 + c1*h2) in
  let m := poke m (in1 + 4) (a2*e1 - b2*f1 + e2*g1 - f2*h1) in
  let m := poke m (in1 + 5) (b2*e1 + a2*f1 + f2*g1 + e2*h1) in
  let m := poke m (in1 + 6) (c2*e1 - d2*f1 + g1*g2 - h1*h2) in
  let m := poke m (in1 + 7) (d2*e1 + c2*f1 + g2*h1 + g1*h2) in
  m.

(** ** [projector] on IEEE binary64 *)

Module Binary64.

(** [projector(proj, adjoint)] with [double] taken as a binary64 float:
    the three values written to [proj]. *)
Definition projector (adjoint : float * float * float) : float * float * float :=
  let '(a1, a2, a3) := adjoint in
  let modulus := PrimFloat.sqrt (a1*a1 + a2*a2 + a3*a3)%float in
  ((2*a1/modulus)%float, (2*a2/modulus)%float, (2*a3/modulus)%float).

End Binary64.

(** ** su2u1.c: the routines around the ones above *)

(** [su2link_staple(l, f, p, i, dir, V)]: the contents written to [V].
    The loop over the doublets leaves the function at the first index that
    names no doublet; the second component of the loop state records that
    the function has returned. *)
Definition su2link_staple (cfg : config) (l : lattice) (f : fields) (p : params)
    (i dir : nat) : su2mat :=
  let V := su2staple_wilson l f i dir in
  let V := SU2 (V.[0] * (-0.5 * betasu2 p)) (V.[1] * (-0.5 * betasu2 p))
               (V.[2] * (-0.5 * betasu2 p)) (V.[3] * (-0.5 * betasu2 p)) in
  if HIGGS cfg then
    let nextsite := next l i dir in
    fst (for_loop (NHIGGS cfg) (fun db '(V, returned) =>
      if (returned : bool) then (V, returned)
      else
        let higgs :=
          if (db =? 0)%nat then Some (su2doublet f)
          else if HIGGS2 cfg && (db =? 1)%nat then Some (doublet2 f)
          else None in
        match higgs with
        | None => (V, true)
        | Some higgs =>
            (* we want Hermitian conjugate of Phi(x) *)
            let currentphi :=
              SU2 ((higgs i).[0]) ((higgs i).[1] * -1) ((higgs i).[2] * -1)
                  ((higgs i).[3] * -1) in
            let nextphi := higgs i in
            let nextphi :=
              if U1 cfg then
                let s := sin (u1link f i dir) in
                let c := cos (u1link f i dir) in
                let b := nextphi in
                SU2 (c*b.[0] + s*b.[3]) (c*b.[1] + s*b.[2])
                    (-s*b.[1] + c*b.[2]) (-s*b.[0] + c*b.[3])
              else nextphi in
            let nextphi := su2rot nextphi currentphi in
            (SU2 (V.[0] - 0.5 * nextphi.[0]) (V.[1] - 0.5 * nextphi.[1])
                 (V.[2] - 0.5 * nextphi.[2]) (V.[3] - 0.5 * nextphi.[3]),
             false)
        end) (V, false))
  else V.

(** [clover_su2(l, f, i, d1, d2, clover)]: the contents written to
    [clover]. *)
Definition clover_su2 (l : lattice) (f : fields) (i d1 d2 : nat) : su2mat :=
  let clover := su2plaquette l f i d1 d2 in
  (* U_nu(x) U^+_mu(x+nu-mu) U^+_nu(x-mu) U_mu(x-mu) *)
  let u1 := su2link f i d2 in
  let site := next l i d2 in
  let site := prev l site d1 in
  let u2 := su2link f site d1 in
  let site := prev l i d1 in
  let u3 := su2link f site d2 in
  let u4 := su2link f site d1 in
  let u2 := su2_conj u2 in
  let u3 := su2_conj u3 in
  let u3 := su2rot u3 u4 in
  let u2 := su2rot u2 u3 in
  let u1 := su2rot u1 u2 in
  let clover := su2_add clover u1 in
  (* U^+_mu(x-mu) U^+_nu(x-nu-mu) U_mu(x-mu-nu) U_nu(x-nu) *)
  let site := prev l i d1 in
  let u1 := su2link f site d1 in
  let site := prev l site d2 in
  let u2 := su2link f site d2 in
  let u3 := su2link f site d1 in
  let site := prev l i d2 in
  let u4 := su2link f site d2 in
  let u1 := su2_conj u1 in
  let u2 := su2_conj u2 in
  let u3 := su2rot u3 u4 in
  let u2 := su2rot u2 u3 in
  let u1 := su2rot u1 u2 in
  let clover := su2_add clover u1 in
  (* U^+_nu(x-nu) U_mu(x-nu) U_nu(x+mu-nu) U^+_mu(x) *)
  let site := prev l i d2 in
  let u1 := su2link f site d2 in
  let u2 := su2link f site d1 in
  let site := next l site d1 in
  let u3 := su2link f site d2 in
  let u4 := su2link f i d1 in
  let u1 := su2_conj u1 in
  let u4 := su2_conj u4 in
  let u3 := su2rot u3 u4 in
  let u2 := su2rot u2 u3 in
  let u1 := su2rot u1 u2 in
  su2_add clover u1.

Definition localact_u1link (cfg : config) (l : lattice) (f : fields) (p : params)
    (i dir : nat) : R :=
  let tot := 0 in
  let tot := for_loop (dim l) (fun dir2 tot =>
    if negb (dir2 =? dir)%nat then
      let tot := tot + (1 - u1ptrace l f i dir dir2) in
      tot + (1 - u1ptrace l f (prev l i dir2) dir dir2)
    else tot) tot in
  let tot := tot * betau1 p in
  (* hopping terms *)
  let tot := if HIGGS cfg
             then tot + hopping_doublet_forward cfg l f p (su2doublet f) i dir
             else tot in
  let tot := if HIGGS2 cfg
             then tot + hopping_doublet_forward cfg l f p (doublet2 f) i dir
             else tot in
  tot.

(** [phiproduct(f1, f2, conj)]: the new contents of [f1]. *)
Definition phiproduct (f1 f2 : su2mat) (conj : Z) : su2mat :=
  let a := f1 in
  let a := if negb (conj =? 0)%Z
           then SU2 (a.[0]) (a.[1] * -1) (a.[2] * -1) (a.[3] * -1)
           else a in
  SU2 ((a.[0]*f2.[0] - a.[1]*f2.[1] - a.[2]*f2.[2] - a.[3]*f2.[3]) / sqrt 2)
      ((a.[1]*f2.[0] + a.[0]*f2.[1] + a.[3]*f2.[2] - a.[2]*f2.[3]) / sqrt 2)
      ((a.[2]*f2.[0] - a.[3]*f2.[1] + a.[0]*f2.[2] + a.[1]*f2.[3]) / sqrt 2)
      ((a.[3]*f2.[0] + a.[2]*f2.[1] - a.[1]*f2.[2] + a.[0]*f2.[3]) / sqrt 2).

Definition localact_doublet (cfg : config) (l : lattice) (f : fields) (p : params)
    (phi : nat -> su2mat) (i : nat) : R :=
  let tot := 0 in
  let tot := tot + covariant_doublet cfg l f p phi i in
  let tot := for_loop (dim l) (fun dir tot =>
    tot + hopping_doublet_backward cfg l f p phi i dir) tot in
  let tot := tot + higgspotential cfg f p i in
  tot.

Definition localact_triplet (cfg : config) (l : lattice) (f : fields) (p : params)
    (i : nat) : R :=
  let tot := 0 in
  let tot := tot + covariant_triplet l f p i in
  let tot := for_loop (dim l) (fun dir tot =>
    tot + hopping_triplet_backward l f p i dir) tot in
  (* add potential *)
  let mod_ := tripletsq (su2triplet f i) in
  let tot := tot + (msq_triplet p * mod_ + b4 p * mod_ * mod_) in
  let tot := if HIGGS cfg
             then tot + a2 p * doubletsq (su2doublet f i) * mod_
             else tot in
  tot.

(** ** measure.c: the magnetic charge of the lattice *)

(** The accumulation [mag_charge += charge] over the sites in [measure],
    [charge] being [magcharge_cube] of the site. *)
Definition mag_charge (l : lattice) (p : params) (f : fields) : R :=
  let mag_charge := 0 in
  for_loop (sites l) (fun i mag_charge =>
    let charge := magcharge_cube l p f i in
    mag_charge + charge) mag_charge.


(** ** Vocabulary of the statements *)

(** The sum of [g] over a list, the value an accumulating loop computes. *)
Definition sum_over {A : Type} (xs : list A) (g : A -> R) : R :=
  fold_right (fun x acc => g x + acc) 0 xs.

(** Every SU(2) link is the identity. *)
Definition all_identity (f : fields) : Prop :=
  forall x d, su2link f x d = su2_one.

(** The triplet field vanishes at every site. *)
Definition zero_triplet (f : fields) : Prop :=
  forall x, su2triplet f x = Trip 0 0 0.

(** The number of directions below [n] other than [dir]. *)
Definition other_dirs (n dir : nat) : nat :=
  if (dir <? n)%nat then (n - 1)%nat else n.

(** Two buffers of [n] doubles at addresses [a] and [b] share no cell. *)
Definition separate (n a b : nat) : Prop :=
  (a + n <= b \/ b + n <= a)%nat.

(** *** The magnetic field as the specification words it

    The pairs of directions [d1 < d2] below [n], both different from
    [dir], and the sign of the Levi-Civita symbol by the three orderings. *)
Definition direction_pairs (n dir : nat) : list (nat * nat) :=
  filter (fun '(d1, d2) =>
            (d1 <? d2)%nat && negb (d1 =? dir)%nat && negb (d2 =? dir)%nat)
         (list_prod (seq 0 n) (seq 0 n)).

Definition levi_civita_sign (dir d1 d2 : nat) : R :=
  if (dir <? d1)%nat && (d1 <? d2)%nat then 1
  else if (d1 <? dir)%nat && (dir <? d2)%nat then -1
  else if (d1 <? d2)%nat && (d2 <? dir)%nat then 1
  else 0.

Definition magfield_spec (l : lattice) (p : params) (f : fields) (i dir : nat) : R :=
  sum_over (direction_pairs (dim l) dir)
    (fun '(d1, d2) => levi_civita_sign dir d1 d2 * alpha_proj l p f i d1 d2).

(** *** Concrete inputs *)

(** A 3 x 3 periodic lattice; the site with coordinates (x, y) has index
    [x + 3*y]. *)
Definition torus3_next (i d : nat) : nat :=
  match d with
  | O => (3 * (i / 3) + (i + 1) mod 3)%nat
  | _ => ((i + 3) mod 9)%nat
  end.

Definition torus3_prev (i d : nat) : nat :=
  match d with
  | O => (3 * (i / 3) + (i + 2) mod 3)%nat
  | _ => ((i + 6) mod 9)%nat
  end.

Definition torus3 : lattice := Lattice 2 9 torus3_next torus3_prev.

(** No scalar field, no U(1) sector. *)
Definition pure_gauge : config := Config 0 false false false.

(** All couplings zero except [betasu2 = 4]. *)
Definition beta4 : params :=
  Params 4 0 0 0 0 (Complex 0 0) 0 0 0 (Complex 0 0) (Complex 0 0) (Complex 0 0) 0 0 0.

(** Every link the identity, the triplet along the third axis at every
    site, all other fields zero. *)
Definition vacuum : fields :=
  Fields (fun _ _ => SU2 1 0 0 0) (fun _ _ => 0)
         (fun _ => SU2 0 0 0 0) (fun _ => SU2 0 0 0 0)
         (fun _ => Trip 0 0 1) (fun _ => 0).

(** [f] with the link at site [i], direction [dir] replaced by [v]. *)
Definition set_su2link (f : fields) (i dir : nat) (v : su2mat) : fields :=
  Fields (fun x d => if ((x =? i) && (d =? dir))%nat then v else su2link f x d)
         (u1link f) (su2doublet f) (doublet2 f) (su2triplet f) (singlet f).

(** [vacuum] with the link at site 0, direction 0 set to minus the
    identity, a unit-norm link. *)
Definition flipped_link : fields := set_su2link vacuum 0 0 (SU2 (-1) 0 0 0).

(** Every link the identity, every other field zero. *)
Definition zero_scalars : fields :=
  Fields (fun _ _ => SU2 1 0 0 0) (fun _ _ => 0)
         (fun _ => SU2 0 0 0 0) (fun _ => SU2 0 0 0 0)
         (fun _ => Trip 0 0 0) (fun _ => 0).

(** A store holding the double [a] at address [a]. *)
Definition ramp : memory := fun a => INR a.

(** *** The lattice of one node with periodic boundaries

    Every site of the node has its backward neighbours among the sites of
    the node, and the two neighbour tables undo each other. *)
Record periodic (l : lattice) : Prop := Periodic {
  prev_in_range : forall x d,
    (x < sites l)%nat -> (d < dim l)%nat -> (prev l x d < sites l)%nat;
  prev_next : forall x d,
    (x < sites l)%nat -> (d < dim l)%nat -> prev l (next l x d) d = x;
  next_prev : forall x d,
    (x < sites l)%nat -> (d < dim l)%nat -> next l (prev l x d) d = x }.

(** [f] and [f'] agree everywhere, the link at site [i], direction [dir]
    apart. *)
Definition differ_only_at_link (f f' : fields) (i dir : nat) : Prop :=
  (forall x d, x <> i \/ d <> dir -> su2link f' x d = su2link f x d) /\
  (forall x d, u1link f' x d = u1link f x d) /\
  (forall x, su2doublet f' x = su2doublet f x) /\
  (forall x, doublet2 f' x = doublet2 f x) /\
  (forall x, su2triplet f' x = su2triplet f x) /\
  (forall x, singlet f' x = singlet f x).

(** The change of a plaquette trace from configuration [f] to [f']. *)
Definition plaquette_change (l : lattice) (f f' : fields) (x a b : nat) : R :=
  su2ptrace l f' x a b - su2ptrace l f x a b.

(** The hopping terms [localact_su2link] adds for the link at site [x],
    direction [d]. *)
Definition link_hopping (cfg : config) (l : lattice) (f : fields) (p : params)
    (x d : nat) : R :=
  (if HIGGS cfg then hopping_doublet_forward cfg l f p (su2doublet f) x d else 0)
  + (if HIGGS2 cfg then hopping_doublet_forward cfg l f p (doublet2 f) x d else 0)
  + (if TRIPLET cfg then hopping_triplet_forward l f p x d else 0).

(** The sites whose [action_local] contains a plaquette or a hopping term
    with the link at site [i], direction [dir]: the site itself and its
    backward neighbours in the other directions, each listed once. *)
Definition link_sites (l : lattice) (i dir : nat) : list nat :=
  nodup Nat.eq_dec
    (i :: map (prev l i) (filter (fun d => negb (d =? dir)%nat) (seq 0 (dim l)))).

(** [action_local] summed again over a list of sites. *)
Definition resum_action (cfg : config) (l : lattice) (f : fields) (p : params)
    (xs : list nat) : R :=
  sum_over xs (action_local cfg l f p).
(** ** Auxiliary notions for the algebraic and locality statements *)

(** [g u h^+]: a link rotated at its two ends, built with [su2rot] and the
    conjugation loop. *)
Definition su2_rotated (g u h : su2mat) : su2mat :=
  su2rot (su2rot g u) (su2_conj h).

(** [Phi exp(-i a sigma_3)] in doublet components, as [su2link_staple]
    writes it. *)
Definition hypercharge_rotated (b : su2mat) (a : R) : su2mat :=
  let s := sin a in
  let c := cos a in
  SU2 (c*b.[0] + s*b.[3]) (c*b.[1] + s*b.[2]) (-s*b.[1] + c*b.[2]) (-s*b.[0] + c*b.[3]).

(** [f] with the U(1) angle at site [i], direction [dir] replaced by [a]. *)
Definition set_u1link (f : fields) (i dir : nat) (a : R) : fields :=
  Fields (su2link f)
         (fun x d => if ((x =? i) && (d =? dir))%nat then a else u1link f x d)
         (su2doublet f) (doublet2 f) (su2triplet f) (singlet f).

(** The doublet hopping terms [localact_u1link] adds. *)
Definition u1link_hopping (cfg : config) (l : lattice) (f : fields) (p : params)
    (x d : nat) : R :=
  (if HIGGS cfg then hopping_doublet_forward cfg l f p (su2doublet f) x d else 0)
  + (if HIGGS2 cfg then hopping_doublet_forward cfg l f p (doublet2 f) x d else 0).

(** [f] with the doublet of species [db] at site [i] replaced by [v]. *)
Definition set_doublet (f : fields) (db i : nat) (v : su2mat) : fields :=
  match db with
  | O => Fields (su2link f) (u1link f)
                (fun x => if (x =? i)%nat then v else su2doublet f x)
                (doublet2 f) (su2triplet f) (singlet f)
  | _ => Fields (su2link f) (u1link f) (su2doublet f)
                (fun x => if (x =? i)%nat then v else doublet2 f x)
                (su2triplet f) (singlet f)
  end.

(** [f] with the triplet at site [i] replaced by [v]. *)
Definition set_triplet (f : fields) (i : nat) (v : triplet) : fields :=
  Fields (su2link f) (u1link f) (su2doublet f) (doublet2 f)
         (fun x => if (x =? i)%nat then v else su2triplet f x) (singlet f).

(** The unit matrix in the eight-real form. *)
Definition cmat_one : cmat := CMat 1 0 0 0 0 0 1 0.

(** [c * a], component by component. *)
Definition triplet_scale (c : R) (a : triplet) : triplet :=
  Trip (c * a.[0]) (c * a.[1]) (c * a.[2]).


(** Every link has unit norm. *)
Definition unit_links (f : fields) : Prop :=
  forall x d, su2sqr (su2link f x d) = 1.

(** The value of [res] in [smear_link] before the final division by
    [sqrt(det)]. *)
Definition smear_link_unnormalized (l : lattice) (f : fields)
    (smear_dir : nat -> bool) (i dir : nat) : su2mat :=
  let res := su2link f i dir in
  let v2 := su2link f (next l i dir) dir in
  let paths := 1%nat in
  let '(res, v2, paths) :=
    for_loop (dim l) (fun j '(res, v2, paths) =>
      if negb (j =? dir)%nat && smear_dir j then
        let stap := su2staple_wilson_onedir l f i dir j 1 in
        let res := su2_add res stap in
        let stap := su2staple_wilson_onedir l f (next l i dir) dir j 1 in
        let v2 := su2_add v2 stap in
        (res, v2, (paths + 2)%nat)
      else (res, v2, paths)) (res, v2, paths) in
  let res := su2_div res (INR paths) in
  let v2 := su2_div v2 (INR paths) in
  su2rot res v2.

(** Links the identity, U(1) angles zero, every scalar field the same at
    all sites. *)
Definition uniform_fields (f : fields) : Prop :=
  all_identity f /\
  (forall x d, u1link f x d = 0) /\
  (forall x y, su2doublet f x = su2doublet f y) /\
  (forall x y, doublet2 f x = doublet2 f y) /\
  (forall x y, su2triplet f x = su2triplet f y) /\
  (forall x y, singlet f x = singlet f y).


(** * Proofs *)

(** ** Buffers, loops and sums *)

Ltac unbuf :=
  cbv [at_ su2mat_buffer triplet_buffer cmat_buffer
       su2_c0 su2_c1 su2_c2 su2_c3 trip_c0 trip_c1 trip_c2
       cm0 cm1 cm2 cm3 cm4 cm5 cm6 cm7] in *.

Lemma su2mat_eq (a b : su2mat) :
  a.[0] = b.[0] -> a.[1] = b.[1] -> a.[2] = b.[2] -> a.[3] = b.[3] -> a = b.
Proof. destruct a, b. unbuf. intros; subst; reflexivity. Qed.

Ltac su2_ext := apply su2mat_eq; unbuf.

Lemma for_loop_S {S : Type} (n : nat) (body : nat -> S -> S) (init : S) :
  for_loop (Datatypes.S n) body init = body n (for_loop n body init).
Proof.
  unfold for_loop. rewrite seq_S, fold_left_app. reflexivity.
Qed.

Lemma sum_over_app {A : Type} (xs ys : list A) (g : A -> R) :
  sum_over (xs ++ ys) g = sum_over xs g + sum_over ys g.
Proof.
  induction xs as [|x xs IH]; simpl.
  - ring.
  - rewrite IH. ring.
Qed.

Lemma sum_over_ext {A : Type} (xs : list A) (g h : A -> R) :
  (forall x, In x xs -> g x = h x) -> sum_over xs g = sum_over xs h.
Proof.
  induction xs as [|x xs IH]; simpl; intros H.
  - reflexivity.
  - rewrite (H x) by auto. rewrite IH by auto. reflexivity.
Qed.

Lemma sum_over_zero {A : Type} (xs : list A) (g : A -> R) :
  (forall x, In x xs -> g x = 0) -> sum_over xs g = 0.
Proof.
  induction xs as [|x xs IH]; simpl; intros H.
  - reflexivity.
  - rewrite (H x) by auto. rewrite IH by auto. ring.
Qed.

Lemma sum_over_filter {A : Type} (P : A -> bool) (xs : list A) (g : A -> R) :
  sum_over (filter P xs) g = sum_over xs (fun x => if P x then g x else 0).
Proof.
  induction xs as [|x xs IH]; simpl.
  - reflexivity.
  - destruct (P x); simpl; rewrite IH; ring.
Qed.

Lemma sum_over_map {A B : Type} (k : A -> B) (xs : list A) (g : B -> R) :
  sum_over (map k xs) g = sum_over xs (fun x => g (k x)).
Proof.
  induction xs as [|x xs IH]; simpl; [reflexivity | now rewrite IH].
Qed.

Lemma sum_over_list_prod {A B : Type} (xs : list A) (ys : list B) (g : A * B -> R) :
  sum_over (list_prod xs ys) g
  = sum_over xs (fun x => sum_over ys (fun y => g (x, y))).
Proof.
  induction xs as [|x xs IH]; simpl.
  - reflexivity.
  - rewrite sum_over_app, sum_over_map, IH. reflexivity.
Qed.

Lemma sum_over_plus {A : Type} (xs : list A) (g h : A -> R) :
  sum_over xs (fun x => g x + h x) = sum_over xs g + sum_over xs h.
Proof.
  induction xs as [|x xs IH]; simpl.
  - ring.
  - rewrite IH. ring.
Qed.

Lemma sum_over_minus {A : Type} (xs : list A) (g h : A -> R) :
  sum_over xs (fun x => g x - h x) = sum_over xs g - sum_over xs h.
Proof.
  induction xs as [|x xs IH]; simpl.
  - ring.
  - rewrite IH. ring.
Qed.

Lemma sum_over_scal {A : Type} (c : R) (xs : list A) (g : A -> R) :
  sum_over xs (fun x => c * g x) = c * sum_over xs g.
Proof.
  induction xs as [|x xs IH]; simpl.
  - ring.
  - rewrite IH. ring.
Qed.

Lemma sum_over_swap {A B : Type} (xs : list A) (ys : list B) (g : A -> B -> R) :
  sum_over xs (fun x => sum_over ys (fun y => g x y))
  = sum_over ys (fun y => sum_over xs (fun x => g x y)).
Proof.
  induction xs as [|x xs IH]; simpl.
  - symmetry. apply sum_over_zero. reflexivity.
  - rewrite IH, <- sum_over_plus. reflexivity.
Qed.

(** An accumulating loop computes a sum. *)
Lemma fold_left_accumulate {A : Type} (body : A -> R -> R) (g : A -> R)
    (xs : list A) (init : R) :
  (forall x s, In x xs -> body x s = s + g x) ->
  fold_left (fun s x => body x s) xs init = init + sum_over xs g.
Proof.
  revert init. induction xs as [|x xs IH]; simpl; intros init H.
  - ring.
  - rewrite IH by auto. rewrite (H x) by auto. ring.
Qed.

Lemma for_loop_accumulate (n : nat) (body : nat -> R -> R) (g : nat -> R) (init : R) :
  (forall j s, (j < n)%nat -> body j s = s + g j) ->
  for_loop n body init = init + sum_over (seq 0 n) g.
Proof.
  intros H. unfold for_loop. apply fold_left_accumulate.
  intros j s Hin. apply in_seq in Hin. apply H. lia.
Qed.

(** A sum whose terms vanish away from one index of the range. *)
Lemma sum_over_seq_single (n k : nat) (g : nat -> R) :
  (k < n)%nat -> (forall j, (j < n)%nat -> j <> k -> g j = 0) ->
  sum_over (seq 0 n) g = g k.
Proof.
  induction n as [|n IH]; intros Hk H; [lia|].
  rewrite seq_S, sum_over_app. simpl.
  destruct (Nat.eq_dec k n) as [->|Hne].
  - rewrite sum_over_zero; [ring|].
    intros j Hin. apply in_seq in Hin. apply H; lia.
  - rewrite IH; [|lia|intros j Hj Hjk; apply H; lia].
    rewrite (H n); [ring|lia|lia].
Qed.

(** A sum whose terms vanish away from two different indices of the range. *)
Lemma sum_over_seq_pair (n k1 k2 : nat) (g : nat -> R) :
  (k1 < n)%nat -> (k2 < n)%nat -> k1 <> k2 ->
  (forall j, (j < n)%nat -> j <> k1 -> j <> k2 -> g j = 0) ->
  sum_over (seq 0 n) g = g k1 + g k2.
Proof.
  intros H1 H2 Hne H.
  transitivity (sum_over (seq 0 n) (fun j => (if (j =? k1)%nat then g j else 0)
                                    + (if (j =? k1)%nat then 0 else g j))).
  - apply sum_over_ext. intros j _. destruct (j =? k1)%nat; ring.
  - rewrite sum_over_plus.
    rewrite (sum_over_seq_single n k1), (sum_over_seq_single n k2); try assumption.
    + rewrite Nat.eqb_refl.
      destruct (Nat.eqb_spec k2 k1); [congruence|reflexivity].
    + intros j Hj Hj2. destruct (Nat.eqb_spec j k1); [reflexivity|]. now apply H.
    + intros j Hj Hj1. destruct (Nat.eqb_spec j k1); [contradiction|reflexivity].
Qed.

Lemma sum_over_seq_above (d1 n : nat) (k : nat -> R) :
  sum_over (seq 0 n) (fun d2 => if (d1 <? d2)%nat then k d2 else 0)
  = sum_over (seq (d1 + 1) (n - (d1 + 1))) k.
Proof.
  induction n as [|n IH].
  - reflexivity.
  - rewrite seq_S, sum_over_app, IH.
    destruct (Nat.ltb_spec d1 n) as [L|L].
    + replace (S n - (d1 + 1))%nat with (S (n - (d1 + 1))) by lia.
      rewrite (seq_S (n - (d1 + 1))), sum_over_app.
      replace (d1 + 1 + (n - (d1 + 1)))%nat with n by lia.
      cbn [sum_over fold_right Nat.add].
      replace (d1 <? n)%nat with true by (symmetry; apply Nat.ltb_lt; lia).
      ring.
    + replace (S n - (d1 + 1))%nat with O by lia.
      replace (n - (d1 + 1))%nat with O by lia.
      cbn [sum_over fold_right Nat.add seq].
      replace (d1 <? n)%nat with false by (symmetry; apply Nat.ltb_ge; lia).
      ring.
Qed.

Lemma sum_over_seq_below (d1 n : nat) (k : nat -> R) :
  (d1 <= n)%nat ->
  sum_over (seq 0 n) (fun d2 => if (d2 <? d1)%nat then k d2 else 0)
  = sum_over (seq 0 d1) k.
Proof.
  induction n as [|n IH]; intros Hle.
  - replace d1 with O by lia. reflexivity.
  - rewrite seq_S, sum_over_app. cbn [sum_over fold_right Nat.add].
    destruct (Nat.eq_dec d1 (S n)) as [->|Hne].
    + rewrite seq_S, sum_over_app. cbn [sum_over fold_right Nat.add].
      replace (n <? S n)%nat with true by (symmetry; apply Nat.ltb_lt; lia).
      f_equal. apply sum_over_ext. intros j Hin. apply in_seq in Hin.
      replace (j <? S n)%nat with true by (symmetry; apply Nat.ltb_lt; lia).
      reflexivity.
    + rewrite IH by lia.
      replace (n <? d1)%nat with false by (symmetry; apply Nat.ltb_ge; lia).
      ring.
Qed.

Lemma list_prod_NoDup {A B : Type} (xs : list A) (ys : list B) :
  NoDup xs -> NoDup ys -> NoDup (list_prod xs ys).
Proof.
  intros Hx Hy. induction Hx as [|x xs Hnotin Hx IH]; simpl.
  - constructor.
  - apply NoDup_app.
    + apply NoDup_map_NoDup_ForallPairs; [|exact Hy].
      intros a b _ _ E. now inversion E.
    + exact IH.
    + intros [a b] Hin1 Hin2. apply in_map_iff in Hin1.
      destruct Hin1 as [y [E _]]. inversion E; subst.
      apply in_prod_iff in Hin2. now destruct Hin2.
Qed.

(** Sum over the pairs [d2 < d1 < n] of a function that vanishes unless
    one of the two is [dir]. *)
Lemma sum_lower_triangle (n dir : nat) (G : nat -> nat -> R) :
  (dir < n)%nat ->
  (forall a b, (a < b)%nat -> (b < n)%nat -> a <> dir -> b <> dir -> G a b = 0) ->
  sum_over (seq 0 n) (fun d1 => sum_over (seq 0 d1) (fun d2 => G d2 d1))
  = sum_over (seq 0 n) (fun d =>
      if (d =? dir)%nat then 0
      else if (d <? dir)%nat then G d dir else G dir d).
Proof.
  intros Hdir Hz.
  transitivity (sum_over (seq 0 n) (fun d1 =>
     (if (d1 =? dir)%nat then sum_over (seq 0 dir) (fun d2 => G d2 dir) else 0)
     + (if (dir <? d1)%nat then G dir d1 else 0))).
  - apply sum_over_ext. intros d1 Hin. apply in_seq in Hin.
    destruct (Nat.eqb_spec d1 dir) as [->|Hne].
    + rewrite Nat.ltb_irrefl. ring.
    + destruct (Nat.ltb_spec dir d1) as [L|L].
      * rewrite (sum_over_seq_single d1 dir) by
          first [ assumption | intros j Hj Hjd; apply Hz; lia ].
        ring.
      * rewrite sum_over_zero; [ring|].
        intros d2 Hin2. apply in_seq in Hin2. apply Hz; lia.
  - rewrite sum_over_plus.
    rewrite (sum_over_seq_single n dir) by
      first [ assumption
            | intros j _ Hj; destruct (Nat.eqb_spec j dir);
              [contradiction|reflexivity] ].
    rewrite Nat.eqb_refl.
    rewrite <- (sum_over_seq_below dir n) by lia.
    rewrite <- sum_over_plus. apply sum_over_ext. intros d _.
    destruct (Nat.eqb_spec d dir) as [->|Hne].
    + rewrite Nat.ltb_irrefl. ring.
    + destruct (Nat.ltb_spec d dir); destruct (Nat.ltb_spec dir d); try lia; ring.
Qed.

(** A sum over a range is the sum over any duplicate-free list of indices
    of the range outside of which the terms vanish. *)
Lemma sum_over_support (n : nat) (xs : list nat) (g : nat -> R) :
  NoDup xs -> (forall x, In x xs -> (x < n)%nat) ->
  (forall x, (x < n)%nat -> ~ In x xs -> g x = 0) ->
  sum_over (seq 0 n) g = sum_over xs g.
Proof.
  intros Hnd. revert g. induction Hnd as [|k xs Hk Hnd IH]; intros g Hin Hz.
  - apply sum_over_zero. intros x Hx. apply in_seq in Hx. apply Hz; [lia|auto].
  - transitivity (sum_over (seq 0 n) (fun j =>
        (if (j =? k)%nat then g j else 0) + (if (j =? k)%nat then 0 else g j))).
    { apply sum_over_ext. intros j _. destruct (j =? k)%nat; ring. }
    rewrite sum_over_plus. cbn [sum_over fold_right]. f_equal.
    + rewrite (sum_over_seq_single n k).
      * now rewrite Nat.eqb_refl.
      * apply Hin. now left.
      * intros j _ Hj. destruct (Nat.eqb_spec j k); [contradiction|reflexivity].
    + rewrite IH.
      * apply sum_over_ext. intros x Hx.
        destruct (Nat.eqb_spec x k); [subst; contradiction|reflexivity].
      * intros x Hx. apply Hin. now right.
      * intros x Hx Hnx. destruct (Nat.eqb_spec x k); [reflexivity|].
        apply Hz; [exact Hx|]. intros [E|E]; [congruence|contradiction].
Qed.

Lemma for_loop_0 {S : Type} (body : nat -> S -> S) (init : S) :
  for_loop 0 body init = init.
Proof. reflexivity. Qed.

Lemma sum_over_const_zero {A : Type} (xs : list A) :
  sum_over xs (fun _ => 0) = 0.
Proof. apply sum_over_zero. reflexivity. Qed.

Ltac split_sums :=
  repeat first [ rewrite sum_over_plus | rewrite sum_over_minus
               | rewrite sum_over_const_zero ].

(** ** Compact-matrix algebra *)

(** The norm is multiplicative: the four-square identity. *)
Lemma su2sqr_su2rot (u1 u2 : su2mat) :
  su2sqr (su2rot u1 u2) = su2sqr u1 * su2sqr u2.
Proof. destruct u1, u2. unfold su2sqr, su2rot. unbuf. ring. Qed.

Lemma su2sqr_squares (u : su2mat) :
  su2sqr u = u.[0]^2 + u.[1]^2 + u.[2]^2 + u.[3]^2.
Proof. unfold su2sqr. ring. Qed.

(** C2.  For unit-norm [u1] and [u2], the contents [su2rot] leaves in its
    first operand have unit norm again: [su2sqr] of it, which is the sum of
    the squares of its four components, is exactly 1 (in exact
    arithmetic). *)
Theorem su2rot_unit_norm (u1 u2 : su2mat) :
  u1.[0]^2 + u1.[1]^2 + u1.[2]^2 + u1.[3]^2 = 1 ->
  u2.[0]^2 + u2.[1]^2 + u2.[2]^2 + u2.[3]^2 = 1 ->
  let u1' := su2rot u1 u2 in
  su2sqr u1' = u1'.[0]^2 + u1'.[1]^2 + u1'.[2]^2 + u1'.[3]^2 /\
  u1'.[0]^2 + u1'.[1]^2 + u1'.[2]^2 + u1'.[3]^2 = 1.
Proof.
  intros H1 H2 u1'. split; [apply su2sqr_squares|].
  rewrite <- su2sqr_squares. unfold u1'.
  rewrite su2sqr_su2rot, !su2sqr_squares, H1, H2. ring.
Qed.

Lemma su2rot_unit_norm_witness :
  let u1' := su2rot (SU2 0 1 0 0) (SU2 0 0 1 0) in
  su2sqr u1' = u1'.[0]^2 + u1'.[1]^2 + u1'.[2]^2 + u1'.[3]^2 /\
  u1'.[0]^2 + u1'.[1]^2 + u1'.[2]^2 + u1'.[3]^2 = 1.
Proof.
  apply (su2rot_unit_norm (SU2 0 1 0 0) (SU2 0 0 1 0)); unbuf; ring.
Defined.

(** C10.  The closed-form plaquette trace is twice the first component of
    the plaquette matrix built by three [su2rot] multiplications with the
    two reversed legs conjugated. *)
Theorem su2ptrace_su2plaquette (l : lattice) (f : fields) (i dir1 dir2 : nat) :
  su2ptrace l f i dir1 dir2 = 2 * (su2plaquette l f i dir1 dir2).[0].
Proof.
  unfold su2ptrace, su2plaquette.
  destruct (su2link f i dir1), (su2link f (next l i dir1) dir2),
    (su2link f (next l i dir2) dir1), (su2link f i dir2).
  unfold su2trace4, su2rot, su2_conj. unbuf. ring.
Qed.

(** The trace of four links read in the opposite sense is the same. *)
Lemma su2trace4_reverse (u1 u2 u3 u4 : su2mat) :
  su2trace4 u1 u2 u3 u4 = su2trace4 u4 u3 u2 u1.
Proof. destruct u1, u2, u3, u4. unfold su2trace4. unbuf. ring. Qed.

Lemma su2ptrace_swap (l : lattice) (f : fields) (i dir1 dir2 : nat) :
  su2ptrace l f i dir1 dir2 = su2ptrace l f i dir2 dir1.
Proof. unfold su2ptrace. cbv zeta. apply su2trace4_reverse. Qed.

(** ** The in-place routines *)

Lemma poke_other (m : memory) (a x : nat) (v : R) :
  x <> a -> poke m a v x = m x.
Proof.
  intros H. unfold poke. destruct (Nat.eqb_spec x a); [contradiction|reflexivity].
Qed.

Lemma poke_same (m : memory) (a : nat) (v : R) : poke m a v a = v.
Proof. unfold poke. rewrite Nat.eqb_refl. reflexivity. Qed.

(** [su2rot] stores into the four cells of its first operand only. *)
Lemma su2rot_inplace_footprint (m : memory) (u1 u2 a : nat) :
  (a < u1 \/ u1 + 4 <= a)%nat -> su2rot_inplace m u1 u2 a = m a.
Proof.
  intros H. unfold su2rot_inplace.
  repeat (rewrite poke_other by lia). reflexivity.
Qed.

(** [matmat] stores into the eight cells of its first operand only. *)
Lemma matmat_inplace_footprint (m : memory) (in1 in2 a : nat) (dag : Z) :
  (a < in1 \/ in1 + 8 <= a)%nat -> matmat_inplace m in1 in2 dag a = m a.
Proof.
  intros H. unfold matmat_inplace.
  destruct (negb (dag =? 0)%Z); cbv zeta beta iota;
  repeat (rewrite poke_other by lia); reflexivity.
Qed.

(** What the in-place routines leave in the first operand is what the
    functions on buffer contents compute, whatever the two addresses. *)
Lemma su2rot_inplace_result (m : memory) (u1 u2 : nat) :
  load_su2 (su2rot_inplace m u1 u2) u1 = su2rot (load_su2 m u1) (load_su2 m u2).
Proof.
  unfold load_su2, su2rot_inplace, su2rot. unbuf.
  f_equal;
  repeat first [ rewrite poke_same | rewrite poke_other by lia ]; reflexivity.
Qed.

Lemma matmat_inplace_result (m : memory) (in1 in2 : nat) (dag : Z) :
  load_cmat (matmat_inplace m in1 in2 dag) in1
  = matmat (load_cmat m in1) (load_cmat m in2) dag.
Proof.
  unfold load_cmat, matmat_inplace, matmat. unbuf.
  destruct (negb (dag =? 0)%Z); cbv zeta beta iota;
  f_equal;
  repeat first [ rewrite poke_same | rewrite poke_other by lia ]; reflexivity.
Qed.

(** C9.  [su2rot] and [matmat] write their first operand buffer only:
    every cell of the store outside it keeps its value.  So the four
    components of the second operand [u2] of [su2rot] and the eight
    components of the second operand [in2] of [matmat], a buffer apart from
    the first operand's, are unchanged, for [dag] zero and non-zero. *)
Theorem multiply_writes_first_operand_only
    (m : memory) (u1 u2 in1 in2 : nat) (dag : Z) :
  separate 4 u1 u2 -> separate 8 in1 in2 ->
  load_su2 (su2rot_inplace m u1 u2) u2 = load_su2 m u2 /\
  load_cmat (matmat_inplace m in1 in2 dag) in2 = load_cmat m in2 /\
  (forall a, (a < u1 \/ u1 + 4 <= a)%nat -> su2rot_inplace m u1 u2 a = m a) /\
  (forall a, (a < in1 \/ in1 + 8 <= a)%nat -> matmat_inplace m in1 in2 dag a = m a).
Proof.
  unfold separate. intros H4 H8. repeat split.
  - unfold load_su2. f_equal; apply su2rot_inplace_footprint; lia.
  - unfold load_cmat. f_equal; apply matmat_inplace_footprint; lia.
  - intros a Ha. now apply su2rot_inplace_footprint.
  - intros a Ha. now apply matmat_inplace_footprint.
Qed.

Lemma multiply_writes_first_operand_only_witness :
  load_su2 (su2rot_inplace ramp 0 4) 4 = load_su2 ramp 4 /\
  load_cmat (matmat_inplace ramp 0 8 1) 8 = load_cmat ramp 8 /\
  (forall a, (a < 0 \/ 0 + 4 <= a)%nat -> su2rot_inplace ramp 0 4 a = ramp a) /\
  (forall a, (a < 0 \/ 0 + 8 <= a)%nat -> matmat_inplace ramp 0 8 1 a = ramp a).
Proof.
  apply (multiply_writes_first_operand_only ramp 0 4 0 8 1); unfold separate; lia.
Defined.

(** ** Abelian projection: the projector and the projected link *)

Lemma modulus_sqr (a : triplet) :
  modulus a * modulus a = a.[0]*a.[0] + a.[1]*a.[1] + a.[2]*a.[2].
Proof.
  unfold modulus. cbv zeta. apply sqrt_sqrt. nra.
Qed.

Lemma projector_components (a : triplet) :
  projector a = Trip (2 * a.[0] / modulus a) (2 * a.[1] / modulus a)
                     (2 * a.[2] / modulus a).
Proof. reflexivity. Qed.

(** C7.  For a triplet of non-zero modulus, [projector] writes
    [2*a[k]/|a|] and the squares of the three outputs add up to 4.
    Nothing in [projector] tests the modulus: on binary64 doubles the zero
    triplet gives three NaNs, and a triplet whose squares underflow to
    zero gives an infinity. *)
Theorem projector_unit_direction (a : triplet) :
  modulus a <> 0 ->
  let proj := projector a in
  (proj.[0] = 2 * a.[0] / modulus a /\
   proj.[1] = 2 * a.[1] / modulus a /\
   proj.[2] = 2 * a.[2] / modulus a) /\
  proj.[0]^2 + proj.[1]^2 + proj.[2]^2 = 4 /\
  Binary64.projector (0, 0, 0)%float = (nan, nan, nan) /\
  Binary64.projector (0x1p-600, 0, 0)%float = (infinity, nan, nan).
Proof.
  intros Hm proj. split; [|split; [|split]].
  - unfold proj. rewrite projector_components. unbuf. repeat split; reflexivity.
  - pose proof (modulus_sqr a) as Hs.
    unfold proj. rewrite projector_components.
    generalize dependent (modulus a). intros r Hr Hs.
    destruct a as [a0 a1 a2]. unbuf.
    replace ((2 * a0 / r)^2 + (2 * a1 / r)^2 + (2 * a2 / r)^2)
      with (4 * (a0 * a0 + a1 * a1 + a2 * a2) / (r * r))
      by (field; exact Hr).
    rewrite <- Hs. field. exact Hr.
  - vm_compute. reflexivity.
  - vm_compute. reflexivity.
Qed.

Lemma modulus_e3 : modulus (Trip 0 0 1) = 1.
Proof.
  unfold modulus. unbuf.
  replace (0 * 0 + 0 * 0 + 1 * 1) with 1 by ring. apply sqrt_1.
Qed.

Lemma projector_unit_direction_witness :
  let proj := projector (Trip 0 0 1) in
  (proj.[0] = 2 * (Trip 0 0 1).[0] / modulus (Trip 0 0 1) /\
   proj.[1] = 2 * (Trip 0 0 1).[1] / modulus (Trip 0 0 1) /\
   proj.[2] = 2 * (Trip 0 0 1).[2] / modulus (Trip 0 0 1)) /\
  proj.[0]^2 + proj.[1]^2 + proj.[2]^2 = 4 /\
  Binary64.projector (0, 0, 0)%float = (nan, nan, nan) /\
  Binary64.projector (0x1p-600, 0, 0)%float = (infinity, nan, nan).
Proof.
  apply (projector_unit_direction (Trip 0 0 1)).
  rewrite modulus_e3. lra.
Defined.

(** C5.  In the buffer [project_u1] fills, the imaginary part written for
    each of the four matrix entries equals the real part written for it. *)
Theorem project_u1_imag_eq_real (l : lattice) (f : fields) (i dir : nat) :
  let pro := project_u1 l f i dir in
  pro.[1] = pro.[0] /\ pro.[3] = pro.[2] /\ pro.[5] = pro.[4] /\ pro.[7] = pro.[6].
Proof.
  intros pro. unfold pro, project_u1. unbuf. repeat split; ring.
Qed.

(** ** The trivial vacuum *)

Lemma staple_counterwise_one :
  su2staple_counterwise su2_one su2_one su2_one = su2_one.
Proof. su2_ext; unfold su2staple_counterwise, su2_one; unbuf; ring. Qed.

Lemma staple_clockwise_one :
  su2staple_clockwise su2_one su2_one su2_one = su2_one.
Proof. su2_ext; unfold su2staple_clockwise, su2_one; unbuf; ring. Qed.

Lemma su2_conj_one : su2_conj su2_one = su2_one.
Proof. su2_ext; unfold su2_conj, su2_one; unbuf; ring. Qed.

Lemma su2rot_one : su2rot su2_one su2_one = su2_one.
Proof. su2_ext; unfold su2rot, su2_one; unbuf; ring. Qed.

Lemma other_dirs_S (n dir : nat) :
  other_dirs (S n) dir
  = if (n =? dir)%nat then other_dirs n dir else S (other_dirs n dir).
Proof.
  unfold other_dirs.
  destruct (Nat.eqb_spec n dir) as [E|E];
  destruct (Nat.ltb_spec dir n); destruct (Nat.ltb_spec dir (S n)); lia.
Qed.

(** With identity links the staple loop has added the identity twice for
    every direction other than [dir] it has passed. *)
Lemma su2staple_wilson_identity (l : lattice) (f : fields) (i dir : nat) :
  all_identity f ->
  su2staple_wilson l f i dir = SU2 (2 * INR (other_dirs (dim l) dir)) 0 0 0.
Proof.
  intros Hid. unfold su2staple_wilson. cbv zeta.
  match goal with
  | |- context [for_loop _ ?body ?init] =>
      assert (L : forall n,
        for_loop n body init = SU2 (2 * INR (other_dirs n dir)) 0 0 0)
  end.
  { induction n as [|n IH].
    - unfold for_loop, other_dirs. simpl. f_equal. ring.
    - rewrite for_loop_S, IH, other_dirs_S. rewrite !Hid.
      rewrite staple_counterwise_one, staple_clockwise_one.
      destruct (n =? dir)%nat; simpl negb; cbv iota.
      + reflexivity.
      + rewrite S_INR. su2_ext; unfold su2_add, su2_one; unbuf; ring. }
  rewrite L. unbuf. reflexivity.
Qed.

(** C4.  When every link is the identity, the plaquette trace is exactly 2
    and the Wilson staple is [2*(dim-1)] times the identity, for a lattice
    of dimension at least 2 and a direction [dir] of the lattice. *)
Theorem identity_links_trivial_vacuum
    (l : lattice) (f : fields) (i dir dir1 dir2 : nat) :
  all_identity f -> (2 <= dim l)%nat -> (dir < dim l)%nat -> dir1 <> dir2 ->
  su2ptrace l f i dir1 dir2 = 2 /\
  su2staple_wilson l f i dir = SU2 (2 * (INR (dim l) - 1)) 0 0 0.
Proof.
  intros Hid Hdim Hdir _. split.
  - unfold su2ptrace. rewrite !Hid. unfold su2trace4, su2_one. unbuf. ring.
  - rewrite su2staple_wilson_identity by exact Hid.
    unfold other_dirs.
    replace (dir <? dim l)%nat with true by (symmetry; apply Nat.ltb_lt; lia).
    rewrite minus_INR by lia. reflexivity.
Qed.

Lemma vacuum_all_identity : all_identity vacuum.
Proof. intros x d. reflexivity. Qed.

Lemma identity_links_trivial_vacuum_witness :
  su2ptrace torus3 vacuum 0 0 1 = 2 /\
  su2staple_wilson torus3 vacuum 0 0 = SU2 (2 * (INR (dim torus3) - 1)) 0 0 0.
Proof.
  apply (identity_links_trivial_vacuum torus3 vacuum 0 0 0 1).
  - exact vacuum_all_identity.
  - simpl. lia.
  - simpl. lia.
  - lia.
Defined.

(** ** Smearing *)

Lemma onedir_identity (l : lattice) (f : fields) (i mu nu : nat) :
  all_identity f -> mu <> nu ->
  su2staple_wilson_onedir l f i mu nu 1 = SU2 2 0 0 0.
Proof.
  intros Hid Hne. unfold su2staple_wilson_onedir.
  destruct (Nat.eqb_spec mu nu) as [E|_]; [contradiction|].
  cbv zeta. rewrite !Hid, staple_counterwise_one, staple_clockwise_one.
  simpl negb. cbv iota. rewrite su2_conj_one.
  su2_ext; unfold su2_add, su2_one; unbuf; ring.
Qed.

Lemma su2_div_self (c : R) :
  c <> 0 -> su2_div (SU2 c 0 0 0) c = su2_one.
Proof.
  intros Hc. su2_ext; unfold su2_div, su2_one; unbuf; field; exact Hc.
Qed.

Lemma smear_link_identity (l : lattice) (f : fields) (smear_dir : nat -> bool)
    (i dir : nat) :
  all_identity f -> snd (smear_link l f smear_dir i dir) = su2_one.
Proof.
  intros Hid. unfold smear_link. cbv zeta. rewrite !Hid.
  match goal with
  | |- context [for_loop _ ?body ?init] =>
      assert (L : forall n, exists paths : nat,
        for_loop n body init
        = (SU2 (INR paths) 0 0 0, SU2 (INR paths) 0 0 0, paths)
        /\ (1 <= paths)%nat)
  end.
  { induction n as [|n [paths [IH Hp]]].
    - exists 1%nat. split; [reflexivity | lia].
    - rewrite for_loop_S, IH.
      destruct (Nat.eqb_spec n dir) as [E|E]; simpl negb; simpl andb.
      + exists paths. split; [reflexivity|exact Hp].
      + destruct (smear_dir n).
        * exists (paths + 2)%nat. split; [|lia].
          rewrite !onedir_identity by auto. rewrite plus_INR.
          apply f_equal2; [apply f_equal2|reflexivity];
          su2_ext; unfold su2_add; unbuf; simpl; ring.
        * exists paths. split; [reflexivity|exact Hp]. }
  destruct (L (dim l)) as [paths [E Hp]]. rewrite E. cbv beta iota. unfold snd.
  rewrite su2_div_self by (apply not_0_INR; lia).
  rewrite su2rot_one.
  replace (su2sqr su2_one) with 1 by (unfold su2sqr, su2_one; unbuf; ring).
  rewrite sqrt_1. apply su2_div_self. lra.
Qed.

Lemma smear_triplet_zero (l : lattice) (f : fields) (smear_dir : nat -> bool)
    (i : nat) :
  zero_triplet f -> smear_triplet l f smear_dir i = Trip 0 0 0.
Proof.
  intros Hz. unfold smear_triplet. cbv zeta.
  match goal with
  | |- context [for_loop _ ?body ?init] =>
      assert (L : forall n, exists s : nat,
        for_loop n body init = (Trip 0 0 0, s))
  end.
  { induction n as [|n [s IH]].
    - exists 1%nat. reflexivity.
    - rewrite for_loop_S, IH. destruct (smear_dir n).
      + exists (s + 2)%nat. rewrite !Hz. unbuf.
        f_equal. f_equal; ring.
      + exists s. reflexivity. }
  destruct (L (dim l)) as [s E]. rewrite E. cbv beta iota. rewrite Hz. unbuf.
  f_equal; unfold Rdiv; ring.
Qed.

(** C8.  Smearing a configuration whose links are all the identity gives
    the identity link at every site and direction, and smearing a
    configuration whose triplet field is zero gives the zero triplet at
    every site, whatever the smearing directions. *)
Theorem smearing_trivial_input (l : lattice) (f1 f2 : fields)
    (smear_dir : nat -> bool) (i dir : nat) :
  all_identity f1 -> zero_triplet f2 ->
  snd (smear_link l f1 smear_dir i dir) = SU2 1 0 0 0 /\
  smear_triplet l f2 smear_dir i = Trip 0 0 0.
Proof.
  intros Hid Hz. split.
  - now apply smear_link_identity.
  - now apply smear_triplet_zero.
Qed.

Lemma smearing_trivial_input_witness :
  snd (smear_link torus3 vacuum (fun _ => true) 0 0) = SU2 1 0 0 0 /\
  smear_triplet torus3 zero_scalars (fun _ => true) 0 = Trip 0 0 0.
Proof.
  apply (smearing_trivial_input torus3 vacuum zero_scalars (fun _ => true) 0 0).
  - exact vacuum_all_identity.
  - intros x. reflexivity.
Defined.

(** ** The magnetic field *)

Lemma direction_pairs_spec (n dir d1 d2 : nat) :
  In (d1, d2) (direction_pairs n dir) <->
  (d1 < d2 /\ d2 < n /\ d1 <> dir /\ d2 <> dir)%nat.
Proof.
  unfold direction_pairs. rewrite filter_In, in_prod_iff, !in_seq.
  rewrite !andb_true_iff, !negb_true_iff, Nat.ltb_lt, !Nat.eqb_neq. lia.
Qed.

Lemma direction_pairs_NoDup (n dir : nat) : NoDup (direction_pairs n dir).
Proof.
  unfold direction_pairs. apply NoDup_filter.
  apply list_prod_NoDup; apply seq_NoDup.
Qed.

(** The sign the three branches of [magfield] apply is the Levi-Civita
    sign of the ordering. *)
Lemma magfield_branch_sign (dir d1 d2 : nat) (res alpha : R) :
  (d1 < d2)%nat -> d1 <> dir -> d2 <> dir ->
  (if (dir <? d1)%nat then res + alpha
   else if (dir <? d2)%nat then res - alpha else res + alpha)
  = res + levi_civita_sign dir d1 d2 * alpha.
Proof.
  intros H12 H1 H2. unfold levi_civita_sign.
  destruct (Nat.ltb_spec dir d1) as [L1|L1].
  - replace (d1 <? d2)%nat with true by (symmetry; apply Nat.ltb_lt; lia).
    simpl. ring.
  - simpl. replace (d1 <? dir)%nat with true by (symmetry; apply Nat.ltb_lt; lia).
    destruct (Nat.ltb_spec dir d2) as [L2|L2]; simpl.
    + ring.
    + replace (d1 <? d2)%nat with true by (symmetry; apply Nat.ltb_lt; lia).
      replace (d2 <? dir)%nat with true by (symmetry; apply Nat.ltb_lt; lia).
      simpl. ring.
Qed.

(** C6.  [magfield] is the sum of [alpha_proj] over the pairs of
    directions [d1 < d2], both other than [dir], weighted by the sign
    (+1 for dir < d1 < d2, -1 for d1 < dir < d2, +1 for d1 < d2 < dir);
    the pairs summed over are exactly those, each once, and no factor 2 is
    applied. *)
Theorem magfield_levi_civita_sum
    (l : lattice) (p : params) (f : fields) (i dir : nat) :
  magfield l p f i dir = magfield_spec l p f i dir /\
  NoDup (direction_pairs (dim l) dir) /\
  (forall d1 d2, In (d1, d2) (direction_pairs (dim l) dir) <->
     (d1 < d2 /\ d2 < dim l /\ d1 <> dir /\ d2 <> dir)%nat).
Proof.
  split; [|split; [apply direction_pairs_NoDup | intros; apply direction_pairs_spec]].
  unfold magfield, magfield_spec, direction_pairs, for_loop, for_range.
  cbv zeta.
  rewrite sum_over_filter, sum_over_list_prod.
  set (n := dim l).
  set (term := fun d1 d2 : nat =>
         if (d2 =? dir)%nat then 0
         else levi_civita_sign dir d1 d2 * alpha_proj l p f i d1 d2).
  rewrite (fold_left_accumulate _
    (fun d1 => if (d1 =? dir)%nat then 0
               else sum_over (seq (d1 + 1) (n - (d1 + 1))) (term d1))).
  - rewrite Rplus_0_l. apply sum_over_ext. intros d1 _.
    destruct (Nat.eqb_spec d1 dir) as [E|E].
    + symmetry. apply sum_over_zero. intros d2 _.
      rewrite andb_false_r. reflexivity.
    + rewrite <- sum_over_seq_above. apply sum_over_ext. intros d2 _.
      unfold term.
      destruct (Nat.ltb_spec d1 d2); simpl; [|reflexivity].
      destruct (Nat.eqb_spec d2 dir); reflexivity.
  - intros d1 s _. destruct (Nat.eqb_spec d1 dir) as [E|E]; [ring|].
    rewrite (fold_left_accumulate _ (term d1)); [reflexivity|].
    intros d2 s' Hin. apply in_seq in Hin. unfold term.
    destruct (Nat.eqb_spec d2 dir) as [E2|E2]; [ring|].
    apply magfield_branch_sign; lia.
Qed.

(** ** The projected plaquette angle *)

(** For four matrices whose imaginary parts repeat their real parts, the
    product [A B C^+ D^+] formed by [matmat] has a real trace, and the
    product taken in the opposite sense has the same trace. *)
Lemma matmat_real_imag_trace (A B C D : cmat) :
  A.[1] = A.[0] -> A.[3] = A.[2] -> A.[5] = A.[4] -> A.[7] = A.[6] ->
  B.[1] = B.[0] -> B.[3] = B.[2] -> B.[5] = B.[4] -> B.[7] = B.[6] ->
  C.[1] = C.[0] -> C.[3] = C.[2] -> C.[5] = C.[4] -> C.[7] = C.[6] ->
  D.[1] = D.[0] -> D.[3] = D.[2] -> D.[5] = D.[4] -> D.[7] = D.[6] ->
  let X := matmat (matmat (matmat A B 0) C 1) D 1 in
  let Y := matmat (matmat (matmat D C 0) B 1) A 1 in
  X.[1] + X.[7] = 0 /\ Y.[1] + Y.[7] = 0 /\ X.[0] + X.[6] = Y.[0] + Y.[6].
Proof.
  destruct A, B, C, D. unbuf. intros; subst.
  cbv [matmat Z.eqb negb]. unbuf. repeat split; ring.
Qed.

Lemma project_u1_repeats (l : lattice) (f : fields) (i dir : nat) :
  (project_u1 l f i dir).[1] = (project_u1 l f i dir).[0] /\
  (project_u1 l f i dir).[3] = (project_u1 l f i dir).[2] /\
  (project_u1 l f i dir).[5] = (project_u1 l f i dir).[4] /\
  (project_u1 l f i dir).[7] = (project_u1 l f i dir).[6].
Proof. unfold project_u1. unbuf. repeat split; ring. Qed.

(** The angle [alpha_proj] returns does not change when the two
    directions are exchanged. *)
Lemma alpha_proj_exchange (l : lattice) (p : params) (f : fields) (i d1 d2 : nat) :
  alpha_proj l p f i d1 d2 = alpha_proj l p f i d2 d1.
Proof.
  unfold alpha_proj. cbv zeta.
  destruct (project_u1_repeats l f i d1) as (A1 & A2 & A3 & A4).
  destruct (project_u1_repeats l f (next l i d1) d2) as (B1 & B2 & B3 & B4).
  destruct (project_u1_repeats l f (next l i d2) d1) as (C1 & C2 & C3 & C4).
  destruct (project_u1_repeats l f i d2) as (D1 & D2 & D3 & D4).
  destruct (matmat_real_imag_trace _ _ _ _
              A1 A2 A3 A4 B1 B2 B3 B4 C1 C2 C3 C4 D1 D2 D3 D4) as (X & Y & T).
  rewrite X, Y, T. reflexivity.
Qed.

Lemma atan2_zero_negative (x : R) : x < 0 -> atan2 0 x = PI.
Proof.
  intros Hx. unfold atan2.
  destruct (Rlt_dec 0 x); [lra|].
  destruct (Rlt_dec x 0); [|lra].
  destruct (Rle_dec 0 0); [|lra].
  unfold Rdiv. rewrite Rmult_0_l, atan_0. ring.
Qed.

Lemma projector_e3 : projector (Trip 0 0 1) = Trip 0 0 2.
Proof.
  rewrite projector_components, modulus_e3. unbuf. f_equal; field.
Qed.

(** With the triplet along the third axis at both ends of a link, the
    projected link keeps the first component of the link only. *)
Lemma project_u1_e3 (l : lattice) (f : fields) (i dir : nat) :
  su2triplet f i = Trip 0 0 1 -> su2triplet f (next l i dir) = Trip 0 0 1 ->
  project_u1 l f i dir
  = CMat ((su2link f i dir).[0]) ((su2link f i dir).[0]) 0 0 0 0 0 0.
Proof.
  intros Hl Hr. unfold project_u1. cbv zeta.
  rewrite Hl, Hr, projector_e3. destruct (su2link f i dir). unbuf.
  f_equal; field.
Qed.

(** C3, evaluated at the configuration [flipped_link] on the 3 x 3 torus
    with [betasu2 = 4]: in both orders of the two directions the angle at
    site 0 is [2*PI], so the angle of one order is not minus the angle of
    the other. *)
Theorem alpha_proj_flipped_link :
  alpha_proj torus3 beta4 flipped_link 0 0 1 = 2 * PI /\
  alpha_proj torus3 beta4 flipped_link 0 1 0 = 2 * PI /\
  alpha_proj torus3 beta4 flipped_link 0 0 1
    <> - alpha_proj torus3 beta4 flipped_link 0 1 0.
Proof.
  assert (E : alpha_proj torus3 beta4 flipped_link 0 0 1 = 2 * PI).
  { unfold alpha_proj. cbv zeta.
    rewrite !project_u1_e3 by reflexivity.
    cbv [matmat Z.eqb negb flipped_link set_su2link vacuum su2link torus3
         next torus3_next torus3_prev Nat.add Nat.sub Nat.mul Nat.div Nat.modulo Nat.divmod
         Nat.eqb andb fst snd betasu2 beta4]. unbuf.
    match goal with
    | |- atan2 ?y ?x * _ = _ =>
        replace y with 0 by ring; replace x with (-4) by ring
    end.
    rewrite atan2_zero_negative by lra.
    replace 4 with (2 * 2) by ring. rewrite sqrt_square by lra. ring. }
  split; [exact E|]. split.
  - rewrite alpha_proj_exchange. exact E.
  - rewrite (alpha_proj_exchange _ _ _ 0 1 0), E.
    pose proof PI_RGT_0. lra.
Qed.

(** ** The action of one link and the total action *)

Lemma local_su2wilson_sum (l : lattice) (f : fields) (p : params) (x : nat) :
  local_su2wilson l f p x
  = betasu2 p * sum_over (seq 0 (dim l)) (fun d1 =>
      sum_over (seq 0 d1) (fun d2 => 1 - 0.5 * su2ptrace l f x d2 d1)).
Proof.
  unfold local_su2wilson. cbv zeta. f_equal.
  rewrite (for_loop_accumulate _ _
    (fun d1 => sum_over (seq 0 d1) (fun d2 => 1 - 0.5 * su2ptrace l f x d2 d1))).
  - ring.
  - intros d1 s _. apply for_loop_accumulate. reflexivity.
Qed.

Lemma covariant_doublet_sum (cfg : config) (l : lattice) (f : fields) (p : params)
    (phi : nat -> su2mat) (x : nat) :
  covariant_doublet cfg l f p phi x
  = sum_over (seq 0 (dim l)) (fun d =>
      2 * doubletsq (phi x) + hopping_doublet_forward cfg l f p phi x d).
Proof.
  unfold covariant_doublet. cbv zeta.
  rewrite (for_loop_accumulate _ _ (fun d =>
    2 * doubletsq (phi x) + hopping_doublet_forward cfg l f p phi x d)).
  - ring.
  - reflexivity.
Qed.

Lemma covariant_triplet_sum (l : lattice) (f : fields) (p : params) (x : nat) :
  covariant_triplet l f p x
  = sum_over (seq 0 (dim l)) (fun d =>
      2 * tripletsq (su2triplet f x) + hopping_triplet_forward l f p x d).
Proof.
  unfold covariant_triplet. cbv zeta.
  rewrite (for_loop_accumulate _ _ (fun d =>
    2 * tripletsq (su2triplet f x) + hopping_triplet_forward l f p x d)).
  - ring.
  - reflexivity.
Qed.

Lemma total_action_sum (cfg : config) (l : lattice) (f : fields) (p : params) :
  total_action cfg l f p = sum_over (seq 0 (sites l)) (action_local cfg l f p).
Proof.
  unfold total_action. cbv zeta.
  rewrite (for_loop_accumulate _ _ (action_local cfg l f p)).
  - ring.
  - reflexivity.
Qed.

Lemma localact_su2link_sum (cfg : config) (l : lattice) (f : fields) (p : params)
    (i dir : nat) :
  localact_su2link cfg l f p i dir
  = betasu2 p * sum_over (seq 0 (dim l)) (fun d =>
      if (d =? dir)%nat then 0
      else (1 - 0.5 * su2ptrace l f i dir d)
           + (1 - 0.5 * su2ptrace l f (prev l i d) dir d))
    + link_hopping cfg l f p i dir.
Proof.
  unfold localact_su2link, link_hopping. cbv zeta.
  rewrite (for_loop_accumulate _ _ (fun d =>
      if (d =? dir)%nat then 0
      else (1 - 0.5 * su2ptrace l f i dir d)
           + (1 - 0.5 * su2ptrace l f (prev l i d) dir d))).
  - destruct (HIGGS cfg), (HIGGS2 cfg), (TRIPLET cfg); ring.
  - intros d s _. destruct (d =? dir)%nat; simpl; ring.
Qed.

Section OneLinkChanged.

Variables (cfg : config) (l : lattice) (p : params) (f : fields).
Variables (i dir : nat) (v : su2mat).

Local Abbreviation f' := (set_su2link f i dir v).

Lemma su2link_unchanged (x d : nat) :
  x <> i \/ d <> dir -> su2link f' x d = su2link f x d.
Proof.
  intros H. simpl.
  destruct (Nat.eqb_spec x i); destruct (Nat.eqb_spec d dir); simpl;
    try reflexivity. lia.
Qed.

Lemma hopping_doublet_forward_unchanged (phi : nat -> su2mat) (x d : nat) :
  x <> i \/ d <> dir ->
  hopping_doublet_forward cfg l f' p phi x d
  = hopping_doublet_forward cfg l f p phi x d.
Proof.
  intros H. unfold hopping_doublet_forward. cbv zeta.
  rewrite (su2link_unchanged x d H). reflexivity.
Qed.

Lemma hopping_triplet_forward_unchanged (x d : nat) :
  x <> i \/ d <> dir ->
  hopping_triplet_forward l f' p x d = hopping_triplet_forward l f p x d.
Proof.
  intros H. unfold hopping_triplet_forward. cbv zeta.
  rewrite (su2link_unchanged x d H). reflexivity.
Qed.

Lemma link_hopping_unchanged (x d : nat) :
  x <> i \/ d <> dir -> link_hopping cfg l f' p x d = link_hopping cfg l f p x d.
Proof.
  intros H. unfold link_hopping.
  rewrite !hopping_doublet_forward_unchanged, hopping_triplet_forward_unchanged
    by exact H.
  reflexivity.
Qed.

Local Abbreviation dP := (plaquette_change l f f').

Lemma dP_swap (x a b : nat) : dP x a b = dP x b a.
Proof.
  unfold plaquette_change.
  now rewrite (su2ptrace_swap l f' x a b), (su2ptrace_swap l f x a b).
Qed.

Lemma dP_other_plane (x a b : nat) : a <> dir -> b <> dir -> dP x a b = 0.
Proof.
  intros Ha Hb. unfold plaquette_change, su2ptrace. cbv zeta.
  rewrite !su2link_unchanged by (right; assumption). ring.
Qed.

Hypothesis Hper : periodic l.

Lemma dP_other_site (x b : nat) :
  (x < sites l)%nat -> (b < dim l)%nat -> b <> dir ->
  x <> i -> x <> prev l i b -> dP x dir b = 0.
Proof.
  intros Hx Hb Hbd Hxi Hxp. unfold plaquette_change, su2ptrace. cbv zeta.
  rewrite (su2link_unchanged x dir) by (left; assumption).
  rewrite (su2link_unchanged (next l x dir) b) by (right; assumption).
  rewrite (su2link_unchanged x b) by (right; assumption).
  rewrite (su2link_unchanged (next l x b) dir).
  - ring.
  - left. intros E. apply Hxp. rewrite <- E.
    symmetry. apply (prev_next l Hper); assumption.
Qed.

Hypothesis Hi : (i < sites l)%nat.
Hypothesis Hdir : (dir < dim l)%nat.
Hypothesis Hapart : forall d, (d < dim l)%nat -> d <> dir -> prev l i d <> i.

(** Summed over the sites, the change of the plaquettes of the plane
    ([dir], [b]) is the change of the two plaquettes on the link. *)
Lemma sum_dP_sites (b : nat) :
  (b < dim l)%nat -> b <> dir ->
  sum_over (seq 0 (sites l)) (fun x => dP x dir b)
  = dP i dir b + dP (prev l i b) dir b.
Proof.
  intros Hb Hbd.
  apply (sum_over_seq_pair (sites l) i (prev l i b) (fun x => dP x dir b)).
  - exact Hi.
  - apply (prev_in_range l Hper); assumption.
  - intros E. apply (Hapart b Hb Hbd). now symmetry.
  - intros x Hx H1 H2. apply dP_other_site; assumption.
Qed.

Lemma local_su2wilson_change (x : nat) :
  local_su2wilson l f' p x - local_su2wilson l f p x
  = betasu2 p * sum_over (seq 0 (dim l)) (fun d1 =>
      sum_over (seq 0 d1) (fun d2 => - 0.5 * dP x d2 d1)).
Proof.
  rewrite !local_su2wilson_sum, <- Rmult_minus_distr_l. f_equal.
  rewrite <- sum_over_minus. apply sum_over_ext. intros d1 _.
  rewrite <- sum_over_minus. apply sum_over_ext. intros d2 _.
  unfold plaquette_change. lra.
Qed.

Lemma sum_dP_plane (d : nat) :
  (d < dim l)%nat -> d <> dir ->
  sum_over (seq 0 (sites l)) (fun x => - 0.5 * dP x dir d)
  = - 0.5 * (dP i dir d + dP (prev l i d) dir d).
Proof.
  intros Hd Hne. rewrite sum_over_scal, sum_dP_sites by assumption. reflexivity.
Qed.

(** The change of the Wilson action summed over the sites. *)
Lemma wilson_change :
  sum_over (seq 0 (sites l)) (fun x =>
    local_su2wilson l f' p x - local_su2wilson l f p x)
  = betasu2 p * sum_over (seq 0 (dim l)) (fun d =>
      if (d =? dir)%nat then 0
      else - 0.5 * (dP i dir d + dP (prev l i d) dir d)).
Proof.
  rewrite (sum_over_ext _ _ _ (fun x _ => local_su2wilson_change x)).
  rewrite sum_over_scal. f_equal.
  rewrite (sum_over_swap (seq 0 (sites l)) (seq 0 (dim l))
             (fun x d1 => sum_over (seq 0 d1) (fun d2 => - 0.5 * dP x d2 d1))).
  rewrite (sum_over_ext _ _
    (fun d1 => sum_over (seq 0 d1) (fun d2 =>
       sum_over (seq 0 (sites l)) (fun x => - 0.5 * dP x d2 d1)))).
  2:{ intros d1 _.
      apply (sum_over_swap (seq 0 (sites l)) (seq 0 d1)
               (fun x d2 => - 0.5 * dP x d2 d1)). }
  rewrite (sum_lower_triangle (dim l) dir
    (fun a b => sum_over (seq 0 (sites l)) (fun x => - 0.5 * dP x a b))).
  - apply sum_over_ext. intros d Hin. apply in_seq in Hin.
    destruct (Nat.eqb_spec d dir) as [E|E]; [reflexivity|].
    destruct (d <? dir)%nat.
    + rewrite <- sum_dP_plane by (try assumption; lia).
      apply sum_over_ext. intros x _. now rewrite dP_swap.
    + apply sum_dP_plane; [lia|assumption].
  - exact Hdir.
  - intros a b _ _ Ha Hb. apply sum_over_zero. intros x _.
    rewrite dP_other_plane by assumption. ring.
Qed.

(** The change of the hopping terms summed over sites and directions. *)
Lemma hopping_change (h h' : nat -> nat -> R) :
  (forall x d, x <> i \/ d <> dir -> h' x d = h x d) ->
  sum_over (seq 0 (sites l)) (fun x =>
    sum_over (seq 0 (dim l)) (fun d => h' x d - h x d))
  = h' i dir - h i dir.
Proof.
  intros H.
  rewrite (sum_over_seq_single (sites l) i).
  - apply (sum_over_seq_single (dim l) dir
             (fun d => h' i d - h i d)); [exact Hdir|].
    intros d _ Hd. rewrite H by (right; exact Hd). ring.
  - exact Hi.
  - intros x _ Hx. apply sum_over_zero. intros d _.
    rewrite H by (left; exact Hx). ring.
Qed.

Lemma local_u1wilson_same (x : nat) :
  local_u1wilson l f' p x = local_u1wilson l f p x.
Proof. reflexivity. Qed.

Lemma higgspotential_same (x : nat) :
  higgspotential cfg f' p x = higgspotential cfg f p x.
Proof. reflexivity. Qed.

Lemma doublet_species_same (db : nat) :
  doublet_species f' db = doublet_species f db.
Proof. destruct db; reflexivity. Qed.

Hypothesis Hnh : (NHIGGS cfg <= 2)%nat.

(** The change of [action_local] at one site. *)
Lemma action_local_change (x : nat) :
  action_local cfg l f' p x - action_local cfg l f p x
  = (local_su2wilson l f' p x - local_su2wilson l f p x)
    + sum_over (seq 0 (dim l)) (fun d =>
        link_hopping cfg l f' p x d - link_hopping cfg l f p x d).
Proof.
  unfold action_local, link_hopping, HIGGS, HIGGS2. cbv zeta.
  rewrite local_u1wilson_same, higgspotential_same.
  change (singlet f') with (singlet f).
  change (su2doublet f') with (su2doublet f).
  change (doublet2 f') with (doublet2 f).
  rewrite ?covariant_triplet_sum.
  change (su2triplet f') with (su2triplet f).
  assert (Hs : forall S init,
    for_loop (dim l) (fun d tot => tot - S * singlet f (next l x d)) init
    = init + sum_over (seq 0 (dim l)) (fun d => - (S * singlet f (next l x d)))).
  { intros S init. apply for_loop_accumulate. intros; ring. }
  rewrite !Hs.
  destruct (NHIGGS cfg) as [|[|[|n]]]; [| | |lia];
    rewrite ?for_loop_S, ?for_loop_0;
    cbv [Nat.ltb Nat.leb Nat.eqb doublet_species];
    rewrite ?covariant_doublet_sum;
    change (su2doublet f') with (su2doublet f);
    change (doublet2 f') with (doublet2 f);
    destruct (TRIPLET cfg), (U1 cfg), (SINGLET cfg);
    split_sums; ring.
Qed.

(** The total action changes by what [localact_su2link] changes by. *)
Lemma total_action_change :
  total_action cfg l f' p - total_action cfg l f p
  = localact_su2link cfg l f' p i dir - localact_su2link cfg l f p i dir.
Proof.
  rewrite !total_action_sum, <- sum_over_minus.
  rewrite (sum_over_ext _ _ _ (fun x _ => action_local_change x)).
  rewrite sum_over_plus, wilson_change.
  rewrite (hopping_change (link_hopping cfg l f p) (link_hopping cfg l f' p))
    by (intros x d H; now apply link_hopping_unchanged).
  rewrite !localact_su2link_sum.
  match goal with
  | |- _ = betasu2 p * ?A' + ?h' - (betasu2 p * ?A + ?h) =>
      replace (betasu2 p * A' + h' - (betasu2 p * A + h))
        with (betasu2 p * (A' - A) + (h' - h)) by ring
  end.
  f_equal. f_equal. rewrite <- sum_over_minus.
  apply sum_over_ext. intros d _.
  destruct (d =? dir)%nat; unfold plaquette_change; lra.
Qed.

(** Away from the sites of [link_sites], [action_local] does not change. *)
Lemma action_local_unchanged (x : nat) :
  (x < sites l)%nat -> ~ In x (link_sites l i dir) ->
  action_local cfg l f' p x - action_local cfg l f p x = 0.
Proof.
  intros Hx Hnot.
  assert (Hxi : x <> i).
  { intros E. apply Hnot. unfold link_sites. apply nodup_In. left. now symmetry. }
  assert (Hxp : forall d, (d < dim l)%nat -> d <> dir -> x <> prev l i d).
  { intros d Hd Hne E. apply Hnot. unfold link_sites. apply nodup_In. right.
    apply in_map_iff. exists d. split; [now symmetry|].
    apply filter_In. split; [apply in_seq; lia|].
    now apply negb_true_iff, Nat.eqb_neq. }
  rewrite action_local_change, local_su2wilson_change.
  rewrite (sum_over_zero (seq 0 (dim l))).
  - rewrite (sum_over_zero (seq 0 (dim l))); [ring|].
    intros d _. rewrite link_hopping_unchanged by (left; exact Hxi). ring.
  - intros d1 Hin1. apply in_seq in Hin1. apply sum_over_zero.
    intros d2 Hin2. apply in_seq in Hin2.
    destruct (Nat.eq_dec d2 dir) as [E2|E2].
    + subst d2. rewrite dP_other_site; try assumption; try lia; [ring|].
      apply Hxp; lia.
    + destruct (Nat.eq_dec d1 dir) as [E1|E1].
      * subst d1. rewrite dP_swap, dP_other_site; try assumption; try lia; [ring|].
        apply Hxp; lia.
      * rewrite dP_other_plane by assumption. ring.
Qed.

Lemma link_sites_in_range (x : nat) :
  In x (link_sites l i dir) -> (x < sites l)%nat.
Proof.
  unfold link_sites. rewrite nodup_In. intros [E|Hin].
  - now subst x.
  - apply in_map_iff in Hin. destruct Hin as [d [E Hd]]. subst x.
    apply filter_In in Hd. destruct Hd as [Hd _]. apply in_seq in Hd.
    apply (prev_in_range l Hper); [exact Hi|lia].
Qed.

(** The change of the total action is the change of [action_local]
    summed again over the sites of [link_sites]. *)
Lemma total_action_change_resum :
  total_action cfg l f' p - total_action cfg l f p
  = resum_action cfg l f' p (link_sites l i dir)
    - resum_action cfg l f p (link_sites l i dir).
Proof.
  unfold resum_action. rewrite !total_action_sum, <- !sum_over_minus.
  apply sum_over_support.
  - apply NoDup_nodup.
  - exact link_sites_in_range.
  - exact action_local_unchanged.
Qed.

End OneLinkChanged.

(** Two configurations that agree everywhere but at one link are the
    first with that link replaced. *)
Lemma differ_only_at_link_set (f f' : fields) (i dir : nat) :
  differ_only_at_link f f' i dir ->
  f' = set_su2link f i dir (su2link f' i dir).
Proof.
  intros (Hl & Hu & Hd & Hd2 & Ht & Hs).
  destruct f' as [sl ul sd d2 st sg]. unfold set_su2link. simpl in *.
  f_equal.
  - extensionality x. extensionality d.
    destruct (Nat.eqb_spec x i) as [Ex|Ex]; destruct (Nat.eqb_spec d dir) as [Ed|Ed];
      simpl; subst; try reflexivity; apply Hl; auto.
  - extensionality x. extensionality d. apply Hu.
  - extensionality x. apply Hd.
  - extensionality x. apply Hd2.
  - extensionality x. apply Ht.
  - extensionality x. apply Hs.
Qed.

(** C1, as the code has it.  On the periodic lattice of one node, for a
    link at a site [i] and a direction [dir] of the lattice whose backward
    neighbours in the other directions are other sites, and with at most
    two doublets: between two configurations that differ in that link
    only, [localact_su2link] differs by what the sum of [action_local]
    over all sites differs by, and that is what the sum of [action_local]
    over the site [i] and its backward neighbours in the other directions
    differs by. *)
Theorem localact_su2link_total_action
    (cfg : config) (l : lattice) (p : params) (f f' : fields) (i dir : nat) :
  periodic l -> (i < sites l)%nat -> (dir < dim l)%nat ->
  (forall d, (d < dim l)%nat -> d <> dir -> prev l i d <> i) ->
  (NHIGGS cfg <= 2)%nat ->
  differ_only_at_link f f' i dir ->
  localact_su2link cfg l f' p i dir - localact_su2link cfg l f p i dir
  = total_action cfg l f' p - total_action cfg l f p /\
  total_action cfg l f' p - total_action cfg l f p
  = resum_action cfg l f' p (link_sites l i dir)
    - resum_action cfg l f p (link_sites l i dir).
Proof.
  intros Hper Hi Hdir Hapart Hnh Hdiff.
  rewrite (differ_only_at_link_set f f' i dir Hdiff). split.
  - symmetry. now apply total_action_change.
  - now apply total_action_change_resum.
Qed.

Lemma torus3_periodic : periodic torus3.
Proof.
  split; simpl; intros x d Hx Hd;
    (destruct d as [|[|d]]; [| |lia]);
    do 9 (destruct x as [|x]; [vm_compute; lia|]); lia.
Qed.

Lemma flipped_link_differs : differ_only_at_link vacuum flipped_link 0 0.
Proof.
  repeat split; try reflexivity.
  intros x d H. simpl.
  destruct (Nat.eqb_spec x 0); destruct (Nat.eqb_spec d 0); simpl;
    try reflexivity. lia.
Qed.

Lemma localact_su2link_total_action_witness :
  localact_su2link pure_gauge torus3 flipped_link beta4 0 0
  - localact_su2link pure_gauge torus3 vacuum beta4 0 0
  = total_action pure_gauge torus3 flipped_link beta4
    - total_action pure_gauge torus3 vacuum beta4 /\
  total_action pure_gauge torus3 flipped_link beta4
  - total_action pure_gauge torus3 vacuum beta4
  = resum_action pure_gauge torus3 flipped_link beta4 (link_sites torus3 0 0)
    - resum_action pure_gauge torus3 vacuum beta4 (link_sites torus3 0 0).
Proof.
  apply (localact_su2link_total_action pure_gauge torus3 beta4 vacuum flipped_link 0 0).
  - exact torus3_periodic.
  - simpl. lia.
  - simpl. lia.
  - intros d Hd Hne. simpl in Hd.
    destruct d as [|[|d]]; [congruence| |lia]. vm_compute. lia.
  - simpl. lia.
  - exact flipped_link_differs.
Defined.

Ltac run_action :=
  cbv [resum_action sum_over fold_right action_local localact_su2link
       local_su2wilson su2ptrace su2trace4 for_loop seq fold_left
       pure_gauge NHIGGS TRIPLET U1 SINGLET HIGGS HIGGS2 higgspotential
       torus3 dim sites next prev torus3_next torus3_prev flipped_link set_su2link vacuum
       su2link beta4 betasu2
       Nat.add Nat.sub Nat.mul Nat.div Nat.modulo Nat.divmod Nat.eqb Nat.ltb Nat.leb
       andb negb fst snd];
  unbuf.

Lemma localact_flipped_link :
  localact_su2link pure_gauge torus3 flipped_link beta4 0 0
  - localact_su2link pure_gauge torus3 vacuum beta4 0 0 = 16.
Proof. run_action. lra. Qed.

Lemma endpoints_flipped_link :
  resum_action pure_gauge torus3 flipped_link beta4 [0%nat; next torus3 0 0]
  - resum_action pure_gauge torus3 vacuum beta4 [0%nat; next torus3 0 0] = 8.
Proof. run_action. lra. Qed.

(** C1, as the claim words it, fails.  On the 3 x 3 torus with
    [betasu2 = 4] and no scalar field, flipping the link at site 0,
    direction 0 from the identity to minus the identity changes
    [localact_su2link] and the total action by 16, but the sum of
    [action_local] over the two endpoints of the link (site 0 and its
    forward neighbour) by 8 only: the plaquette through the link that
    starts at the backward neighbour in the other direction is counted at
    neither endpoint. *)
Lemma two_endpoints_miss_plaquette :
  localact_su2link pure_gauge torus3 flipped_link beta4 0 0
  - localact_su2link pure_gauge torus3 vacuum beta4 0 0 = 16 /\
  total_action pure_gauge torus3 flipped_link beta4
  - total_action pure_gauge torus3 vacuum beta4 = 16 /\
  resum_action pure_gauge torus3 flipped_link beta4 [0%nat; next torus3 0 0]
  - resum_action pure_gauge torus3 vacuum beta4 [0%nat; next torus3 0 0] = 8 /\
  total_action pure_gauge torus3 flipped_link beta4
  - total_action pure_gauge torus3 vacuum beta4
  <> resum_action pure_gauge torus3 flipped_link beta4 [0%nat; next torus3 0 0]
     - resum_action pure_gauge torus3 vacuum beta4 [0%nat; next torus3 0 0].
Proof.
  assert (T : total_action pure_gauge torus3 flipped_link beta4
              - total_action pure_gauge torus3 vacuum beta4 = 16).
  { unfold total_action. run_action. lra. }
  repeat split.
  - exact localact_flipped_link.
  - exact T.
  - exact endpoints_flipped_link.
  - rewrite T, endpoints_flipped_link. lra.
Qed.
(** * Further properties of the kernels *)

(** ** The quaternion product [su2rot] *)

Lemma su2rot_assoc (a b c : su2mat) :
  su2rot (su2rot a b) c = su2rot a (su2rot b c).
Proof. destruct a, b, c. su2_ext; unfold su2rot; unbuf; ring. Qed.

Lemma su2rot_one_l (a : su2mat) : su2rot su2_one a = a.
Proof. destruct a. su2_ext; unfold su2rot, su2_one; unbuf; ring. Qed.

Lemma su2rot_one_r (a : su2mat) : su2rot a su2_one = a.
Proof. destruct a. su2_ext; unfold su2rot, su2_one; unbuf; ring. Qed.

(** X1.  The product [su2rot] is associative and the matrix (1,0,0,0) is
    its two-sided unit, for arbitrary four-component operands (unit norm
    is not needed). *)
Theorem su2rot_monoid (a b c : su2mat) :
  su2rot (su2rot a b) c = su2rot a (su2rot b c) /\
  su2rot su2_one a = a /\ su2rot a su2_one = a.
Proof.
  split; [apply su2rot_assoc|]. split; [apply su2rot_one_l|apply su2rot_one_r].
Qed.

Lemma su2rot_conj_r (u : su2mat) : su2rot u (su2_conj u) = SU2 (su2sqr u) 0 0 0.
Proof. destruct u. su2_ext; unfold su2rot, su2_conj, su2sqr; unbuf; ring. Qed.

Lemma su2rot_conj_l (u : su2mat) : su2rot (su2_conj u) u = SU2 (su2sqr u) 0 0 0.
Proof. destruct u. su2_ext; unfold su2rot, su2_conj, su2sqr; unbuf; ring. Qed.

Lemma su2_conj_su2rot (a b : su2mat) :
  su2_conj (su2rot a b) = su2rot (su2_conj b) (su2_conj a).
Proof. destruct a, b. su2_ext; unfold su2rot, su2_conj; unbuf; ring. Qed.

Lemma su2_conj_involutive (a : su2mat) : su2_conj (su2_conj a) = a.
Proof. destruct a. su2_ext; unfold su2_conj; unbuf; ring. Qed.

Lemma su2sqr_conj (a : su2mat) : su2sqr (su2_conj a) = su2sqr a.
Proof. destruct a. unfold su2_conj, su2sqr; unbuf; ring. Qed.

(** X2.  Flipping the sign of components 1..3 (the conjugation loop of the
    staple routines) gives the inverse of a unit-norm matrix under
    [su2rot], on both sides; it keeps the norm, reverses products and is
    an involution. *)
Theorem su2_conj_inverse (u v : su2mat) :
  su2sqr u = 1 ->
  su2rot u (su2_conj u) = su2_one /\ su2rot (su2_conj u) u = su2_one /\
  su2sqr (su2_conj u) = 1 /\
  su2_conj (su2rot u v) = su2rot (su2_conj v) (su2_conj u) /\
  su2_conj (su2_conj u) = u.
Proof.
  intros H. rewrite su2rot_conj_r, su2rot_conj_l, su2sqr_conj, H.
  repeat split; try reflexivity.
  - apply su2_conj_su2rot.
  - apply su2_conj_involutive.
Qed.

Lemma su2_conj_inverse_witness :
  let u := SU2 0 0 1 0 in
  let v := SU2 1 2 3 4 in
  su2rot u (su2_conj u) = su2_one /\ su2rot (su2_conj u) u = su2_one /\
  su2sqr (su2_conj u) = 1 /\
  su2_conj (su2rot u v) = su2rot (su2_conj v) (su2_conj u) /\
  su2_conj (su2_conj u) = u.
Proof.
  apply (su2_conj_inverse (SU2 0 0 1 0) (SU2 1 2 3 4)).
  unfold su2sqr; unbuf; ring.
Defined.

(** ** Gauge covariance of the plaquette and hopping traces *)

Lemma su2trace4_product (u1 u2 u3 u4 : su2mat) :
  su2trace4 u1 u2 u3 u4
  = 2 * (su2rot u1 (su2rot u2 (su2rot (su2_conj u3) (su2_conj u4)))).[0].
Proof.
  destruct u1, u2, u3, u4. unfold su2trace4, su2rot, su2_conj. unbuf. ring.
Qed.

Lemma su2trace4_corner12 (u1 u2 u3 u4 h : su2mat) :
  su2trace4 (su2rot u1 (su2_conj h)) (su2rot h u2) u3 u4
  = su2sqr h * su2trace4 u1 u2 u3 u4.
Proof.
  destruct u1, u2, u3, u4, h. unfold su2trace4, su2rot, su2_conj, su2sqr. unbuf. ring.
Qed.

Lemma su2trace4_corner23 (u1 u2 u3 u4 h : su2mat) :
  su2trace4 u1 (su2rot u2 (su2_conj h)) (su2rot u3 (su2_conj h)) u4
  = su2sqr h * su2trace4 u1 u2 u3 u4.
Proof.
  destruct u1, u2, u3, u4, h. unfold su2trace4, su2rot, su2_conj, su2sqr. unbuf. ring.
Qed.

Lemma su2trace4_corner34 (u1 u2 u3 u4 h : su2mat) :
  su2trace4 u1 u2 (su2rot h u3) (su2rot u4 (su2_conj h))
  = su2sqr h * su2trace4 u1 u2 u3 u4.
Proof.
  destruct u1, u2, u3, u4, h. unfold su2trace4, su2rot, su2_conj, su2sqr. unbuf. ring.
Qed.

Lemma su2trace4_corner41 (u1 u2 u3 u4 h : su2mat) :
  su2trace4 (su2rot h u1) u2 u3 (su2rot h u4)
  = su2sqr h * su2trace4 u1 u2 u3 u4.
Proof.
  destruct u1, u2, u3, u4, h. unfold su2trace4, su2rot, su2_conj, su2sqr. unbuf. ring.
Qed.

(** X3.  [su2trace4] is gauge invariant: rotating the four links of a
    plaquette by unit-norm matrices [g1..g4] sitting at its four corners
    (each link [u] from corner a to corner b becomes [ga u gb^+]) leaves
    the trace unchanged. *)
Theorem su2trace4_gauge_invariant (g1 g2 g3 g4 u1 u2 u3 u4 : su2mat) :
  su2sqr g1 = 1 -> su2sqr g2 = 1 -> su2sqr g3 = 1 -> su2sqr g4 = 1 ->
  su2trace4 (su2_rotated g1 u1 g2) (su2_rotated g2 u2 g3)
            (su2_rotated g4 u3 g3) (su2_rotated g1 u4 g4)
  = su2trace4 u1 u2 u3 u4.
Proof.
  intros H1 H2 H3 H4. unfold su2_rotated.
  rewrite (su2rot_assoc g2 u2).
  rewrite su2trace4_corner12, su2trace4_corner23, su2trace4_corner34,
    su2trace4_corner41.
  rewrite H1, H2, H3, H4. ring.
Qed.

Lemma su2trace4_gauge_invariant_witness :
  let g1 := SU2 0 1 0 0 in
  let g2 := SU2 0 0 1 0 in
  let g3 := SU2 0 0 0 1 in
  let g4 := SU2 1 0 0 0 in
  let u1 := SU2 1 2 3 4 in
  let u2 := SU2 0 1 0 2 in
  let u3 := SU2 3 0 1 0 in
  let u4 := SU2 2 2 0 1 in
  su2trace4 (su2_rotated g1 u1 g2) (su2_rotated g2 u2 g3)
            (su2_rotated g4 u3 g3) (su2_rotated g1 u4 g4)
  = su2trace4 u1 u2 u3 u4.
Proof.
  apply (su2trace4_gauge_invariant (SU2 0 1 0 0) (SU2 0 0 1 0) (SU2 0 0 0 1)
           (SU2 1 0 0 0) (SU2 1 2 3 4) (SU2 0 1 0 2) (SU2 3 0 1 0) (SU2 2 2 0 1));
    unfold su2sqr; unbuf; ring.
Defined.

Lemma hopping_trace_product (phi1 u phi2 : su2mat) :
  hopping_trace phi1 u phi2 = (su2rot (su2rot (su2_conj phi1) u) phi2).[0].
Proof.
  destruct phi1, u, phi2. unfold hopping_trace, su2rot, su2_conj. unbuf. ring.
Qed.

Lemma hopping_trace_su2u1_zero (phi1 u phi2 : su2mat) :
  hopping_trace_su2u1 phi1 u phi2 0 = hopping_trace phi1 u phi2.
Proof.
  unfold hopping_trace_su2u1, hopping_trace. cbv zeta.
  rewrite sin_0, cos_0. ring.
Qed.

Lemma hopping_trace_su2u1_rotated (phi1 u phi2 : su2mat) (a : R) :
  hopping_trace_su2u1 phi1 u phi2 a
  = hopping_trace phi1 u (hypercharge_rotated phi2 a).
Proof.
  destruct phi1, u, phi2.
  unfold hopping_trace_su2u1, hopping_trace, hypercharge_rotated. cbv zeta. unbuf.
  ring.
Qed.

Lemma hopping_trace_scaling (g h phi1 u phi2 : su2mat) :
  hopping_trace (su2rot g phi1) (su2_rotated g u h) (su2rot h phi2)
  = su2sqr g * su2sqr h * hopping_trace phi1 u phi2.
Proof.
  destruct g, h, phi1, u, phi2.
  unfold hopping_trace, su2_rotated, su2rot, su2_conj, su2sqr. unbuf. ring.
Qed.

(** X4.  [hopping_trace phi1 u phi2] is the first component of the product
    [phi1^+ u phi2], i.e. half the trace of Phi1^+ U Phi2; it is unchanged
    when the two doublets are multiplied from the left by unit-norm
    matrices [g], [h] and the link becomes [g u h^+]. *)
Theorem hopping_trace_gauge (g h phi1 u phi2 : su2mat) :
  su2sqr g = 1 -> su2sqr h = 1 ->
  hopping_trace phi1 u phi2 = (su2rot (su2rot (su2_conj phi1) u) phi2).[0] /\
  hopping_trace (su2rot g phi1) (su2_rotated g u h) (su2rot h phi2)
  = hopping_trace phi1 u phi2.
Proof.
  intros Hg Hh. split; [apply hopping_trace_product|].
  rewrite hopping_trace_scaling, Hg, Hh. ring.
Qed.

Lemma hopping_trace_gauge_witness :
  let g := SU2 0 1 0 0 in
  let h := SU2 0 0 0 1 in
  let phi1 := SU2 1 2 3 4 in
  let u := SU2 0 1 0 2 in
  let phi2 := SU2 3 0 1 0 in
  hopping_trace phi1 u phi2 = (su2rot (su2rot (su2_conj phi1) u) phi2).[0] /\
  hopping_trace (su2rot g phi1) (su2_rotated g u h) (su2rot h phi2)
  = hopping_trace phi1 u phi2.
Proof.
  apply (hopping_trace_gauge (SU2 0 1 0 0) (SU2 0 0 0 1) (SU2 1 2 3 4)
           (SU2 0 1 0 2) (SU2 3 0 1 0)); unfold su2sqr; unbuf; ring.
Defined.

(** X5.  The hopping trace with hypercharge is the plain hopping trace of
    the second doublet rotated by the U(1) angle exactly as
    [su2link_staple] rotates it; at angle zero the two traces agree. *)
Theorem hopping_trace_su2u1_hypercharge (phi1 u phi2 : su2mat) (a : R) :
  hopping_trace_su2u1 phi1 u phi2 a
  = hopping_trace phi1 u (hypercharge_rotated phi2 a) /\
  hopping_trace_su2u1 phi1 u phi2 0 = hopping_trace phi1 u phi2.
Proof.
  split; [apply hopping_trace_su2u1_rotated|apply hopping_trace_su2u1_zero].
Qed.

(** ** The doublet product [phiproduct] *)

Lemma sqrt2_sqr : sqrt 2 * sqrt 2 = 2.
Proof. apply sqrt_sqrt. lra. Qed.

Lemma sqrt2_neq0 : sqrt 2 <> 0.
Proof. pose proof sqrt2_sqr. intros E. rewrite E in H. lra. Qed.

(** X6.  [phiproduct] is multiplicative for the doublet norm:
    doubletsq of the product is the product of the two doubletsq, with
    or without conjugation of the first operand. *)
Theorem doubletsq_phiproduct (f1 f2 : su2mat) (conj : Z) :
  doubletsq (phiproduct f1 f2 conj) = doubletsq f1 * doubletsq f2.
Proof.
  destruct f1 as [a0 a1 a2 a3], f2 as [b0 b1 b2 b3].
  unfold phiproduct, doubletsq. cbv zeta.
  pose proof sqrt2_sqr as Hs. pose proof sqrt2_neq0 as Hn.
  generalize dependent (sqrt 2). intros r Hs Hn.
  replace 0.5 with (/ 2) by lra.
  destruct (negb (conj =? 0)%Z); unbuf.
  - transitivity
      (/ 2 * ((a0*a0 + a1*a1 + a2*a2 + a3*a3) * (b0*b0 + b1*b1 + b2*b2 + b3*b3))
       / (r * r)).
    + field. exact Hn.
    + rewrite Hs. field.
  - transitivity
      (/ 2 * ((a0*a0 + a1*a1 + a2*a2 + a3*a3) * (b0*b0 + b1*b1 + b2*b2 + b3*b3))
       / (r * r)).
    + field. exact Hn.
    + rewrite Hs. field.
Qed.

Lemma first_component_bound (u : su2mat) :
  su2sqr u = 1 -> -1 <= u.[0] <= 1.
Proof. destruct u. unfold su2sqr. unbuf. intros H. split; nra. Qed.

(** ** Staples, plaquettes and the clover *)

Lemma staple_counterwise_product (u1 u2 u3 : su2mat) :
  su2staple_counterwise u1 u2 u3 = su2rot u1 (su2rot (su2_conj u2) (su2_conj u3)).
Proof.
  destruct u1, u2, u3. su2_ext; unfold su2staple_counterwise, su2rot, su2_conj; unbuf; ring.
Qed.

Lemma staple_clockwise_product (u1 u2 u3 : su2mat) :
  su2staple_clockwise u1 u2 u3 = su2rot (su2_conj u1) (su2rot (su2_conj u2) u3).
Proof.
  destruct u1, u2, u3. su2_ext; unfold su2staple_clockwise, su2rot, su2_conj; unbuf; ring.
Qed.

Lemma upper_staple_trace (U u1 u2 u3 : su2mat) :
  2 * (su2rot U (su2staple_counterwise u1 u2 u3)).[0] = su2trace4 U u1 u2 u3.
Proof.
  destruct U, u1, u2, u3. unfold su2trace4, su2rot, su2staple_counterwise. unbuf. ring.
Qed.

Lemma lower_staple_trace (U u1 u2 u3 : su2mat) :
  2 * (su2rot U (su2staple_clockwise u1 u2 u3)).[0] = su2trace4 u2 u1 U u3.
Proof.
  destruct U, u1, u2, u3. unfold su2trace4, su2rot, su2staple_clockwise. unbuf. ring.
Qed.

Lemma su2rot_add_first (U a b : su2mat) :
  (su2rot U (su2_add a b)).[0] = (su2rot U a).[0] + (su2rot U b).[0].
Proof. destruct U, a, b. unfold su2rot, su2_add. unbuf. ring. Qed.

Lemma staple_link_plaquettes (l : lattice) (f : fields) (i dir : nat) :
  (forall d, (d < dim l)%nat -> d <> dir ->
     next l (prev l i d) d = i /\
     next l (prev l i d) dir = prev l (next l i dir) d) ->
  2 * (su2rot (su2link f i dir) (su2staple_wilson l f i dir)).[0]
  = sum_over (seq 0 (dim l)) (fun d =>
      if (d =? dir)%nat then 0
      else su2ptrace l f i dir d + su2ptrace l f (prev l i d) dir d).
Proof.
  intros H. unfold su2staple_wilson. cbv zeta.
  match goal with
  | |- context [for_loop _ ?body ?init] =>
      assert (L : forall n, (n <= dim l)%nat ->
        2 * (su2rot (su2link f i dir) (for_loop n body init)).[0]
        = sum_over (seq 0 n) (fun d =>
            if (d =? dir)%nat then 0
            else su2ptrace l f i dir d + su2ptrace l f (prev l i d) dir d))
  end.
  { induction n as [|n IH]; intros Hn.
    - unfold for_loop, su2rot. simpl. unbuf. ring.
    - rewrite for_loop_S, seq_S, sum_over_app, <- IH by lia.
      cbn [sum_over fold_right Nat.add].
      destruct (Nat.eqb_spec n dir) as [E|E]; simpl negb; cbv iota.
      + ring.
      + destruct (H n) as [H1 H2]; [lia|exact E|].
        rewrite !su2rot_add_first.
        unfold su2ptrace. rewrite H1, H2.
        rewrite <- upper_staple_trace, <- lower_staple_trace. ring. }
  match goal with
  | |- 2 * (su2rot _ (SU2 (?t.[0]) _ _ _)).[0] = _ =>
      replace (SU2 (t.[0]) (t.[1]) (t.[2]) (t.[3])) with t
        by (destruct t; reflexivity)
  end.
  apply L. lia.
Qed.

(** X7.  The Wilson staple closes the plaquettes through the link: twice
    the first component of link times [su2staple_wilson] is the sum of
    the plaquette traces through the link at site [i], direction [dir],
    two for each other direction [d], one starting at [i] and one at the
    backward neighbour [prev i d].  The neighbour tables are assumed to
    undo each other at [i] and shifts in the two directions to commute. *)
Theorem su2staple_wilson_closes_plaquettes (l : lattice) (f : fields) (i dir : nat) :
  (forall d, (d < dim l)%nat -> d <> dir ->
     next l (prev l i d) d = i /\
     next l (prev l i d) dir = prev l (next l i dir) d) ->
  2 * (su2rot (su2link f i dir) (su2staple_wilson l f i dir)).[0]
  = sum_over (seq 0 (dim l)) (fun d =>
      if (d =? dir)%nat then 0
      else su2ptrace l f i dir d + su2ptrace l f (prev l i d) dir d).
Proof. apply staple_link_plaquettes. Qed.

Lemma torus3_shifts (d : nat) :
  (d < dim torus3)%nat -> d <> 0%nat ->
  next torus3 (prev torus3 0 d) d = 0%nat /\
  next torus3 (prev torus3 0 d) 0 = prev torus3 (next torus3 0 0) d.
Proof.
  intros Hd Hne. simpl in Hd.
  destruct d as [|[|d]]; [congruence| |lia]. vm_compute. split; reflexivity.
Qed.

Lemma su2staple_wilson_closes_plaquettes_witness :
  2 * (su2rot (su2link flipped_link 0 0) (su2staple_wilson torus3 flipped_link 0 0)).[0]
  = sum_over (seq 0 (dim torus3)) (fun d =>
      if (d =? 0)%nat then 0
      else su2ptrace torus3 flipped_link 0 0 d
           + su2ptrace torus3 flipped_link (prev torus3 0 d) 0 d).
Proof.
  apply (su2staple_wilson_closes_plaquettes torus3 flipped_link 0 0).
  exact torus3_shifts.
Defined.

Lemma clover_leaf2 (A B C D : su2mat) :
  2 * (su2rot A (su2rot (su2_conj B) (su2rot (su2_conj C) D))).[0]
  = su2trace4 D A B C.
Proof. destruct A, B, C, D. unfold su2trace4, su2rot, su2_conj. unbuf. ring. Qed.

Lemma clover_leaf3 (A B C D : su2mat) :
  2 * (su2rot (su2_conj A) (su2rot (su2_conj B) (su2rot C D))).[0]
  = su2trace4 C D A B.
Proof. destruct A, B, C, D. unfold su2trace4, su2rot, su2_conj. unbuf. ring. Qed.

Lemma clover_leaf4 (A B C D : su2mat) :
  2 * (su2rot (su2_conj A) (su2rot B (su2rot C (su2_conj D)))).[0]
  = su2trace4 B C D A.
Proof. destruct A, B, C, D. unfold su2trace4, su2rot, su2_conj. unbuf. ring. Qed.

Lemma su2_add_first (a b : su2mat) : (su2_add a b).[0] = a.[0] + b.[0].
Proof. reflexivity. Qed.

(** X8.  The four leaves of [clover_su2] are the four plaquettes of the
    plane ([d1],[d2]) that touch site [i]: twice the first component of
    the clover is the sum of [su2ptrace] at [i], at [i - d1], at
    [i - d1 - d2] and at [i - d2], on a lattice whose neighbour tables
    undo each other around [i]. *)
Theorem clover_sums_four_plaquettes (l : lattice) (f : fields) (i d1 d2 : nat) :
  next l (prev l i d1) d1 = i ->
  next l (prev l i d2) d2 = i ->
  next l (prev l i d1) d2 = prev l (next l i d2) d1 ->
  next l (prev l (prev l i d1) d2) d1 = prev l i d2 ->
  next l (prev l (prev l i d1) d2) d2 = prev l i d1 ->
  2 * (clover_su2 l f i d1 d2).[0]
  = su2ptrace l f i d1 d2
    + su2ptrace l f (prev l i d1) d1 d2
    + su2ptrace l f (prev l (prev l i d1) d2) d1 d2
    + su2ptrace l f (prev l i d2) d1 d2.
Proof.
  intros H1 H2 H3 H4 H5. unfold clover_su2. cbv zeta.
  rewrite !su2_add_first.
  assert (E : su2ptrace l f i d1 d2 = 2 * (su2plaquette l f i d1 d2).[0])
    by (unfold su2ptrace, su2plaquette; cbv zeta; apply su2trace4_product).
  rewrite E. unfold su2ptrace. rewrite H1, H2, H3, H4, H5.
  rewrite <- clover_leaf2, <- clover_leaf3, <- clover_leaf4. ring.
Qed.

Lemma clover_sums_four_plaquettes_witness :
  2 * (clover_su2 torus3 flipped_link 0 0 1).[0]
  = su2ptrace torus3 flipped_link 0 0 1
    + su2ptrace torus3 flipped_link (prev torus3 0 0) 0 1
    + su2ptrace torus3 flipped_link (prev torus3 (prev torus3 0 0) 1) 0 1
    + su2ptrace torus3 flipped_link (prev torus3 0 1) 0 1.
Proof.
  apply (clover_sums_four_plaquettes torus3 flipped_link 0 0 1); reflexivity.
Defined.

(** ** Bounds for unit-norm links *)

Lemma su2trace4_bound (u1 u2 u3 u4 : su2mat) :
  su2sqr u1 = 1 -> su2sqr u2 = 1 -> su2sqr u3 = 1 -> su2sqr u4 = 1 ->
  -2 <= su2trace4 u1 u2 u3 u4 <= 2.
Proof.
  intros H1 H2 H3 H4. rewrite su2trace4_product.
  match goal with |- _ <= 2 * ?X.[0] <= _ =>
    assert (E : su2sqr X = 1) end.
  { rewrite !su2sqr_su2rot, !su2sqr_conj, H1, H2, H3, H4. ring. }
  apply first_component_bound in E. lra.
Qed.

Lemma sum_over_bounds {A : Type} (xs : list A) (g : A -> R) (lo hi : R) :
  (forall x, In x xs -> lo <= g x <= hi) ->
  INR (length xs) * lo <= sum_over xs g <= INR (length xs) * hi.
Proof.
  induction xs as [|x xs IH]; intros H.
  - simpl. lra.
  - change (length (x :: xs)) with (S (length xs)). rewrite S_INR.
    cbn [sum_over fold_right].
    destruct (H x) as [Hl Hh]; [now left|].
    destruct IH as [IHl IHh]; [intros y Hy; apply H; now right|].
    fold (sum_over xs g). lra.
Qed.

Lemma sum_over_nonneg {A : Type} (xs : list A) (g : A -> R) :
  (forall x, In x xs -> 0 <= g x) -> 0 <= sum_over xs g.
Proof.
  induction xs as [|x xs IH]; intros H; simpl.
  - lra.
  - pose proof (H x (or_introl eq_refl)).
    assert (0 <= sum_over xs g) by (apply IH; intros y Hy; apply H; now right).
    unfold sum_over in *. lra.
Qed.

Lemma sum_over_const {A : Type} (xs : list A) (c : R) :
  sum_over xs (fun _ => c) = INR (length xs) * c.
Proof.
  induction xs as [|x xs IH].
  - simpl. ring.
  - change (length (x :: xs)) with (S (length xs)). rewrite S_INR.
    cbn [sum_over fold_right]. fold (sum_over xs (fun _ : A => c)).
    rewrite IH. ring.
Qed.

Lemma su2ptrace_bound (l : lattice) (f : fields) (x a b : nat) :
  unit_links f -> -2 <= su2ptrace l f x a b <= 2.
Proof.
  intros Hu. unfold su2ptrace. cbv zeta. apply su2trace4_bound; apply Hu.
Qed.

(** X9.  With unit-norm links every plaquette trace lies in [-2, 2], and
    for non-negative [betasu2] the local Wilson action is bounded:
    0 <= local_su2wilson <= betasu2 * dim * (dim - 1). *)
Theorem wilson_action_bounds (l : lattice) (f : fields) (p : params)
    (i dir1 dir2 : nat) :
  unit_links f -> 0 <= betasu2 p ->
  -2 <= su2ptrace l f i dir1 dir2 <= 2 /\
  0 <= local_su2wilson l f p i <= betasu2 p * (INR (dim l) * (INR (dim l) - 1)).
Proof.
  intros Hu Hb.
  split; [apply su2ptrace_bound; exact Hu|].
  rewrite local_su2wilson_sum.
  split.
  - apply Rmult_le_pos; [exact Hb|].
    apply sum_over_nonneg. intros d1 _. apply sum_over_nonneg. intros d2 _.
    destruct (su2ptrace_bound l f i d2 d1 Hu). lra.
  - apply Rmult_le_compat_l; [exact Hb|].
    generalize (dim l). induction n as [|n IH].
    + simpl. lra.
    + rewrite seq_S, sum_over_app, S_INR. cbn [sum_over fold_right Nat.add].
      pose proof (sum_over_bounds (seq 0 n)
        (fun d2 => 1 - 0.5 * su2ptrace l f i d2 n) 0 2) as B.
      rewrite length_seq in B.
      destruct B as [_ B].
      { intros d2 _. destruct (su2ptrace_bound l f i d2 n Hu). lra. }
      pose proof (pos_INR n). nra.
Qed.

Lemma unit_links_flipped_link : unit_links flipped_link.
Proof.
  intros x d. unfold flipped_link, set_su2link, vacuum. cbn [su2link].
  destruct ((x =? 0) && (d =? 0))%nat; unfold su2sqr; unbuf; ring.
Qed.

Lemma wilson_action_bounds_witness :
  -2 <= su2ptrace torus3 flipped_link 0 0 1 <= 2 /\
  0 <= local_su2wilson torus3 flipped_link beta4 0
    <= betasu2 beta4 * (INR (dim torus3) * (INR (dim torus3) - 1)).
Proof.
  apply (wilson_action_bounds torus3 flipped_link beta4 0 0 1).
  - exact unit_links_flipped_link.
  - simpl. lra.
Defined.

(** X10.  [su2staple_wilson] is the sum over the other directions of the
    one-direction staples [su2staple_wilson_onedir] taken without
    conjugation, component by component. *)
Theorem staple_sums_directions (l : lattice) (f : fields) (i dir k : nat) :
  (su2staple_wilson l f i dir).[k]
  = sum_over (seq 0 (dim l)) (fun j =>
      if (j =? dir)%nat then 0
      else (su2staple_wilson_onedir l f i dir j 0).[k]).
Proof.
  unfold su2staple_wilson. cbv zeta.
  match goal with
  | |- context [for_loop _ ?body ?init] =>
      assert (L : forall n,
        (for_loop n body init).[k]
        = sum_over (seq 0 n) (fun j =>
            if (j =? dir)%nat then 0
            else (su2staple_wilson_onedir l f i dir j 0).[k]))
  end.
  { induction n as [|n IH].
    - unfold for_loop. simpl. destruct k as [|[|[|k]]]; reflexivity.
    - rewrite for_loop_S, seq_S, sum_over_app, <- IH.
      cbn [sum_over fold_right Nat.add].
      unfold su2staple_wilson_onedir.
      rewrite (Nat.eqb_sym dir n).
      destruct (Nat.eqb_spec n dir) as [E|E]; simpl negb; cbv iota zeta.
      + ring.
      + simpl. destruct k as [|[|[|k]]]; unfold su2_add; unbuf; ring. }
  rewrite <- L.
  match goal with
  | |- (SU2 (?t.[0]) _ _ _).[k] = _ => destruct t; destruct k as [|[|[|k]]]; reflexivity
  end.
Qed.

(** X11.  A non-zero [dagger] argument makes [su2staple_wilson_onedir]
    return the conjugate of what it returns with [dagger = 0]; every
    non-zero value acts alike. *)
Theorem staple_onedir_dagger (l : lattice) (f : fields) (i mu nu : nat) (dagger : Z) :
  dagger <> 0%Z ->
  su2staple_wilson_onedir l f i mu nu dagger
  = su2_conj (su2staple_wilson_onedir l f i mu nu 0).
Proof.
  intros H. unfold su2staple_wilson_onedir.
  destruct (Z.eqb_spec dagger 0) as [E|E]; [contradiction|].
  destruct (mu =? nu)%nat; simpl negb; cbv iota zeta.
  - su2_ext; unfold su2_conj; unbuf; ring.
  - su2_ext; unfold su2_conj, su2_add; unbuf; ring.
Qed.

Lemma staple_onedir_dagger_witness :
  su2staple_wilson_onedir torus3 flipped_link 0 0 1 1
  = su2_conj (su2staple_wilson_onedir torus3 flipped_link 0 0 1 0).
Proof.
  apply (staple_onedir_dagger torus3 flipped_link 0 0 1 1). discriminate.
Defined.

(** ** The full staple [su2link_staple] *)

Lemma su2rot_scale_first (U W : su2mat) (c : R) :
  (su2rot U (SU2 (W.[0] * c) (W.[1] * c) (W.[2] * c) (W.[3] * c))).[0]
  = c * (su2rot U W).[0].
Proof. destruct U, W. unfold su2rot. unbuf. ring. Qed.

(** X12.  Without scalar fields the link action is recovered from the
    full staple: [localact_su2link] equals 2 betasu2 (dim - 1) plus twice
    the first component of link times [su2link_staple], i.e. the constant
    plus Tr(U V). *)
Theorem link_action_from_staple (cfg : config) (l : lattice) (f : fields)
    (p : params) (i dir : nat) :
  NHIGGS cfg = 0%nat -> TRIPLET cfg = false -> (dir < dim l)%nat ->
  (forall d, (d < dim l)%nat -> d <> dir ->
     next l (prev l i d) d = i /\
     next l (prev l i d) dir = prev l (next l i dir) d) ->
  localact_su2link cfg l f p i dir
  = 2 * betasu2 p * (INR (dim l) - 1)
    + 2 * (su2rot (su2link f i dir) (su2link_staple cfg l f p i dir)).[0].
Proof.
  intros Hn Ht Hdir Hlat.
  rewrite localact_su2link_sum.
  unfold link_hopping, su2link_staple, HIGGS, HIGGS2. rewrite Hn, Ht.
  cbn [Nat.ltb Nat.leb Nat.eqb]. cbv zeta.
  rewrite su2rot_scale_first.
  pose proof (staple_link_plaquettes l f i dir Hlat) as E.
  replace (2 * (-0.5 * betasu2 p *
                (su2rot (su2link f i dir) (su2staple_wilson l f i dir)).[0]))
    with (-0.5 * betasu2 p *
          (2 * (su2rot (su2link f i dir) (su2staple_wilson l f i dir)).[0]))
    by ring.
  rewrite E.
  rewrite (sum_over_ext (seq 0 (dim l)) _
    (fun d => (2 - (if (d =? dir)%nat then 2 else 0))
      + -0.5 * (if (d =? dir)%nat then 0
                else su2ptrace l f i dir d + su2ptrace l f (prev l i d) dir d))).
  2:{ intros d _. destruct (d =? dir)%nat; lra. }
  rewrite sum_over_plus, sum_over_minus, sum_over_scal, sum_over_const.
  rewrite (sum_over_seq_single (dim l) dir) by
    first [ exact Hdir
          | intros j _ Hj; destruct (Nat.eqb_spec j dir); [contradiction|reflexivity] ].
  rewrite Nat.eqb_refl, length_seq. lra.
Qed.

Lemma link_action_from_staple_witness :
  localact_su2link pure_gauge torus3 flipped_link beta4 0 0
  = 2 * betasu2 beta4 * (INR (dim torus3) - 1)
    + 2 * (su2rot (su2link flipped_link 0 0)
             (su2link_staple pure_gauge torus3 flipped_link beta4 0 0)).[0].
Proof.
  apply (link_action_from_staple pure_gauge torus3 flipped_link beta4 0 0).
  - reflexivity.
  - reflexivity.
  - simpl. lia.
  - exact torus3_shifts.
Defined.

(** X13.  With one doublet and no U(1) field, [su2link_staple] is
    -betasu2/2 times the Wilson staple with [doubletsq] of the doublet at
    site [i] subtracted from the first component only: the doublet term
    is built from the field at site [i] alone; the doublet at the forward
    neighbour does not enter. *)
Theorem su2link_staple_doublet_term (cfg : config) (l : lattice) (f : fields)
    (p : params) (i dir : nat) :
  NHIGGS cfg = 1%nat -> U1 cfg = false ->
  let W := su2staple_wilson l f i dir in
  su2link_staple cfg l f p i dir
  = SU2 (-0.5 * betasu2 p * W.[0] - doubletsq (su2doublet f i))
        (-0.5 * betasu2 p * W.[1])
        (-0.5 * betasu2 p * W.[2])
        (-0.5 * betasu2 p * W.[3]).
Proof.
  intros Hn Hu W. unfold su2link_staple, HIGGS, HIGGS2. rewrite Hn, Hu.
  fold W. cbv zeta.
  cbn [Nat.ltb Nat.leb Nat.eqb andb for_loop seq fold_left fst].
  destruct (su2doublet f i) as [a0 a1 a2 a3]. destruct W as [w0 w1 w2 w3].
  su2_ext; unfold su2rot, doubletsq; unbuf; lra.
Qed.

Lemma su2link_staple_doublet_term_witness :
  let cfg := Config 1 false false false in
  let f := set_doublet vacuum 0 0 (SU2 1 2 3 4) in
  let W := su2staple_wilson torus3 f 0 0 in
  su2link_staple cfg torus3 f beta4 0 0
  = SU2 (-0.5 * betasu2 beta4 * W.[0] - doubletsq (su2doublet f 0))
        (-0.5 * betasu2 beta4 * W.[1])
        (-0.5 * betasu2 beta4 * W.[2])
        (-0.5 * betasu2 beta4 * W.[3]).
Proof.
  apply (su2link_staple_doublet_term (Config 1 false false false) torus3
           (set_doublet vacuum 0 0 (SU2 1 2 3 4)) beta4 0 0); reflexivity.
Defined.
(** ** Plaquette sums that change in one link *)

Section PlaquetteChange.

Variables (l : lattice) (i dir : nat) (dP : nat -> nat -> nat -> R).

Hypothesis dP_sym : forall x a b, dP x a b = dP x b a.
Hypothesis dP_plane : forall x a b, a <> dir -> b <> dir -> dP x a b = 0.
Hypothesis dP_site : forall x b,
  (x < sites l)%nat -> (b < dim l)%nat -> b <> dir ->
  x <> i -> x <> prev l i b -> dP x dir b = 0.
Hypothesis Hper : periodic l.
Hypothesis Hi : (i < sites l)%nat.
Hypothesis Hdir : (dir < dim l)%nat.
Hypothesis Hapart : forall d, (d < dim l)%nat -> d <> dir -> prev l i d <> i.

Lemma plaquette_change_sum_sites (c : R) (d : nat) :
  (d < dim l)%nat -> d <> dir ->
  sum_over (seq 0 (sites l)) (fun x => c * dP x dir d)
  = c * (dP i dir d + dP (prev l i d) dir d).
Proof.
  intros Hd Hne. rewrite sum_over_scal. f_equal.
  apply (sum_over_seq_pair (sites l) i (prev l i d) (fun x => dP x dir d)).
  - exact Hi.
  - apply (prev_in_range l Hper); assumption.
  - intros E. apply (Hapart d Hd Hne). now symmetry.
  - intros x Hx H1 H2. apply dP_site; assumption.
Qed.

Lemma plaquette_change_sum (c : R) :
  sum_over (seq 0 (sites l)) (fun x =>
    sum_over (seq 0 (dim l)) (fun d1 =>
      sum_over (seq 0 d1) (fun d2 => c * dP x d2 d1)))
  = sum_over (seq 0 (dim l)) (fun d =>
      if (d =? dir)%nat then 0
      else c * (dP i dir d + dP (prev l i d) dir d)).
Proof.
  rewrite (sum_over_swap (seq 0 (sites l)) (seq 0 (dim l))
             (fun x d1 => sum_over (seq 0 d1) (fun d2 => c * dP x d2 d1))).
  rewrite (sum_over_ext _ _
    (fun d1 => sum_over (seq 0 d1) (fun d2 =>
       sum_over (seq 0 (sites l)) (fun x => c * dP x d2 d1)))).
  2:{ intros d1 _.
      apply (sum_over_swap (seq 0 (sites l)) (seq 0 d1)
               (fun x d2 => c * dP x d2 d1)). }
  rewrite (sum_lower_triangle (dim l) dir
    (fun a b => sum_over (seq 0 (sites l)) (fun x => c * dP x a b))).
  - apply sum_over_ext. intros d Hin. apply in_seq in Hin.
    destruct (Nat.eqb_spec d dir) as [E|E]; [reflexivity|].
    destruct (d <? dir)%nat.
    + rewrite <- plaquette_change_sum_sites by (try assumption; lia).
      apply sum_over_ext. intros x _. now rewrite dP_sym.
    + apply plaquette_change_sum_sites; [lia|assumption].
  - exact Hdir.
  - intros a b _ _ Ha Hb. apply sum_over_zero. intros x _.
    rewrite dP_plane by assumption. ring.
Qed.

End PlaquetteChange.

Lemma u1ptrace_swap (l : lattice) (f : fields) (i dir1 dir2 : nat) :
  u1ptrace l f i dir1 dir2 = u1ptrace l f i dir2 dir1.
Proof.
  unfold u1ptrace. cbv zeta. rewrite <- cos_neg. f_equal. ring.
Qed.

Lemma local_u1wilson_sum (l : lattice) (f : fields) (p : params) (x : nat) :
  local_u1wilson l f p x
  = betau1 p * sum_over (seq 0 (dim l)) (fun d1 =>
      sum_over (seq 0 d1) (fun d2 => 1 - u1ptrace l f x d2 d1)).
Proof.
  unfold local_u1wilson. cbv zeta. f_equal.
  rewrite (for_loop_accumulate _ _
    (fun d1 => sum_over (seq 0 d1) (fun d2 => 1 - u1ptrace l f x d2 d1))).
  - ring.
  - intros d1 s _. apply for_loop_accumulate. reflexivity.
Qed.

Lemma localact_u1link_sum (cfg : config) (l : lattice) (f : fields) (p : params)
    (i dir : nat) :
  localact_u1link cfg l f p i dir
  = betau1 p * sum_over (seq 0 (dim l)) (fun d =>
      if (d =? dir)%nat then 0
      else (1 - u1ptrace l f i dir d) + (1 - u1ptrace l f (prev l i d) dir d))
    + u1link_hopping cfg l f p i dir.
Proof.
  unfold localact_u1link, u1link_hopping. cbv zeta.
  rewrite (for_loop_accumulate _ _ (fun d =>
      if (d =? dir)%nat then 0
      else (1 - u1ptrace l f i dir d) + (1 - u1ptrace l f (prev l i d) dir d))).
  - destruct (HIGGS cfg), (HIGGS2 cfg); ring.
  - intros d s _. destruct (d =? dir)%nat; simpl; ring.
Qed.

Section OneAngleChanged.

Variables (cfg : config) (l : lattice) (p : params) (f : fields).
Variables (i dir : nat) (a : R).

Local Abbreviation f' := (set_u1link f i dir a).
Local Abbreviation dU := (fun x d1 d2 => u1ptrace l f' x d1 d2 - u1ptrace l f x d1 d2).

Lemma u1link_unchanged (x d : nat) :
  x <> i \/ d <> dir -> u1link f' x d = u1link f x d.
Proof.
  intros H. simpl.
  destruct (Nat.eqb_spec x i); destruct (Nat.eqb_spec d dir); simpl;
    try reflexivity. lia.
Qed.

Lemma u1link_hopping_unchanged (x d : nat) :
  x <> i \/ d <> dir -> u1link_hopping cfg l f' p x d = u1link_hopping cfg l f p x d.
Proof.
  intros H. unfold u1link_hopping, hopping_doublet_forward. cbv zeta.
  rewrite (u1link_unchanged x d H). reflexivity.
Qed.

Lemma dU_plane (x d1 d2 : nat) : d1 <> dir -> d2 <> dir -> dU x d1 d2 = 0.
Proof.
  intros H1 H2. unfold u1ptrace. cbv zeta beta.
  rewrite !u1link_unchanged by (right; assumption). ring.
Qed.

Hypothesis Hper : periodic l.
Hypothesis Hi : (i < sites l)%nat.
Hypothesis Hdir : (dir < dim l)%nat.
Hypothesis Hapart : forall d, (d < dim l)%nat -> d <> dir -> prev l i d <> i.

Lemma dU_site (x b : nat) :
  (x < sites l)%nat -> (b < dim l)%nat -> b <> dir ->
  x <> i -> x <> prev l i b -> dU x dir b = 0.
Proof.
  intros Hx Hb Hbd Hxi Hxp. unfold u1ptrace. cbv zeta beta.
  rewrite (u1link_unchanged x dir) by (left; assumption).
  rewrite (u1link_unchanged (next l x dir) b) by (right; assumption).
  rewrite (u1link_unchanged x b) by (right; assumption).
  rewrite (u1link_unchanged (next l x b) dir).
  - ring.
  - left. intros E. apply Hxp. rewrite <- E.
    symmetry. apply (prev_next l Hper); assumption.
Qed.

Lemma local_u1wilson_change (x : nat) :
  local_u1wilson l f' p x - local_u1wilson l f p x
  = betau1 p * sum_over (seq 0 (dim l)) (fun d1 =>
      sum_over (seq 0 d1) (fun d2 => -1 * dU x d2 d1)).
Proof.
  rewrite !local_u1wilson_sum, <- Rmult_minus_distr_l. f_equal.
  rewrite <- sum_over_minus. apply sum_over_ext. intros d1 _.
  rewrite <- sum_over_minus. apply sum_over_ext. intros d2 _.
  ring.
Qed.

Hypothesis Hu1 : U1 cfg = true.
Hypothesis Hnh : (NHIGGS cfg <= 2)%nat.

Lemma action_local_change_u1 (x : nat) :
  action_local cfg l f' p x - action_local cfg l f p x
  = (local_u1wilson l f' p x - local_u1wilson l f p x)
    + sum_over (seq 0 (dim l)) (fun d =>
        u1link_hopping cfg l f' p x d - u1link_hopping cfg l f p x d).
Proof.
  unfold action_local, u1link_hopping, HIGGS, HIGGS2. cbv zeta.
  rewrite Hu1.
  change (local_su2wilson l f' p x) with (local_su2wilson l f p x).
  change (higgspotential cfg f' p x) with (higgspotential cfg f p x).
  change (covariant_triplet l f' p x) with (covariant_triplet l f p x).
  change (singlet f') with (singlet f).
  assert (Hs : forall S init,
    for_loop (dim l) (fun d tot => tot - S * singlet f (next l x d)) init
    = init + sum_over (seq 0 (dim l)) (fun d => - (S * singlet f (next l x d)))).
  { intros S init. apply for_loop_accumulate. intros; ring. }
  rewrite !Hs.
  destruct (NHIGGS cfg) as [|[|[|n]]]; [| | |lia];
    rewrite ?for_loop_S, ?for_loop_0;
    cbv [Nat.ltb Nat.leb Nat.eqb doublet_species];
    rewrite ?covariant_doublet_sum;
    change (su2doublet f') with (su2doublet f);
    change (doublet2 f') with (doublet2 f);
    destruct (TRIPLET cfg), (SINGLET cfg);
    split_sums; ring.
Qed.

Lemma total_action_change_u1 :
  total_action cfg l f' p - total_action cfg l f p
  = localact_u1link cfg l f' p i dir - localact_u1link cfg l f p i dir.
Proof.
  rewrite !total_action_sum, <- sum_over_minus.
  rewrite (sum_over_ext _ _ _ (fun x _ => action_local_change_u1 x)).
  rewrite sum_over_plus.
  rewrite (sum_over_ext _ _ _ (fun x _ => local_u1wilson_change x)).
  rewrite sum_over_scal.
  rewrite (plaquette_change_sum l i dir dU).
  - rewrite (hopping_change l i dir Hi Hdir
               (u1link_hopping cfg l f p) (u1link_hopping cfg l f' p)).
    + rewrite !localact_u1link_sum.
      match goal with
      | |- _ = betau1 p * ?A' + ?h' - (betau1 p * ?A + ?h) =>
          replace (betau1 p * A' + h' - (betau1 p * A + h))
            with (betau1 p * (A' - A) + (h' - h)) by ring
      end.
      f_equal. f_equal. rewrite <- sum_over_minus.
      apply sum_over_ext. intros d _.
      destruct (d =? dir)%nat; ring.
    + intros x d H. now apply u1link_hopping_unchanged.
  - intros x d1 d2. cbv beta.
    now rewrite (u1ptrace_swap l f' x d1 d2), (u1ptrace_swap l f x d1 d2).
  - exact dU_plane.
  - exact dU_site.
  - exact Hper.
  - exact Hi.
  - exact Hdir.
  - exact Hapart.
Qed.

End OneAngleChanged.


(** ** Hopping sums that change in the field of one site *)

Section SiteChange.

Variables (l : lattice) (i : nat) (c c' : nat -> nat -> R).

Hypothesis c_far : forall x d,
  (x < sites l)%nat -> (d < dim l)%nat -> x <> i -> next l x d <> i ->
  c' x d = c x d.
Hypothesis Hper : periodic l.
Hypothesis Hi : (i < sites l)%nat.
Hypothesis Hapart : forall d, (d < dim l)%nat -> prev l i d <> i.

Lemma site_change_sum :
  sum_over (seq 0 (sites l)) (fun x =>
    sum_over (seq 0 (dim l)) (fun d => c' x d - c x d))
  = sum_over (seq 0 (dim l)) (fun d =>
      (c' i d - c i d) + (c' (prev l i d) d - c (prev l i d) d)).
Proof.
  rewrite (sum_over_swap (seq 0 (sites l)) (seq 0 (dim l))
             (fun x d => c' x d - c x d)).
  apply sum_over_ext. intros d Hin. apply in_seq in Hin.
  apply (sum_over_seq_pair (sites l) i (prev l i d) (fun x => c' x d - c x d)).
  - exact Hi.
  - apply (prev_in_range l Hper); [exact Hi|lia].
  - intros E. apply (Hapart d); [lia|now symmetry].
  - intros x Hx H1 H2. rewrite c_far; [ring|exact Hx|lia|exact H1|].
    intros E. apply H2. rewrite <- E. symmetry.
    apply (prev_next l Hper); [exact Hx|lia].
Qed.

End SiteChange.

Lemma hopping_doublet_backward_forward (cfg : config) (l : lattice) (f : fields)
    (p : params) (phi : nat -> su2mat) (i dir : nat) :
  next l (prev l i dir) dir = i ->
  hopping_doublet_backward cfg l f p phi i dir
  = hopping_doublet_forward cfg l f p phi (prev l i dir) dir.
Proof.
  intros H. unfold hopping_doublet_backward, hopping_doublet_forward. cbv zeta.
  rewrite H. reflexivity.
Qed.

Lemma hopping_triplet_backward_forward (l : lattice) (f : fields)
    (p : params) (i dir : nat) :
  next l (prev l i dir) dir = i ->
  hopping_triplet_backward l f p i dir
  = hopping_triplet_forward l f p (prev l i dir) dir.
Proof.
  intros H. unfold hopping_triplet_backward, hopping_triplet_forward. cbv zeta.
  rewrite H. reflexivity.
Qed.

Lemma localact_doublet_sum (cfg : config) (l : lattice) (f : fields) (p : params)
    (phi : nat -> su2mat) (i : nat) :
  localact_doublet cfg l f p phi i
  = sum_over (seq 0 (dim l)) (fun d =>
      2 * doubletsq (phi i) + hopping_doublet_forward cfg l f p phi i d)
    + sum_over (seq 0 (dim l)) (hopping_doublet_backward cfg l f p phi i)
    + higgspotential cfg f p i.
Proof.
  unfold localact_doublet. cbv zeta.
  rewrite (for_loop_accumulate _ _ (hopping_doublet_backward cfg l f p phi i))
    by reflexivity.
  rewrite covariant_doublet_sum. ring.
Qed.

Lemma localact_triplet_sum (cfg : config) (l : lattice) (f : fields) (p : params)
    (i : nat) :
  localact_triplet cfg l f p i
  = sum_over (seq 0 (dim l)) (fun d =>
      2 * tripletsq (su2triplet f i) + hopping_triplet_forward l f p i d)
    + sum_over (seq 0 (dim l)) (hopping_triplet_backward l f p i)
    + (msq_triplet p * tripletsq (su2triplet f i)
       + b4 p * tripletsq (su2triplet f i) * tripletsq (su2triplet f i)
       + (if HIGGS cfg
          then a2 p * doubletsq (su2doublet f i) * tripletsq (su2triplet f i)
          else 0)).
Proof.
  unfold localact_triplet. cbv zeta.
  rewrite (for_loop_accumulate _ _ (hopping_triplet_backward l f p i))
    by reflexivity.
  rewrite covariant_triplet_sum. destruct (HIGGS cfg); ring.
Qed.

Section OneTripletChanged.

Variables (cfg : config) (l : lattice) (p : params) (f : fields).
Variables (i : nat) (v : triplet).

Local Abbreviation f' := (set_triplet f i v).
Local Abbreviation ct := (fun (g : fields) x d =>
  2 * tripletsq (su2triplet g x) + hopping_triplet_forward l g p x d).

Lemma su2triplet_unchanged (x : nat) : x <> i -> su2triplet f' x = su2triplet f x.
Proof.
  intros H. simpl. destruct (Nat.eqb_spec x i); [contradiction|reflexivity].
Qed.

Lemma triplet_term_far (x d : nat) :
  x <> i -> next l x d <> i -> ct f' x d = ct f x d.
Proof.
  intros Hx Hn. cbv beta. unfold hopping_triplet_forward. cbv zeta.
  rewrite (su2triplet_unchanged x Hx), (su2triplet_unchanged (next l x d) Hn).
  reflexivity.
Qed.

Lemma higgspotential_triplet_far (x : nat) :
  x <> i -> higgspotential cfg f' p x = higgspotential cfg f p x.
Proof.
  intros Hx. unfold higgspotential. cbv zeta.
  rewrite (su2triplet_unchanged x Hx). reflexivity.
Qed.

Hypothesis Hper : periodic l.
Hypothesis Hi : (i < sites l)%nat.
Hypothesis Hapart : forall d, (d < dim l)%nat -> prev l i d <> i.
Hypothesis Htrip : TRIPLET cfg = true.

Lemma action_local_change_triplet (x : nat) :
  action_local cfg l f' p x - action_local cfg l f p x
  = (higgspotential cfg f' p x - higgspotential cfg f p x)
    + sum_over (seq 0 (dim l)) (fun d => ct f' x d - ct f x d).
Proof.
  unfold action_local. cbv zeta. rewrite Htrip.
  change (local_su2wilson l f' p x) with (local_su2wilson l f p x).
  change (local_u1wilson l f' p x) with (local_u1wilson l f p x).
  change (singlet f') with (singlet f).
  assert (Hs : forall S init,
    for_loop (dim l) (fun d tot => tot - S * singlet f (next l x d)) init
    = init + sum_over (seq 0 (dim l)) (fun d => - (S * singlet f (next l x d)))).
  { intros S init. apply for_loop_accumulate. intros; ring. }
  assert (Hd : forall init,
    for_loop (NHIGGS cfg) (fun db tot =>
      tot + covariant_doublet cfg l f' p (doublet_species f' db) x) init
    = init + sum_over (seq 0 (NHIGGS cfg)) (fun db =>
        covariant_doublet cfg l f p (doublet_species f db) x)).
  { intros init. apply for_loop_accumulate. reflexivity. }
  assert (Hd0 : forall init,
    for_loop (NHIGGS cfg) (fun db tot =>
      tot + covariant_doublet cfg l f p (doublet_species f db) x) init
    = init + sum_over (seq 0 (NHIGGS cfg)) (fun db =>
        covariant_doublet cfg l f p (doublet_species f db) x)).
  { intros init. apply for_loop_accumulate. reflexivity. }
  rewrite ?Hs, ?Hd, ?Hd0, !covariant_triplet_sum.
  destruct (U1 cfg), (SINGLET cfg); split_sums; ring.
Qed.

Lemma total_action_change_triplet :
  total_action cfg l f' p - total_action cfg l f p
  = localact_triplet cfg l f' p i - localact_triplet cfg l f p i.
Proof.
  rewrite !total_action_sum, <- sum_over_minus.
  rewrite (sum_over_ext _ _ _ (fun x _ => action_local_change_triplet x)).
  rewrite sum_over_plus.
  rewrite (sum_over_seq_single (sites l) i
    (fun x => higgspotential cfg f' p x - higgspotential cfg f p x)); [|exact Hi|].
  2:{ intros x _ Hx. rewrite higgspotential_triplet_far by exact Hx. ring. }
  rewrite (site_change_sum l i (ct f) (ct f')); try assumption.
  2:{ intros x d _ _ Hx Hn. now apply triplet_term_far. }
  rewrite !localact_triplet_sum.
  rewrite sum_over_plus.
  rewrite (sum_over_ext (seq 0 (dim l))
    (fun d => ct f' (prev l i d) d - ct f (prev l i d) d)
    (fun d => hopping_triplet_backward l f' p i d
              - hopping_triplet_backward l f p i d)).
  2:{ intros d Hin. apply in_seq in Hin.
      assert (Hn : next l (prev l i d) d = i)
        by (apply (next_prev l Hper); [exact Hi|lia]).
      rewrite !hopping_triplet_backward_forward by exact Hn.
      cbv beta.
      rewrite (su2triplet_unchanged (prev l i d)) by (apply Hapart; lia).
      ring. }
  unfold higgspotential, HIGGS. cbv zeta. rewrite Htrip.
  change (su2doublet f') with (su2doublet f).
  change (doublet2 f') with (doublet2 f).
  replace 0.5 with (/ 2) by lra.
  destruct (0 <? NHIGGS cfg)%nat, (HIGGS2 cfg); split_sums; ring.
Qed.

End OneTripletChanged.

Section OneDoubletChanged.

Variables (cfg : config) (l : lattice) (p : params) (f : fields).
Variables (db i : nat) (v : su2mat).

Local Abbreviation f' := (set_doublet f db i v).
Local Abbreviation cd := (fun (g : fields) x d =>
  2 * doubletsq (doublet_species g db x)
  + hopping_doublet_forward cfg l g p (doublet_species g db) x d).

Lemma doublet_unchanged (x : nat) :
  x <> i -> doublet_species f' db x = doublet_species f db x.
Proof.
  intros H. destruct db as [|n]; simpl;
    destruct (Nat.eqb_spec x i); try contradiction; reflexivity.
Qed.

Lemma doublet_term_far (x d : nat) :
  x <> i -> next l x d <> i -> cd f' x d = cd f x d.
Proof.
  intros Hx Hn. cbv beta. unfold hopping_doublet_forward. cbv zeta.
  rewrite (doublet_unchanged x Hx), (doublet_unchanged (next l x d) Hn).
  destruct db; reflexivity.
Qed.

Lemma higgspotential_doublet_far (x : nat) :
  x <> i -> higgspotential cfg f' p x = higgspotential cfg f p x.
Proof.
  intros Hx. unfold higgspotential. cbv zeta.
  destruct db as [|n]; simpl;
    destruct (Nat.eqb_spec x i); try contradiction; reflexivity.
Qed.

Hypothesis Hper : periodic l.
Hypothesis Hi : (i < sites l)%nat.
Hypothesis Hapart : forall d, (d < dim l)%nat -> prev l i d <> i.
Hypothesis Hdb : (db < NHIGGS cfg)%nat.
Hypothesis Hnh : (NHIGGS cfg <= 2)%nat.

Lemma doublet_change_keeps_gauge (x : nat) :
  local_su2wilson l f' p x = local_su2wilson l f p x /\
  local_u1wilson l f' p x = local_u1wilson l f p x /\
  covariant_triplet l f' p x = covariant_triplet l f p x /\
  singlet f' = singlet f.
Proof. destruct db; repeat split; reflexivity. Qed.

Lemma hopping_reads_links (k : nat) (phi : nat -> su2mat) :
  hopping_doublet_forward cfg l (set_doublet f k i v) p phi
  = hopping_doublet_forward cfg l f p phi.
Proof. destruct k; reflexivity. Qed.

Lemma action_local_change_doublet (x : nat) :
  action_local cfg l f' p x - action_local cfg l f p x
  = (higgspotential cfg f' p x - higgspotential cfg f p x)
    + sum_over (seq 0 (dim l)) (fun d => cd f' x d - cd f x d).
Proof.
  unfold action_local. cbv zeta.
  destruct (doublet_change_keeps_gauge x) as (E1 & E2 & E3 & E4).
  rewrite E1, E2, E3, E4. clear E1 E2 E3 E4.
  assert (Hs : forall S init,
    for_loop (dim l) (fun d tot => tot - S * singlet f (next l x d)) init
    = init + sum_over (seq 0 (dim l)) (fun d => - (S * singlet f (next l x d)))).
  { intros S init. apply for_loop_accumulate. intros; ring. }
  rewrite !Hs. clear Hs.
  generalize (higgspotential cfg f' p x). intros pot'.
  destruct (NHIGGS cfg) as [|[|[|n]]]; [lia| | |lia];
    (destruct db as [|[|m]]; [| |lia]); try lia;
    rewrite ?for_loop_S, ?for_loop_0;
    rewrite ?covariant_doublet_sum;
    rewrite ?hopping_reads_links;
    cbn [set_doublet doublet2 su2doublet doublet_species];
    destruct (TRIPLET cfg), (U1 cfg), (SINGLET cfg);
    split_sums; ring.
Qed.

Lemma total_action_change_doublet :
  total_action cfg l f' p - total_action cfg l f p
  = localact_doublet cfg l f' p (doublet_species f' db) i
    - localact_doublet cfg l f p (doublet_species f db) i.
Proof.
  rewrite !total_action_sum, <- sum_over_minus.
  rewrite (sum_over_ext _ _ _ (fun x _ => action_local_change_doublet x)).
  rewrite sum_over_plus.
  rewrite (sum_over_seq_single (sites l) i
    (fun x => higgspotential cfg f' p x - higgspotential cfg f p x)); [|exact Hi|].
  2:{ intros x _ Hx. rewrite higgspotential_doublet_far by exact Hx. ring. }
  rewrite (site_change_sum l i (cd f) (cd f')); try assumption.
  2:{ intros x d _ _ Hx Hn. now apply doublet_term_far. }
  rewrite !localact_doublet_sum.
  rewrite sum_over_plus.
  rewrite (sum_over_ext (seq 0 (dim l))
    (fun d => cd f' (prev l i d) d - cd f (prev l i d) d)
    (fun d => hopping_doublet_backward cfg l f' p (doublet_species f' db) i d
              - hopping_doublet_backward cfg l f p (doublet_species f db) i d)).
  2:{ intros d Hin. apply in_seq in Hin.
      assert (Hn : next l (prev l i d) d = i)
        by (apply (next_prev l Hper); [exact Hi|lia]).
      rewrite !hopping_doublet_backward_forward by exact Hn.
      cbv beta.
      rewrite (doublet_unchanged (prev l i d)) by (apply Hapart; lia).
      ring. }
  split_sums. ring.
Qed.

End OneDoubletChanged.



Lemma torus3_apart_other (d : nat) :
  (d < dim torus3)%nat -> d <> 0%nat -> prev torus3 0 d <> 0%nat.
Proof.
  intros Hd Hne. simpl in Hd.
  destruct d as [|[|d]]; [congruence| |lia]. vm_compute. lia.
Qed.

Lemma torus3_apart (d : nat) :
  (d < dim torus3)%nat -> prev torus3 0 d <> 0%nat.
Proof.
  intros Hd. simpl in Hd.
  destruct d as [|[|d]]; [| |lia]; vm_compute; lia.
Qed.


(** X15.  On the periodic lattice of one node, replacing the doublet of
    one species at one site changes the total action by exactly what
    [localact_doublet] of that species at that site changes by. *)
Theorem localact_doublet_total_action
    (cfg : config) (l : lattice) (p : params) (f : fields) (db i : nat)
    (v : su2mat) :
  periodic l -> (i < sites l)%nat ->
  (forall d, (d < dim l)%nat -> prev l i d <> i) ->
  (db < NHIGGS cfg)%nat -> (NHIGGS cfg <= 2)%nat ->
  total_action cfg l (set_doublet f db i v) p - total_action cfg l f p
  = localact_doublet cfg l (set_doublet f db i v) p
      (doublet_species (set_doublet f db i v) db) i
    - localact_doublet cfg l f p (doublet_species f db) i.
Proof. intros. now apply total_action_change_doublet. Qed.

Lemma localact_doublet_total_action_witness :
  let cfg := Config 2 false true false in
  let f' := set_doublet vacuum 1 0 (SU2 1 2 3 4) in
  total_action cfg torus3 f' beta4 - total_action cfg torus3 vacuum beta4
  = localact_doublet cfg torus3 f' beta4 (doublet_species f' 1) 0
    - localact_doublet cfg torus3 vacuum beta4 (doublet_species vacuum 1) 0.
Proof.
  apply (localact_doublet_total_action (Config 2 false true false) torus3 beta4
           vacuum 1 0 (SU2 1 2 3 4)).
  - exact torus3_periodic.
  - simpl. lia.
  - exact torus3_apart.
  - simpl. lia.
  - simpl. lia.
Defined.

(** X16.  On the periodic lattice of one node with the triplet switched
    on, replacing the triplet at one site changes the total action by
    exactly what [localact_triplet] at that site changes by. *)
Theorem localact_triplet_total_action
    (cfg : config) (l : lattice) (p : params) (f : fields) (i : nat)
    (v : triplet) :
  periodic l -> (i < sites l)%nat ->
  (forall d, (d < dim l)%nat -> prev l i d <> i) ->
  TRIPLET cfg = true ->
  total_action cfg l (set_triplet f i v) p - total_action cfg l f p
  = localact_triplet cfg l (set_triplet f i v) p i
    - localact_triplet cfg l f p i.
Proof. intros. now apply total_action_change_triplet. Qed.

Lemma localact_triplet_total_action_witness :
  let cfg := Config 0 true false false in
  let f' := set_triplet vacuum 0 (Trip 1 2 3) in
  total_action cfg torus3 f' beta4 - total_action cfg torus3 vacuum beta4
  = localact_triplet cfg torus3 f' beta4 0
    - localact_triplet cfg torus3 vacuum beta4 0.
Proof.
  apply (localact_triplet_total_action (Config 0 true false false) torus3 beta4
           vacuum 0 (Trip 1 2 3)).
  - exact torus3_periodic.
  - simpl. lia.
  - exact torus3_apart.
  - reflexivity.
Defined.

(** X17.  The backward hopping term at a site is the forward hopping term
    of its backward neighbour, for doublets and for the triplet, where
    the forward neighbour of the backward neighbour is the site itself. *)
Theorem hopping_backward_is_forward (cfg : config) (l : lattice) (f : fields)
    (p : params) (phi : nat -> su2mat) (i dir : nat) :
  next l (prev l i dir) dir = i ->
  hopping_doublet_backward cfg l f p phi i dir
  = hopping_doublet_forward cfg l f p phi (prev l i dir) dir /\
  hopping_triplet_backward l f p i dir
  = hopping_triplet_forward l f p (prev l i dir) dir.
Proof.
  intros H. split.
  - now apply hopping_doublet_backward_forward.
  - now apply hopping_triplet_backward_forward.
Qed.

Lemma hopping_backward_is_forward_witness :
  let cfg := Config 1 true true false in
  hopping_doublet_backward cfg torus3 flipped_link beta4 (su2doublet flipped_link) 0 0
  = hopping_doublet_forward cfg torus3 flipped_link beta4 (su2doublet flipped_link)
      (prev torus3 0 0) 0 /\
  hopping_triplet_backward torus3 flipped_link beta4 0 0
  = hopping_triplet_forward torus3 flipped_link beta4 (prev torus3 0 0) 0.
Proof.
  apply (hopping_backward_is_forward (Config 1 true true false) torus3 flipped_link
           beta4 (su2doublet flipped_link) 0 0).
  reflexivity.
Defined.
(** ** The complex 2x2 product [matmat] *)

Lemma cmat_eq (a b : cmat) :
  a.[0] = b.[0] -> a.[1] = b.[1] -> a.[2] = b.[2] -> a.[3] = b.[3] ->
  a.[4] = b.[4] -> a.[5] = b.[5] -> a.[6] = b.[6] -> a.[7] = b.[7] -> a = b.
Proof. destruct a, b. unbuf. intros; subst; reflexivity. Qed.

Ltac cmat_ext := apply cmat_eq; cbv [matmat cmat_one Z.eqb negb]; unbuf.

Lemma matmat_assoc (A B C : cmat) :
  matmat (matmat A B 0) C 0 = matmat A (matmat B C 0) 0.
Proof. destruct A, B, C. cmat_ext; ring. Qed.

Lemma matmat_one_l (A : cmat) : matmat cmat_one A 0 = A.
Proof. destruct A. cmat_ext; ring. Qed.

Lemma matmat_one_r (A : cmat) : matmat A cmat_one 0 = A.
Proof. destruct A. cmat_ext; ring. Qed.

Lemma matmat_dagger_second (A B : cmat) :
  matmat A B 1 = matmat A (matmat cmat_one B 1) 0.
Proof. destruct A, B. cmat_ext; ring. Qed.

Lemma matmat_dagger_involutive (B : cmat) :
  matmat cmat_one (matmat cmat_one B 1) 1 = B.
Proof. destruct B. cmat_ext; ring. Qed.

Lemma matmat_dagger_product (A B : cmat) :
  matmat cmat_one (matmat A B 0) 1 = matmat (matmat cmat_one B 1) A 1.
Proof. destruct A, B. cmat_ext; ring. Qed.

Lemma matmat_dag_nonzero (A B : cmat) (dag : Z) :
  dag <> 0%Z -> matmat A B dag = matmat A B 1.
Proof.
  intros H. unfold matmat.
  destruct (Z.eqb_spec dag 0) as [E|E]; [contradiction|]. reflexivity.
Qed.

(** X18.  Without conjugation [matmat] is an associative product on the
    eight-real matrices, with the unit matrix as two-sided unit. *)
Theorem matmat_monoid (A B C : cmat) :
  matmat (matmat A B 0) C 0 = matmat A (matmat B C 0) 0 /\
  matmat cmat_one A 0 = A /\ matmat A cmat_one 0 = A.
Proof.
  split; [apply matmat_assoc|]. split; [apply matmat_one_l|apply matmat_one_r].
Qed.



(** ** The projector onto the triplet direction *)

Lemma modulus_scale (c : R) (a : triplet) :
  0 <= c -> modulus (triplet_scale c a) = c * modulus a.
Proof.
  intros Hc. destruct a as [a0 a1 a2]. unfold modulus, triplet_scale. unbuf.
  replace (c * a0 * (c * a0) + c * a1 * (c * a1) + c * a2 * (c * a2))
    with ((c * c) * (a0 * a0 + a1 * a1 + a2 * a2)) by ring.
  rewrite sqrt_mult by nra. rewrite sqrt_square by exact Hc. reflexivity.
Qed.

(** X20.  [projector] depends on the direction of the adjoint field only:
    scaling a non-zero triplet by a positive factor leaves its output
    unchanged. *)
Theorem projector_scale_invariant (c : R) (a : triplet) :
  0 < c -> modulus a <> 0 ->
  projector (triplet_scale c a) = projector a.
Proof.
  intros Hc Hm. rewrite !projector_components, modulus_scale by lra.
  destruct a as [a0 a1 a2]. unfold triplet_scale.
  generalize dependent (modulus (Trip a0 a1 a2)). intros m Hm. unbuf.
  f_equal; field; split; lra.
Qed.

Lemma projector_scale_invariant_witness :
  projector (triplet_scale 2 (Trip 0 0 1)) = projector (Trip 0 0 1).
Proof.
  apply (projector_scale_invariant 2 (Trip 0 0 1)).
  - lra.
  - rewrite modulus_e3. lra.
Defined.

(** ** The projected plaquette angle and the magnetic charge *)

Lemma atan2_zero (x : R) : atan2 0 x = 0 \/ atan2 0 x = PI.
Proof.
  destruct (Rlt_dec 0 x) as [H|H].
  - left. unfold atan2. destruct (Rlt_dec 0 x); [|contradiction].
    unfold Rdiv. rewrite Rmult_0_l. apply atan_0.
  - destruct (Rlt_dec x 0) as [H'|H'].
    + right. now apply atan2_zero_negative.
    + left. unfold atan2.
      destruct (Rlt_dec 0 x); [contradiction|].
      destruct (Rlt_dec x 0); [contradiction|].
      destruct (Rlt_dec 0 0); [lra|]. reflexivity.
Qed.

(** X21.  In exact arithmetic [alpha_proj] takes two values only, 0 and
    PI * sqrt(betasu2): [project_u1] fills the imaginary part of every
    entry with the expression of its real part, so the imaginary part of
    the trace of the projected plaquette vanishes and [atan2] sees a zero
    first argument.  The value is the same for the two orders of the
    directions. *)
Theorem alpha_proj_two_values (l : lattice) (p : params) (f : fields) (i d1 d2 : nat) :
  (alpha_proj l p f i d1 d2 = 0 \/
   alpha_proj l p f i d1 d2 = PI * sqrt (betasu2 p)) /\
  alpha_proj l p f i d1 d2 = alpha_proj l p f i d2 d1.
Proof.
  split; [|apply alpha_proj_exchange].
  unfold alpha_proj. cbv zeta.
  destruct (project_u1_repeats l f i d1) as (A1 & A2 & A3 & A4).
  destruct (project_u1_repeats l f (next l i d1) d2) as (B1 & B2 & B3 & B4).
  destruct (project_u1_repeats l f (next l i d2) d1) as (C1 & C2 & C3 & C4).
  destruct (project_u1_repeats l f i d2) as (D1 & D2 & D3 & D4).
  destruct (matmat_real_imag_trace _ _ _ _
              A1 A2 A3 A4 B1 B2 B3 B4 C1 C2 C3 C4 D1 D2 D3 D4) as (X & _ & _).
  rewrite X.
  match goal with |- context [atan2 0 ?x] => destruct (atan2_zero x) as [E|E] end;
    rewrite E; [left; ring | right; reflexivity].
Qed.

Lemma sum_over_perm {A : Type} (xs ys : list A) (g : A -> R) :
  Permutation xs ys -> sum_over xs g = sum_over ys g.
Proof.
  induction 1; simpl.
  - reflexivity.
  - now rewrite IHPermutation.
  - ring.
  - now rewrite IHPermutation1.
Qed.

Lemma sum_over_next (l : lattice) (d : nat) (g : nat -> R) :
  periodic l -> (d < dim l)%nat ->
  sum_over (seq 0 (sites l)) (fun x => g (next l x d))
  = sum_over (seq 0 (sites l)) g.
Proof.
  intros Hper Hd.
  rewrite <- (sum_over_map (fun x => next l x d) (seq 0 (sites l)) g).
  symmetry. apply sum_over_perm. apply NoDup_Permutation_bis.
  - apply seq_NoDup.
  - rewrite length_map. apply Nat.le_refl.
  - intros x Hx. apply in_seq in Hx. apply in_map_iff.
    exists (prev l x d). split.
    + apply (next_prev l Hper); [lia|exact Hd].
    + apply in_seq. split; [lia|].
      simpl. apply (prev_in_range l Hper); [lia|exact Hd].
Qed.

Lemma magcharge_cube_sum_zero (l : lattice) (p : params) (f : fields) :
  periodic l ->
  sum_over (seq 0 (sites l)) (magcharge_cube l p f) = 0.
Proof.
  intros Hper.
  rewrite (sum_over_ext _ _
    (fun x => sum_over (seq 0 (dim l)) (fun d =>
       magfield l p f (next l x d) d - magfield l p f x d))).
  2:{ intros x _. unfold magcharge_cube. cbv zeta.
      rewrite (for_loop_accumulate _ _ (fun d =>
        magfield l p f (next l x d) d - magfield l p f x d)) by reflexivity.
      ring. }
  rewrite sum_over_swap. apply sum_over_zero. intros d Hd. apply in_seq in Hd.
  rewrite sum_over_minus.
  rewrite (sum_over_next l d (fun x => magfield l p f x d)) by (try assumption; lia).
  ring.
Qed.


(** ** Smearing *)

Lemma su2sqr_su2_div (X : su2mat) (c : R) :
  c <> 0 -> su2sqr (su2_div X c) = su2sqr X / (c * c).
Proof.
  intros Hc. destruct X. unfold su2sqr, su2_div. unbuf. field. exact Hc.
Qed.

Lemma su2sqr_nonneg (X : su2mat) : 0 <= su2sqr X.
Proof. destruct X. unfold su2sqr. unbuf. nra. Qed.

Lemma smear_link_normalizes (l : lattice) (f : fields) (smear_dir : nat -> bool)
    (i dir : nat) :
  snd (smear_link l f smear_dir i dir)
  = su2_div (smear_link_unnormalized l f smear_dir i dir)
      (sqrt (su2sqr (smear_link_unnormalized l f smear_dir i dir))).
Proof.
  unfold smear_link, smear_link_unnormalized. cbv zeta.
  match goal with
  | |- context [for_loop _ ?body ?init] =>
      destruct (for_loop (dim l) body init) as [[r v] n]
  end.
  reflexivity.
Qed.

(** X23.  [smear_link] returns a unit-norm link whenever the averaged
    product it normalises is not the zero matrix, whatever the input
    links are; its warning flag is raised exactly when the link direction
    is not among the smeared directions. *)
Theorem smear_link_unit_norm (l : lattice) (f : fields) (smear_dir : nat -> bool)
    (i dir : nat) :
  su2sqr (smear_link_unnormalized l f smear_dir i dir) <> 0 ->
  su2sqr (snd (smear_link l f smear_dir i dir)) = 1 /\
  fst (smear_link l f smear_dir i dir) = negb (smear_dir dir).
Proof.
  intros H. split.
  - rewrite smear_link_normalizes.
    set (X := smear_link_unnormalized l f smear_dir i dir) in *.
    pose proof (su2sqr_nonneg X) as Hn.
    assert (Hs : sqrt (su2sqr X) <> 0).
    { intros E. apply sqrt_eq_0 in E; [contradiction|exact Hn]. }
    rewrite su2sqr_su2_div by exact Hs.
    rewrite sqrt_sqrt by exact Hn. field. exact H.
  - unfold smear_link. cbv zeta.
    match goal with
    | |- context [for_loop _ ?body ?init] =>
        destruct (for_loop (dim l) body init) as [[r v] n]
    end.
    reflexivity.
Qed.

Lemma smear_link_unnormalized_identity (l : lattice) (f : fields)
    (smear_dir : nat -> bool) (i dir : nat) :
  all_identity f -> smear_link_unnormalized l f smear_dir i dir = su2_one.
Proof.
  intros Hid. unfold smear_link_unnormalized. cbv zeta. rewrite !Hid.
  match goal with
  | |- context [for_loop _ ?body ?init] =>
      assert (L : forall n, exists paths : nat,
        for_loop n body init
        = (SU2 (INR paths) 0 0 0, SU2 (INR paths) 0 0 0, paths)
        /\ (1 <= paths)%nat)
  end.
  { induction n as [|n [paths [IH Hp]]].
    - exists 1%nat. split; [reflexivity | lia].
    - rewrite for_loop_S, IH.
      destruct (Nat.eqb_spec n dir) as [E|E]; simpl negb; simpl andb.
      + exists paths. split; [reflexivity|exact Hp].
      + destruct (smear_dir n).
        * exists (paths + 2)%nat. split; [|lia].
          rewrite !onedir_identity by auto. rewrite plus_INR.
          apply f_equal2; [apply f_equal2|reflexivity];
          su2_ext; unfold su2_add; unbuf; simpl; ring.
        * exists paths. split; [reflexivity|exact Hp]. }
  destruct (L (dim l)) as [paths [E Hp]]. rewrite E. cbv beta iota.
  rewrite su2_div_self by (apply not_0_INR; lia).
  apply su2rot_one_l.
Qed.

Lemma smear_link_unit_norm_witness :
  su2sqr (snd (smear_link torus3 vacuum (fun _ => true) 0 0)) = 1 /\
  fst (smear_link torus3 vacuum (fun _ => true) 0 0) = negb true.
Proof.
  apply (smear_link_unit_norm torus3 vacuum (fun _ => true) 0 0).
  rewrite smear_link_unnormalized_identity by exact vacuum_all_identity.
  unfold su2sqr, su2_one. unbuf. lra.
Defined.

(** X24.  With identity links, [smear_triplet] returns a triplet field
    that is the same at all sites unchanged, whichever directions are
    smeared: the sum over the 2k neighbours is divided by the 1 + 2k
    sites counted. *)
Theorem smear_triplet_uniform (l : lattice) (f : fields) (smear_dir : nat -> bool)
    (i : nat) :
  all_identity f ->
  (forall x y, su2triplet f x = su2triplet f y) ->
  smear_triplet l f smear_dir i = su2triplet f i.
Proof.
  intros Hu Ha. unfold smear_triplet. cbv zeta.
  match goal with
  | |- context [for_loop _ ?body ?init] =>
      assert (L : forall n, exists k : nat,
        for_loop n body init
        = (Trip (2 * INR k * (su2triplet f i).[0]) (2 * INR k * (su2triplet f i).[1])
                (2 * INR k * (su2triplet f i).[2]), (1 + 2 * k)%nat))
  end.
  { induction n as [|n [k IH]].
    - exists 0%nat. unfold for_loop. simpl. f_equal. f_equal; ring.
    - rewrite for_loop_S, IH.
      destruct (smear_dir n).
      + exists (S k). rewrite !Hu, (Ha (next l i n) i), (Ha (prev l i n) i).
        rewrite S_INR. destruct (su2triplet f i) as [a0 a1 a2].
        unfold su2_one. unbuf. f_equal; [f_equal; ring | lia].
      + exists k. reflexivity. }
  destruct (L (dim l)) as [k E]. rewrite E. clear E L.
  rewrite plus_INR, mult_INR. simpl INR.
  pose proof (pos_INR k) as Hk.
  destruct (su2triplet f i) as [a0 a1 a2]. unbuf.
  f_equal; field; lra.
Qed.

Lemma smear_triplet_uniform_witness :
  smear_triplet torus3 vacuum (fun _ => true) 0 = su2triplet vacuum 0.
Proof.
  apply (smear_triplet_uniform torus3 vacuum (fun _ => true) 0).
  - exact vacuum_all_identity.
  - reflexivity.
Defined.

(** ** The action of a uniform configuration *)

Lemma su2ptrace_identity (l : lattice) (f : fields) (x a b : nat) :
  all_identity f -> su2ptrace l f x a b = 2.
Proof.
  intros Hu. unfold su2ptrace. cbv zeta. rewrite !Hu.
  unfold su2trace4, su2_one. unbuf. ring.
Qed.

Lemma u1ptrace_zero (l : lattice) (f : fields) (x a b : nat) :
  (forall x d, u1link f x d = 0) -> u1ptrace l f x a b = 1.
Proof.
  intros Hu. unfold u1ptrace. cbv zeta. rewrite !Hu.
  replace (0 + 0 - 0 - 0) with 0 by ring. apply cos_0.
Qed.

Lemma covariant_doublet_uniform (cfg : config) (l : lattice) (f : fields)
    (p : params) (phi : nat -> su2mat) (i : nat) :
  all_identity f ->
  (forall x d, u1link f x d = 0) ->
  (forall x y, phi x = phi y) ->
  covariant_doublet cfg l f p phi i = 0.
Proof.
  intros Hu Ha Hphi. rewrite covariant_doublet_sum.
  apply sum_over_zero. intros d _.
  unfold hopping_doublet_forward. cbv zeta.
  rewrite Hu, Ha, (Hphi (next l i d) i), hopping_trace_su2u1_zero.
  destruct (phi i) as [a0 a1 a2 a3].
  destruct (negb (U1 cfg)); unfold doubletsq, hopping_trace, su2_one; unbuf; lra.
Qed.

Lemma covariant_triplet_uniform (l : lattice) (f : fields) (p : params) (i : nat) :
  all_identity f ->
  (forall x y, su2triplet f x = su2triplet f y) ->
  covariant_triplet l f p i = 0.
Proof.
  intros Hu Ha. rewrite covariant_triplet_sum.
  apply sum_over_zero. intros d _.
  unfold hopping_triplet_forward. cbv zeta.
  rewrite Hu, (Ha (next l i d) i).
  destruct (su2triplet f i) as [a0 a1 a2].
  unfold tripletsq, hopping_trace_triplet, su2_one; unbuf; lra.
Qed.

(** X25.  For a uniform configuration (identity links, zero U(1) angles,
    every scalar field the same at all sites) the gauge and kinetic parts
    of [action_local] cancel and only the potential is left, for every
    choice of the fields compiled in. *)
Theorem uniform_fields_action (cfg : config) (l : lattice) (f : fields)
    (p : params) (i : nat) :
  uniform_fields f ->
  action_local cfg l f p i = higgspotential cfg f p i.
Proof.
  intros (Hu & Ha & Hd1 & Hd2 & Ht & Hs).
  unfold action_local. cbv zeta.
  rewrite local_su2wilson_sum, local_u1wilson_sum.
  rewrite (sum_over_zero (seq 0 (dim l))
    (fun d1 => sum_over (seq 0 d1) (fun d2 => 1 - 0.5 * su2ptrace l f i d2 d1))).
  2:{ intros d1 _. apply sum_over_zero. intros d2 _.
      rewrite su2ptrace_identity by exact Hu. lra. }
  rewrite (sum_over_zero (seq 0 (dim l))
    (fun d1 => sum_over (seq 0 d1) (fun d2 => 1 - u1ptrace l f i d2 d1))).
  2:{ intros d1 _. apply sum_over_zero. intros d2 _.
      rewrite u1ptrace_zero by exact Ha. lra. }
  rewrite (for_loop_accumulate (NHIGGS cfg) _ (fun _ => 0)).
  2:{ intros db s _.
      rewrite covariant_doublet_uniform
        by first [ assumption | destruct db; simpl; assumption ].
      ring. }
  rewrite sum_over_const_zero.
  rewrite covariant_triplet_uniform by assumption.
  rewrite (for_loop_accumulate (dim l) _ (fun _ => - (singlet f i * singlet f i))).
  2:{ intros d s _. rewrite (Hs (next l i d) i). ring. }
  rewrite sum_over_const, length_seq.
  destruct (U1 cfg), (TRIPLET cfg), (SINGLET cfg); ring.
Qed.

Lemma uniform_fields_vacuum : uniform_fields vacuum.
Proof.
  split; [exact vacuum_all_identity|]. repeat split; reflexivity.
Qed.

Lemma uniform_fields_action_witness :
  let cfg := Config 2 true true true in
  action_local cfg torus3 vacuum beta4 0 = higgspotential cfg vacuum beta4 0.
Proof.
  apply (uniform_fields_action (Config 2 true true true) torus3 vacuum beta4 0).
  exact uniform_fields_vacuum.
Defined.
(** ** Reversal and centre symmetry of the hopping traces *)

(** X26.  Reading a hopping term from the other end: the doublet trace
    and the triplet trace are unchanged when the two fields are exchanged
    and the link is conjugated; the triplet trace, quadratic in the link,
    is also unchanged when the link changes sign. *)
Theorem hopping_traces_reversal (phi1 phi2 u : su2mat) (a1 a2 : triplet) :
  hopping_trace phi1 u phi2 = hopping_trace phi2 (su2_conj u) phi1 /\
  hopping_trace_triplet a1 u a2 = hopping_trace_triplet a2 (su2_conj u) a1 /\
  hopping_trace_triplet a1 (SU2 (- u.[0]) (- u.[1]) (- u.[2]) (- u.[3])) a2
  = hopping_trace_triplet a1 u a2.
Proof.
  destruct phi1, phi2, u, a1, a2.
  unfold hopping_trace, hopping_trace_triplet, su2_conj. unbuf.
  repeat split; ring.
Qed.

(** ** Staples and plaquettes as products *)

(** X27.  The closed-form staples are products under [su2rot]:
    [su2staple_counterwise] is u1 u2^+ u3^+ and [su2staple_clockwise] is
    u1^+ u2^+ u3, and the norm of each is the product of the three
    norms. *)
Theorem staples_are_products (u1 u2 u3 : su2mat) :
  su2staple_counterwise u1 u2 u3
  = su2rot u1 (su2rot (su2_conj u2) (su2_conj u3)) /\
  su2staple_clockwise u1 u2 u3
  = su2rot (su2_conj u1) (su2rot (su2_conj u2) u3) /\
  su2sqr (su2staple_counterwise u1 u2 u3) = su2sqr u1 * su2sqr u2 * su2sqr u3 /\
  su2sqr (su2staple_clockwise u1 u2 u3) = su2sqr u1 * su2sqr u2 * su2sqr u3.
Proof.
  rewrite staple_counterwise_product, staple_clockwise_product.
  rewrite !su2sqr_su2rot, !su2sqr_conj.
  repeat split; ring.
Qed.

(** X28.  With unit-norm links the plaquette matrix built by
    [su2plaquette] has unit norm. *)
Theorem su2plaquette_unit_norm (l : lattice) (f : fields) (i dir1 dir2 : nat) :
  unit_links f -> su2sqr (su2plaquette l f i dir1 dir2) = 1.
Proof.
  intros Hu. unfold su2plaquette. cbv zeta.
  rewrite !su2sqr_su2rot, !su2sqr_conj, !Hu. ring.
Qed.

Lemma su2plaquette_unit_norm_witness :
  su2sqr (su2plaquette torus3 flipped_link 0 0 1) = 1.
Proof.
  apply (su2plaquette_unit_norm torus3 flipped_link 0 0 1).
  exact unit_links_flipped_link.
Defined.
